(** * Aurora OS: the FileStorage service (src/services/fileStorage.ts)

    A shallow embedding of the [FileStorage] class and of the host
    interfaces it talks to (the Capacitor Filesystem plugin, the browser's
    [URL], [FileReader], [console], clock and random source), followed by
    the properties of section 8 of the specification.

    Conventions.
    - JavaScript strings are modelled as [string] over 8-bit characters, so
      the only line terminators a regular expression can meet are LF and CR.
    - Integral JavaScript numbers (sizes, offsets, clock readings) are [Z].
    - An [async] method is a [Task]: a function from the log of host calls
      made so far to an outcome (resolved or rejected) and the extended log.
      The host answers every call as a function of the log and of the call,
      so any sequence of answers, failures included, is some [Platform].
    - Reading a blob with a [FileReader] is not a logged call: the host
      decides, as a function of the log and of the blob, whether the read
      loads or ends in an error event; what a read that loads delivers is
      fixed by the blob. *)

From Stdlib Require Import ZArith NArith List String Ascii Bool Lia.
From Stdlib.Strings Require Import Byte.
From Equations Require Import Equations.
Import ListNotations.

Local Open Scope string_scope.
Local Open Scope Z_scope.

(** ** JavaScript string primitives used by the service *)

Module JS.

(** [s.startsWith(p)] *)
Definition startsWith (s p : string) : bool := String.prefix p s.

(** [s.split(sep)] for a one-character separator: never the empty array. *)
Fixpoint split (sep : ascii) (s : string) : list string :=
  match s with
  | EmptyString => [EmptyString]
  | String c rest =>
      if Ascii.eqb c sep then EmptyString :: split sep rest
      else match split sep rest with
           | [] => [String c EmptyString]
           | w :: ws => String c w :: ws
           end
  end.

(** [a.pop()]: the last element, [undefined] on the empty array. *)
Fixpoint pop (a : list string) : option string :=
  match a with
  | [] => None
  | [x] => Some x
  | _ :: rest => pop rest
  end.

(** [a[i]]: [undefined] out of range. *)
Definition index (a : list string) (i : nat) : option string := nth_error a i.

(** Truthiness of a value that is a string or [undefined]. *)
Definition truthy (v : option string) : bool :=
  match v with
  | Some s => negb (String.eqb s "")
  | None => false
  end.

(** [a || b] on such values. *)
Definition or (a b : option string) : option string :=
  if truthy a then a else b.

(** [s.substring(i, j)] for non-negative indices: both are clamped to the
    length and swapped when [i > j]. *)
Definition substring (i j : nat) (s : string) : string :=
  String.substring (Nat.min i j) (Nat.max i j - Nat.min i j) s.

(** Decimal digits of a non-negative integer, most significant first. *)
Definition digit_char (d : Z) : ascii := ascii_of_nat (48 + Z.to_nat d).

Fixpoint digits (fuel : nat) (n : Z) (acc : string) : string :=
  let acc' := String (digit_char (n mod 10)) acc in
  match fuel with
  | O => acc'
  | S k => if n <? 10 then acc' else digits k (n / 10) acc'
  end.

(** [String(n)] (also a template literal's [${n}]) for an integer below
    1e21: the decimal digits, with a minus sign when negative. *)
Definition string_of_number (n : Z) : string :=
  if n <? 0 then String "-" (digits (Z.to_nat (Z.log2 (- n))) (- n) "")
  else digits (Z.to_nat (Z.log2 n)) n "".

Definition is_line_terminator (c : ascii) : bool :=
  Ascii.eqb c "010" || Ascii.eqb c "013".

(** The longest prefix without a line terminator: what [.*] consumes. *)
Fixpoint dot_star (s : string) : string :=
  match s with
  | EmptyString => EmptyString
  | String c rest =>
      if is_line_terminator c then EmptyString else String c (dot_star rest)
  end.

(** [s] without its prefix [p], when it has it. *)
Fixpoint strip_prefix (p s : string) : option string :=
  match p, s with
  | EmptyString, _ => Some s
  | String a p', String b s' =>
      if Ascii.eqb a b then strip_prefix p' s' else None
  | String _ _, EmptyString => None
  end.

(** [s.match(/lit.+/)] for a literal [lit]: the leftmost position where
    [lit] is followed by at least one character that is not a line
    terminator; the match runs to the end of that line.  [None] is
    JavaScript's [null]; [Some m] is [match[0]]. *)
Fixpoint match_literal_dot_plus (lit s : string) : option string :=
  let here :=
    match strip_prefix lit s with
    | Some rest =>
        match dot_star rest with
        | EmptyString => None
        | run => Some (lit ++ run)
        end
    | None => None
    end in
  match here with
  | Some m => Some m
  | None =>
      match s with
      | EmptyString => None
      | String _ rest => match_literal_dot_plus lit rest
      end
  end.

End JS.

(** ** Base64, as [FileReader.readAsDataURL] produces it (RFC 4648) *)

Module Base64.

Definition alphabet : string :=
  "ABCDEFGHIJKLMNOPQRSTUVWXYZabcdefghijklmnopqrstuvwxyz0123456789+/".

Definition pad : ascii := "="%char.

Definition sextet_char (n : N) : ascii :=
  match String.get (N.to_nat n) alphabet with
  | Some c => c
  | None => pad
  end.

Fixpoint index_of (c : ascii) (s : string) : option N :=
  match s with
  | EmptyString => None
  | String a rest =>
      if Ascii.eqb a c then Some 0%N
      else option_map N.succ (index_of c rest)
  end.

Definition char_sextet (c : ascii) : option N := index_of c alphabet.

(** Three octets as one 24-bit group. *)
Definition group24 (a b c : byte) : N :=
  (Byte.to_N a * 65536 + Byte.to_N b * 256 + Byte.to_N c)%N.

Definition sextet0 (n : N) : N := (n / 262144)%N.
Definition sextet1 (n : N) : N := ((n / 4096) mod 64)%N.
Definition sextet2 (n : N) : N := ((n / 64) mod 64)%N.
Definition sextet3 (n : N) : N := (n mod 64)%N.

Fixpoint encode (l : list byte) : string :=
  match l with
  | [] => EmptyString
  | [a] =>
      let n := group24 a x00 x00 in
      String (sextet_char (sextet0 n)) (String (sextet_char (sextet1 n))
        (String pad (String pad EmptyString)))
  | [a; b] =>
      let n := group24 a b x00 in
      String (sextet_char (sextet0 n)) (String (sextet_char (sextet1 n))
        (String (sextet_char (sextet2 n)) (String pad EmptyString)))
  | a :: b :: c :: rest =>
      let n := group24 a b c in
      String (sextet_char (sextet0 n)) (String (sextet_char (sextet1 n))
        (String (sextet_char (sextet2 n)) (String (sextet_char (sextet3 n))
          (encode rest))))
  end.

Definition octet (n : N) : byte :=
  match Byte.of_N (n mod 256)%N with
  | Some b => b
  | None => x00
  end.

Definition join24 (s0 s1 s2 s3 : N) : N :=
  (s0 * 262144 + s1 * 4096 + s2 * 64 + s3)%N.

Definition octet0 (n : N) : byte := octet (n / 65536)%N.
Definition octet1 (n : N) : byte := octet (n / 256)%N.
Definition octet2 (n : N) : byte := octet n.

(** Strict decoding: groups of four characters, padding only in the last. *)
Fixpoint decode (s : string) : option (list byte) :=
  match s with
  | EmptyString => Some []
  | String c0 (String c1 (String c2 (String c3 rest))) =>
      match char_sextet c0, char_sextet c1 with
      | Some s0, Some s1 =>
          if Ascii.eqb c2 pad then
            if Ascii.eqb c3 pad && String.eqb rest EmptyString
            then Some [octet0 (join24 s0 s1 0 0)]
            else None
          else
            match char_sextet c2 with
            | Some s2 =>
                if Ascii.eqb c3 pad then
                  if String.eqb rest EmptyString
                  then Some [octet0 (join24 s0 s1 s2 0);
                             octet1 (join24 s0 s1 s2 0)]
                  else None
                else
                  match char_sextet c3 with
                  | Some s3 =>
                      let n := join24 s0 s1 s2 s3 in
                      option_map
                        (fun tl => octet0 n :: octet1 n :: octet2 n :: tl)
                        (decode rest)
                  | None => None
                  end
            | None => None
            end
      | _, _ => None
      end
  | _ => None
  end.

(** [s] holds no comma. *)
Fixpoint noComma (s : string) : bool :=
  match s with
  | EmptyString => true
  | String c rest => negb (Ascii.eqb c ",") && noComma rest
  end.

End Base64.

(** ** Values exchanged with the host *)

(** A [Blob]: its bytes and its media type. *)
Module Blob.
Record t : Type := mk { bytes : list byte; type : string }.
Definition size (b : t) : Z := Z.of_nat (List.length (bytes b)).
End Blob.

(** A [File] as the service reads it: [name], [type] and the content (whose
    length is [size]), plus the [path] and [webPath] properties that the
    Android bridge may inject ([None] is [undefined]). *)
Module File.
Record t : Type := mk {
  name : string;
  type : string;
  bytes : list byte;
  path : option string;
  webPath : option string
}.
Definition size (f : t) : Z := Z.of_nat (List.length (bytes f)).

(** [Blob.prototype.slice(start, end)]: negative indices count from the end,
    both are clamped to the size; the slice has the empty media type. *)
Definition relative (i sz : Z) : Z :=
  if i <? 0 then Z.max (sz + i) 0 else Z.min i sz.

Definition slice (f : t) (start end_ : Z) : Blob.t :=
  let s := relative start (size f) in
  let e := relative end_ (size f) in
  let span := Z.max (e - s) 0 in
  Blob.mk (firstn (Z.to_nat span) (skipn (Z.to_nat s) (bytes f))) "".
End File.

(** [@capacitor/filesystem]'s [Directory] enumeration. *)
Module Directory.
Inductive t : Type :=
| Documents | Data | Library | Cache | External | ExternalStorage.
End Directory.

(** Entries of a [readdir] result and the result of [stat]: the fields the
    service reads. *)
Module FileInfo.
Record t : Type := mk { name : string }.
End FileInfo.

Module ReaddirResult.
Record t : Type := mk { files : list FileInfo.t }.
End ReaddirResult.

Module StatResult.
Record t : Type := mk { size : Z }.
End StatResult.

Module GetUriResult.
Record t : Type := mk { uri : string }.
End GetUriResult.

(** A thrown value or rejection reason. *)
Definition Error : Type := string.

(** Calls that answer at once and never throw. *)
Inductive HostCall : Type :=
| DateNow                                   (* Date.now() *)
| MathRandomToString36                      (* Math.random().toString(36) *)
| CreateObjectURL (file : File.t)           (* URL.createObjectURL(file) *)
| RevokeObjectURL (url : string)            (* URL.revokeObjectURL(url) *)
| ConsoleWarn (message : string)            (* console.warn(message) *)
| ConsoleError (message : string) (error : Error)
| SetTimeout (ms : Z)                       (* await new Promise(r => setTimeout(r, ms)) *)
| CapacitorConvertFileSrc (uri : string).   (* Capacitor.convertFileSrc(uri) *)

Definition HostReply (c : HostCall) : Type :=
  match c with
  | DateNow => Z
  | MathRandomToString36 => string
  | CreateObjectURL _ => string
  | CapacitorConvertFileSrc _ => string
  | RevokeObjectURL _ | ConsoleWarn _ | ConsoleError _ _ | SetTimeout _ => unit
  end.

(** Calls of the Filesystem plugin: each returns a promise that may reject.
    An absent option is [None]. *)
Inductive FsCall : Type :=
| Copy (from to : string) (directory toDirectory : option Directory.t)
| WriteFile (path : string) (data : option string) (directory : Directory.t)
    (recursive : bool)
| AppendFile (path : string) (data : option string) (directory : Directory.t)
| GetUri (path : string) (directory : Directory.t)
| Readdir (path : string) (directory : Directory.t)
| Stat (path : string) (directory : Directory.t)
| DeleteFile (path : string) (directory : Directory.t).

Definition FsReply (c : FsCall) : Type :=
  match c with
  | GetUri _ _ => GetUriResult.t
  | Readdir _ _ => ReaddirResult.t
  | Stat _ _ => StatResult.t
  | Copy _ _ _ _ | WriteFile _ _ _ _ | AppendFile _ _ _ | DeleteFile _ _ => unit
  end.

Inductive Event : Type :=
| Host (c : HostCall)
| Fs (c : FsCall).

(** The log of calls made so far, oldest first. *)
Definition Trace : Type := list Event.

Inductive Outcome (A : Type) : Type :=
| Resolved (a : A)
| Rejected (e : Error).
Arguments Resolved {A} a.
Arguments Rejected {A} e.

(** The environment the service runs in. *)
Record Platform : Type := {
  isNativePlatform : bool;                       (* Capacitor.isNativePlatform() *)
  host : Trace -> forall c : HostCall, HostReply c;
  filesystem : Trace -> forall c : FsCall, Outcome (FsReply c);
  (* FileReader: [Some e] when reading the blob raises [onerror] with the
     event [e], [None] when it raises [onload] *)
  readError : Trace -> Blob.t -> option Error
}.

(** ** Asynchronous computations *)

Definition Task (A : Type) : Type := Trace -> Outcome A * Trace.

Definition ret {A} (a : A) : Task A := fun h => (Resolved a, h).

Definition throw {A} (e : Error) : Task A := fun h => (Rejected e, h).

Definition bind {A B} (m : Task A) (k : A -> Task B) : Task B :=
  fun h =>
    match m h with
    | (Resolved a, h') => k a h'
    | (Rejected e, h') => (Rejected e, h')
    end.

(** [try { body } catch (e) { handler }], also [promise.catch(handler)]. *)
Definition try_catch {A} (body : Task A) (handler : Error -> Task A) : Task A :=
  fun h =>
    match body h with
    | (Resolved a, h') => (Resolved a, h')
    | (Rejected e, h') => handler e h'
    end.

Declare Scope task_scope.
Delimit Scope task_scope with task.
Notation "x <- m ;; k" := (bind m (fun x => k))
  (at level 61, m at next level, right associativity) : task_scope.
Notation "m ;; k" := (bind m (fun _ => k))
  (at level 61, right associativity) : task_scope.
Local Open Scope task_scope.

Definition hostCall (P : Platform) (c : HostCall) : Task (HostReply c) :=
  fun h => (Resolved (host P h c), (h ++ [Host c])%list).

Definition fsCall (P : Platform) (c : FsCall) : Task (FsReply c) :=
  fun h => (filesystem P h c, (h ++ [Fs c])%list).

(** The result and the calls of a task started on the log [h]. *)
Definition result {A} (m : Task A) (h : Trace) : Outcome A := fst (m h).
Definition log {A} (m : Task A) (h : Trace) : Trace := snd (m h).

(** ** [FileReader] *)

Module FileReader.

(** [readAsDataURL(blob)], as delivered to [onload] in [reader.result]
    when the read loads: the blob's media type ([application/octet-stream]
    when it has none) and its content in Base64.  Whether the read loads is
    the platform's [readError]. *)
Definition readAsDataURL (blob : Blob.t) : string :=
  "data:"
  ++ (if String.eqb (Blob.type blob) "" then "application/octet-stream"
      else Blob.type blob)
  ++ ";base64," ++ Base64.encode (Blob.bytes blob).

End FileReader.

(** ** The service *)

(** [interface SaveFileResult] *)
Record SaveFileResult : Type := {
  uri : string;
  size : Z;
  mimeType : string
}.

(** The result of [getNativeStorageStats]. *)
Module StorageStats.
Record t : Type := mk { count : Z; size : Z }.
End StorageStats.

(** An element of the result of [getNativeStorageFiles]. *)
Module StorageEntry.
Record t : Type := mk {
  name : string;
  path : string;
  category : string;
  size : Z
}.
End StorageEntry.

Definition FILE_SIZE_THRESHOLD : Z := 1 * 1024 * 1024.

(** [const chunkSize] of [saveFileChunked]. *)
Definition chunkSize : Z := 1024 * 1024.

(** [const categories] of the two scans. *)
Definition categories : list string :=
  ["videos"; "audio"; "images"; "documents"].

Section FileStorage.

Variable P : Platform.

Definition isSupportedCapacitor : bool := isNativePlatform P.

Definition getCategory (mimeType : string) : string :=
  if JS.startsWith mimeType "video/" then "videos"
  else if JS.startsWith mimeType "audio/" then "audio"
  else if JS.startsWith mimeType "image/" then "images"
  else "documents".

Definition generateFilename (originalName : string) : Task string :=
  timestamp <- hostCall P DateNow;;
  random36 <- hostCall P MathRandomToString36;;
  let random := JS.substring 2 8 random36 in
  let ext :=
    match JS.pop (JS.split "." originalName) with
    | Some e => if String.eqb e "" then "bin" else e
    | None => "bin"
    end in
  ret (JS.string_of_number timestamp ++ "_" ++ random ++ "." ++ ext).

(** The promise settles when the reader fires: [onerror] rejects it with
    the event, [onload] resolves it with the text after the first comma of
    [reader.result]. *)
Definition blobToBase64 (blob : Blob.t) : Task (option string) :=
  fun h =>
    match readError P h blob with
    | Some event => throw event h
    | None =>
        let result := FileReader.readAsDataURL blob in
        ret (JS.index (JS.split "," result) 1) h
    end.

(** The [while] loop of [saveFileChunked], from the values [offset] and
    [isFirstChunk] hold when its condition is tested. *)
Equations? saveFileChunked_loop (file : File.t) (path : string)
    (offset : Z) (isFirstChunk : bool) : Task unit
    by wf (Z.to_nat (File.size file - offset)) lt :=
saveFileChunked_loop file path offset isFirstChunk
    with Z_lt_dec offset (File.size file) := {
  | left _ =>
      let chunk := File.slice file offset (offset + chunkSize) in
      base64 <- blobToBase64 chunk;;
      (if isFirstChunk
       then fsCall P (WriteFile path base64 Directory.Data true)
       else fsCall P (AppendFile path base64 Directory.Data));;
      hostCall P (SetTimeout 0);;
      saveFileChunked_loop file path (offset + chunkSize) false
  | right _ => ret tt }.
Proof. unfold chunkSize. lia. Qed.

Definition saveFileChunked (file : File.t) (path : string) : Task unit :=
  saveFileChunked_loop file path 0 true.

Definition saveFile (file : File.t) : Task SaveFileResult :=
  if negb isSupportedCapacitor then
    blobUrl <- hostCall P (CreateObjectURL file);;
    ret {| uri := blobUrl; size := File.size file; mimeType := File.type file |}
  else
    try_catch
      (let category := getCategory (File.type file) in
       filename <- generateFilename (File.name file);;
       let path := "aurora-files/" ++ category ++ "/" ++ filename in
       let sourceUri := JS.or (File.path file) (File.webPath file) in
       (if JS.truthy sourceUri then
          let from := match sourceUri with Some s => s | None => "" end in
          try_catch
            (fsCall P (Copy from path (Some Directory.External)
                         (Some Directory.Data)))
            (fun _ => fsCall P (Copy from path None (Some Directory.Data)))
        else
          hostCall P
            (ConsoleWarn "No native path found. Using memory-safe chunked write.");;
          saveFileChunked file path);;
       result <- fsCall P (GetUri path Directory.Data);;
       ret {| uri := GetUriResult.uri result;
              size := File.size file;
              mimeType := File.type file |})
      (fun error =>
         hostCall P (ConsoleError "Failed to save file to native storage:" error);;
         throw error).

Definition shouldUseNativeStorage (fileSize : Z) : bool :=
  isSupportedCapacitor && (fileSize >=? FILE_SIZE_THRESHOLD).

Definition deleteFile (uri : string) : Task unit :=
  if negb isSupportedCapacitor then
    if JS.startsWith uri "blob:" then hostCall P (RevokeObjectURL uri)
    else ret tt
  else
    try_catch
      (match JS.match_literal_dot_plus "aurora-files/" uri with
       | Some m => fsCall P (DeleteFile m Directory.Data)
       | None => ret tt
       end)
      (fun error => hostCall P (ConsoleError "Failed to delete file:" error)).

Definition convertFileSrc (uri : string) : Task string :=
  if negb isSupportedCapacitor then ret uri
  else hostCall P (CapacitorConvertFileSrc uri).

(** The inner [for] of [getNativeStorageStats]: [totalSize] is threaded
    through the iterations; a rejected [stat] leaves it as it was. *)
Fixpoint sumSizes (cat : string) (files : list FileInfo.t) (totalSize : Z)
    : Task Z :=
  match files with
  | [] => ret totalSize
  | file :: rest =>
      totalSize' <-
        try_catch
          (stat <- fsCall P (Stat ("aurora-files/" ++ cat ++ "/"
                                   ++ FileInfo.name file) Directory.Data);;
           ret (totalSize + StatResult.size stat))
          (fun _ => ret totalSize);;
      sumSizes cat rest totalSize'
  end.

(** The outer [for] of [getNativeStorageStats].  Inside its [try] only
    [readdir] can reject, and it does so before either total is updated, so
    the handler continues with the totals the iteration started from. *)
Fixpoint scanStats (cats : list string) (totalCount totalSize : Z)
    : Task StorageStats.t :=
  match cats with
  | [] => ret (StorageStats.mk totalCount totalSize)
  | cat :: rest =>
      totals <-
        try_catch
          (result <- fsCall P (Readdir ("aurora-files/" ++ cat) Directory.Data);;
           let totalCount' :=
             totalCount + Z.of_nat (List.length (ReaddirResult.files result)) in
           totalSize' <- sumSizes cat (ReaddirResult.files result) totalSize;;
           ret (totalCount', totalSize'))
          (fun _ => ret (totalCount, totalSize));;
      scanStats rest (fst totals) (snd totals)
  end.

(** The outermost [catch] is never entered, since [scanStats] handles every
    rejection itself; were it entered, the totals returned would be those
    reached so far. *)
Definition getNativeStorageStats : Task StorageStats.t :=
  if negb isSupportedCapacitor then ret (StorageStats.mk 0 0)
  else
    try_catch
      (scanStats categories 0 0)
      (fun error =>
         hostCall P (ConsoleError "Failed to get native storage stats:" error);;
         ret (StorageStats.mk 0 0)).

(** The inner [for] of [getNativeStorageFiles]: an entry is pushed only
    after its [stat] resolved. *)
Fixpoint statEntries (cat : string) (entries : list FileInfo.t)
    (files : list StorageEntry.t) : Task (list StorageEntry.t) :=
  match entries with
  | [] => ret files
  | file :: rest =>
      files' <-
        try_catch
          (stat <- fsCall P (Stat ("aurora-files/" ++ cat ++ "/"
                                   ++ FileInfo.name file) Directory.Data);;
           ret (files ++ [StorageEntry.mk (FileInfo.name file)
                            ("aurora-files/" ++ cat ++ "/" ++ FileInfo.name file)
                            cat (StatResult.size stat)])%list)
          (fun _ => ret files);;
      statEntries cat rest files'
  end.

(** The outer [for] of [getNativeStorageFiles]; as in [scanStats], only
    [readdir] can reject inside its [try], before anything is pushed. *)
Fixpoint scanFiles (cats : list string) (files : list StorageEntry.t)
    : Task (list StorageEntry.t) :=
  match cats with
  | [] => ret files
  | cat :: rest =>
      files' <-
        try_catch
          (result <- fsCall P (Readdir ("aurora-files/" ++ cat) Directory.Data);;
           statEntries cat (ReaddirResult.files result) files)
          (fun _ => ret files);;
      scanFiles rest files'
  end.

Definition getNativeStorageFiles : Task (list StorageEntry.t) :=
  if negb isSupportedCapacitor then ret []
  else
    try_catch
      (scanFiles categories [])
      (fun error =>
         hostCall P (ConsoleError "Failed to get native storage files:" error);;
         ret []).

End FileStorage.

(** ** Observations on a log *)

Definition isChunkWrite (e : Event) : bool :=
  match e with
  | Fs (WriteFile _ _ _ _) | Fs (AppendFile _ _ _) => true
  | _ => false
  end.

Definition isCopy (e : Event) : bool :=
  match e with
  | Fs (Copy _ _ _ _) => true
  | _ => false
  end.

Definition isDelete (e : Event) : bool :=
  match e with
  | Fs (DeleteFile _ _) => true
  | _ => false
  end.

Definition isFs (e : Event) : bool :=
  match e with
  | Fs _ => true
  | Host _ => false
  end.

Definition isStat (e : Event) : bool :=
  match e with
  | Fs (Stat _ _) => true
  | _ => false
  end.

(** Neither a chunk write nor a copy. *)
Definition quiet (e : Event) : bool :=
  negb (isChunkWrite e) && negb (isCopy e).

(** The zero-duration suspension that hands control back to the scheduler. *)
Definition yield : Event := Host (SetTimeout 0).

Definition isYield (e : Event) : bool :=
  match e with
  | Host (SetTimeout _) => true
  | _ => false
  end.

(** The Filesystem calls of a log, in call order. *)
Fixpoint fsCalls (t : Trace) : list FsCall :=
  match t with
  | [] => []
  | Fs c :: rest => c :: fsCalls rest
  | Host _ :: rest => fsCalls rest
  end.

(** The chunk-write calls of a log, in call order. *)
Definition chunkWrites (t : Trace) : list FsCall :=
  fsCalls (filter isChunkWrite t).

(** What the native side appends for a chunk-write call: the Base64
    decoding of its [data]. *)
Definition decoded (c : FsCall) : option (list byte) :=
  match c with
  | WriteFile _ (Some d) _ _ | AppendFile _ (Some d) _ => Base64.decode d
  | _ => None
  end.

(** The bytes a sequence of chunk-write calls leaves in the file. *)
Fixpoint reassemble (calls : list FsCall) : option (list byte) :=
  match calls with
  | [] => Some []
  | c :: rest =>
      match decoded c, reassemble rest with
      | Some l, Some tl => Some (l ++ tl)%list
      | _, _ => None
      end
  end.

(** The calls made by a task started on the log [h]. *)
Definition events {A} (m : Task A) (h : Trace) : Trace :=
  skipn (List.length h) (log m h).

(** ** The chunking the specification describes *)

(** Number of chunks of [chunkSize] bytes needed for [n] bytes: the ceiling
    of [n / chunkSize]. *)
Definition chunkCount (n : Z) : nat :=
  Z.to_nat ((n + chunkSize - 1) / chunkSize).

(** The [i]-th chunk of the byte range [0, size): bytes [i * chunkSize] up
    to [(i + 1) * chunkSize], the last one possibly shorter. *)
Definition chunkBytes (file : File.t) (i : nat) : list byte :=
  firstn (Z.to_nat chunkSize)
    (skipn (Z.to_nat (Z.of_nat i * chunkSize)) (File.bytes file)).

(** The call expected for chunk [i]: a create for the first, an append for
    the others. *)
Definition chunkCall (file : File.t) (path : string) (i : nat) : FsCall :=
  let data := Some (Base64.encode (chunkBytes file i)) in
  match i with
  | O => WriteFile path data Directory.Data true
  | S _ => AppendFile path data Directory.Data
  end.

(** The blob the loop reads for chunk [i]. *)
Definition chunkBlob (file : File.t) (i : nat) : Blob.t :=
  File.slice file (Z.of_nat i * chunkSize) (Z.of_nat i * chunkSize + chunkSize).

(** Every read loads. *)
Definition readsLoad (P : Platform) : Prop :=
  forall h blob, readError P h blob = None.

(** The host accepts every chunk write. *)
Definition acceptsChunkWrites (P : Platform) : Prop :=
  forall h path data directory,
    (forall recursive,
        filesystem P h (WriteFile path data directory recursive) = Resolved tt)
    /\ filesystem P h (AppendFile path data directory) = Resolved tt.

(** One iteration of the loop of [saveFileChunked], and [n] of them: the
    loop unrolled. *)
Definition chunkStep (P : Platform) (file : File.t) (path : string)
    (offset : Z) (isFirstChunk : bool) : Task unit :=
  (base64 <- blobToBase64 P (File.slice file offset (offset + chunkSize));;
   (if isFirstChunk
    then fsCall P (WriteFile path base64 Directory.Data true)
    else fsCall P (AppendFile path base64 Directory.Data));;
   hostCall P (SetTimeout 0))%task.

Fixpoint chunkSteps (P : Platform) (n : nat) (file : File.t) (path : string)
    (offset : Z) (isFirstChunk : bool) : Task unit :=
  match n with
  | O => ret tt
  | S k =>
      (chunkStep P file path offset isFirstChunk;;
       chunkSteps P k file path (offset + chunkSize) false)%task
  end.

(** The calls of a chunked write that succeeds, from chunk [i] on, for [n]
    chunks: each chunk write followed by a yield. *)
Fixpoint chunkEvents (file : File.t) (path : string) (i n : nat) : Trace :=
  match n with
  | O => []
  | S k => Fs (chunkCall file path i) :: yield :: chunkEvents file path (S i) k
  end.

(** Between two chunk writes of a log there is a yield. *)
Definition yieldsBetweenWrites (t : Trace) : Prop :=
  forall before w1 mid w2 after,
    t = (before ++ w1 :: mid ++ w2 :: after)%list ->
    isChunkWrite w1 = true -> isChunkWrite w2 = true ->
    exists e, In e mid /\ isYield e = true.

(** The same as an automaton over the log: [pending] says that a chunk
    write was seen since the last yield; [None] is a violation. *)
Fixpoint yieldScan (pending : bool) (t : Trace) : option bool :=
  match t with
  | [] => Some pending
  | e :: rest =>
      if isChunkWrite e then
        if pending then None else yieldScan true rest
      else if isYield e then yieldScan false rest
      else yieldScan pending rest
  end.

(** ** The steps of [saveFile] in native mode *)

(** The name [generateFilename] returns when called on the log [h]. *)
Definition generatedFilename (P : Platform) (originalName : string)
    (h : Trace) : string :=
  match result (generateFilename P originalName) h with
  | Resolved filename => filename
  | Rejected _ => ""
  end.

(** [const path] of [saveFile], when [saveFile] starts on the log [h]. *)
Definition destinationPath (P : Platform) (file : File.t) (h : Trace)
    : string :=
  "aurora-files/" ++ getCategory (File.type file) ++ "/"
  ++ generatedFilename P (File.name file) h.

(** [const sourceUri] of [saveFile]. *)
Definition sourceUri (file : File.t) : option string :=
  JS.or (File.path file) (File.webPath file).

Definition firstCopy (from path : string) : FsCall :=
  Copy from path (Some Directory.External) (Some Directory.Data).

Definition retryCopy (from path : string) : FsCall :=
  Copy from path None (Some Directory.Data).

(** What [saveFile] does inside its [try] once [path] is computed. *)
Definition storeAt (P : Platform) (file : File.t) (path : string)
    : Task SaveFileResult :=
  ((if JS.truthy (sourceUri file) then
      let from := match sourceUri file with Some s => s | None => "" end in
      try_catch (fsCall P (firstCopy from path))
        (fun _ => fsCall P (retryCopy from path))
    else
      hostCall P
        (ConsoleWarn "No native path found. Using memory-safe chunked write.");;
      saveFileChunked P file path);;
   result <- fsCall P (GetUri path Directory.Data);;
   ret {| uri := GetUriResult.uri result;
          size := File.size file;
          mimeType := File.type file |})%task.

(** The [catch] block of [saveFile]. *)
Definition saveFileFailed (P : Platform) (error : Error)
    : Task SaveFileResult :=
  (hostCall P (ConsoleError "Failed to save file to native storage:" error);;
   throw error)%task.

(** The end of [saveFile] in native mode, from the call of [getUri] on,
    with its effect through the [catch] block. *)
Definition resolveUri (P : Platform) (file : File.t) (path : string)
    : Task SaveFileResult :=
  try_catch
    (result <- fsCall P (GetUri path Directory.Data);;
     ret {| uri := GetUriResult.uri result;
            size := File.size file;
            mimeType := File.type file |})%task
    (saveFileFailed P).

(** The path a Filesystem call writes to, reads or resolves. *)
Definition target (c : FsCall) : string :=
  match c with
  | Copy _ to _ _ => to
  | WriteFile path _ _ _ | AppendFile path _ _ | GetUri path _
  | Readdir path _ | Stat path _ | DeleteFile path _ => path
  end.

(** ** The three strategies of the specification *)

Inductive Strategy : Type :=
| Ephemeral       (* an in-session handle, no filesystem *)
| NativeCopy      (* a native copy from the source locator *)
| ChunkedWrite.   (* a chunked write of the bytes *)

(** The strategy as the specification selects it: by the native capability
    and by the presence of a source locator. *)
Definition strategy (capability locator : bool) : Strategy :=
  if negb capability then Ephemeral
  else if locator then NativeCopy
  else ChunkedWrite.

Definition hasSourceLocator (file : File.t) : bool :=
  JS.truthy (sourceUri file).

(** ** The path shape of the specification *)

Fixpoint allChars (p : ascii -> bool) (s : string) : bool :=
  match s with
  | EmptyString => true
  | String c rest => p c && allChars p rest
  end.

Definition between (lo hi c : ascii) : bool :=
  (nat_of_ascii lo <=? nat_of_ascii c)%nat
  && (nat_of_ascii c <=? nat_of_ascii hi)%nat.

(** [\d] *)
Definition isDigit (c : ascii) : bool := between "0" "9" c.

(** [[a-z0-9]] *)
Definition isBase36 (c : ascii) : bool := between "a" "z" c || isDigit c.

(** The text after the last dot of a name, when the name has a dot. *)
Fixpoint afterLastDot (s : string) : option string :=
  match s with
  | EmptyString => None
  | String c rest =>
      match afterLastDot rest with
      | Some e => Some e
      | None => if Ascii.eqb c "." then Some rest else None
      end
  end.

(** The extension the specification gives a stored file: the original
    extension, or [bin] when the original name has none. *)
Definition specExtension (originalName : string) : string :=
  match afterLastDot originalName with
  | Some EmptyString | None => "bin"
  | Some e => e
  end.

(** The shape the specification gives a destination path:
    [aurora-files/<category>/<13 digits>_<6 base-36 characters>.<extension>]. *)
Definition pathShape (originalName mimeType path : string) : Prop :=
  exists timestamp random : string,
    path = "aurora-files/" ++ getCategory mimeType ++ "/"
           ++ timestamp ++ "_" ++ random ++ "." ++ specExtension originalName
    /\ In (getCategory mimeType) categories
    /\ String.length timestamp = 13%nat /\ allChars isDigit timestamp = true
    /\ String.length random = 6%nat /\ allChars isBase36 random = true.

(** ** Example platforms and files *)

Module Examples.

Definition clock : Z := 1700000000000.

(** A host whose random draw prints as [draw] in base 36. *)
Definition hostWith (draw : string) (_ : Trace) (c : HostCall) : HostReply c :=
  match c return HostReply c with
  | DateNow => clock
  | MathRandomToString36 => draw
  | CreateObjectURL _ => "blob:http://localhost/3f0c"
  | CapacitorConvertFileSrc u => "http://localhost/_capacitor_file_" ++ u
  | RevokeObjectURL _ | ConsoleWarn _ | ConsoleError _ _ | SetTimeout _ => tt
  end.

(** A filesystem on which every call succeeds; all directories are empty. *)
Definition fsAccepting (_ : Trace) (c : FsCall) : Outcome (FsReply c) :=
  match c return Outcome (FsReply c) with
  | GetUri p _ => Resolved (GetUriResult.mk ("file:///data/user/0/app/files/" ++ p))
  | Readdir _ _ => Resolved (ReaddirResult.mk [])
  | Stat _ _ => Resolved (StatResult.mk 0)
  | Copy _ _ _ _ | WriteFile _ _ _ _ | AppendFile _ _ _ | DeleteFile _ _ =>
      Resolved tt
  end.

(** A filesystem on which every call is rejected. *)
Definition fsRejecting (_ : Trace) (c : FsCall) : Outcome (FsReply c) :=
  Rejected "rejected".

(** A filesystem whose [videos] directory lists [a.mp4] (10 bytes) and
    [b.mp4], which is gone by the time it is stat-ed; the other category
    directories do not exist. *)
Definition fsOneGone (_ : Trace) (c : FsCall) : Outcome (FsReply c) :=
  match c return Outcome (FsReply c) with
  | Readdir p _ =>
      if String.eqb p "aurora-files/videos"
      then Resolved (ReaddirResult.mk [FileInfo.mk "a.mp4"; FileInfo.mk "b.mp4"])
      else Rejected "Directory does not exist"
  | Stat p _ =>
      if String.eqb p "aurora-files/videos/a.mp4"
      then Resolved (StatResult.mk 10)
      else Rejected "File does not exist"
  | GetUri p _ => Resolved (GetUriResult.mk ("file:///data/user/0/app/files/" ++ p))
  | Copy _ _ _ _ | WriteFile _ _ _ _ | AppendFile _ _ _ | DeleteFile _ _ =>
      Resolved tt
  end.

(** A reader that loads every blob, and one that loads none. *)
Definition loads (_ : Trace) (_ : Blob.t) : option Error := None.

Definition fails (_ : Trace) (_ : Blob.t) : option Error :=
  Some "NotReadableError".

Definition android : Platform :=
  {| isNativePlatform := true; host := hostWith "0.k3j2h1g9x8";
     filesystem := fsAccepting; readError := loads |}.

Definition browser : Platform :=
  {| isNativePlatform := false; host := hostWith "0.k3j2h1g9x8";
     filesystem := fsRejecting; readError := loads |}.

(** [Math.random()] returned 0.5, which prints as [0.i]. *)
Definition androidShortDraw : Platform :=
  {| isNativePlatform := true; host := hostWith "0.i";
     filesystem := fsAccepting; readError := loads |}.

Definition androidFailing : Platform :=
  {| isNativePlatform := true; host := hostWith "0.k3j2h1g9x8";
     filesystem := fsRejecting; readError := loads |}.

Definition androidOneGone : Platform :=
  {| isNativePlatform := true; host := hostWith "0.k3j2h1g9x8";
     filesystem := fsOneGone; readError := loads |}.

(** The filesystem accepts everything, but no blob can be read. *)
Definition androidUnreadable : Platform :=
  {| isNativePlatform := true; host := hostWith "0.k3j2h1g9x8";
     filesystem := fsAccepting; readError := fails |}.

(** A four-byte video picked in a web picker: no source locator. *)
Definition clip : File.t :=
  File.mk "clip.mp4" "video/mp4" [x4d; x61; x6e; x00] None None.

(** The same video from a native picker. *)
Definition pickedClip : File.t :=
  File.mk "clip.mp4" "video/mp4" [x4d; x61; x6e; x00] None
    (Some "content://media/external/video/12").

(** An empty file without a source locator. *)
Definition emptyNote : File.t :=
  File.mk "note.txt" "text/plain" [] None None.

(** A name without a dot. *)
Definition readme : File.t :=
  File.mk "README" "text/plain" [x4d] None None.

(** A recording of one chunk and one byte, without a source locator. *)
Definition recording : File.t :=
  File.mk "take.wav" "audio/wav" (repeat x00 (Z.to_nat (chunkSize + 1))) None None.

End Examples.

(** ** More of the service: [getFileUrl] *)

(** The argument of [getFileUrl]: a VFS node's [nativeUri] and [content],
    each a string or [undefined]. *)
Module VfsNode.
Record t : Type := mk { nativeUri : option string; content : option string }.
End VfsNode.

Definition getFileUrl (P : Platform) (node : VfsNode.t) : Task string :=
  if JS.truthy (VfsNode.nativeUri node) then
    convertFileSrc P
      (match VfsNode.nativeUri node with Some u => u | None => "" end)
  else
    ret (match JS.or (VfsNode.content node) (Some "") with
         | Some s => s
         | None => ""
         end).

(** The node a caller stores for a saved file. *)
Definition nodeOfResult (r : SaveFileResult) : VfsNode.t :=
  VfsNode.mk (Some (uri r)) None.

(** ** More observations on a log *)

(** The making of an in-session handle. *)
Definition isHandle (e : Event) : bool :=
  match e with
  | Host (CreateObjectURL _) => true
  | _ => false
  end.

Definition isConsoleError (e : Event) : bool :=
  match e with
  | Host (ConsoleError _ _) => true
  | _ => false
  end.

(** The calls [saveFile] can make. *)
Definition isSaveCall (e : Event) : bool :=
  match e with
  | Host DateNow | Host MathRandomToString36 | Host (CreateObjectURL _)
  | Host (ConsoleWarn _) | Host (ConsoleError _ _) | Host (SetTimeout _) => true
  | Fs (Copy _ _ _ _) | Fs (WriteFile _ _ _ _) | Fs (AppendFile _ _ _)
  | Fs (GetUri _ _) => true
  | _ => false
  end.

(** The calls [saveFile] makes in native mode before it resolves the URI or
    reports a failure. *)
Definition isWork (e : Event) : bool :=
  match e with
  | Host DateNow | Host MathRandomToString36 | Host (ConsoleWarn _)
  | Host (SetTimeout _) => true
  | Fs (Copy _ _ _ _) | Fs (WriteFile _ _ _ _) | Fs (AppendFile _ _ _) => true
  | _ => false
  end.

(** The three ways a native [saveFile] ends after the calls [work]: its
    work was rejected; [getUri] resolved; [getUri] was rejected. *)
Inductive SaveEnd (P : Platform) (file : File.t) (path : string)
    (h work : Trace) : Outcome SaveFileResult * Trace -> Prop :=
| WorkRejected e :
    SaveEnd P file path h work
      (Rejected e,
       (h ++ work
          ++ [Host (ConsoleError "Failed to save file to native storage:" e)])%list)
| UriResolved r :
    filesystem P (h ++ work)%list (GetUri path Directory.Data) = Resolved r ->
    SaveEnd P file path h work
      (Resolved {| uri := GetUriResult.uri r; size := File.size file;
                   mimeType := File.type file |},
       (h ++ work ++ [Fs (GetUri path Directory.Data)])%list)
| UriRejected e :
    filesystem P (h ++ work)%list (GetUri path Directory.Data) = Rejected e ->
    SaveEnd P file path h work
      (Rejected e,
       (h ++ work
          ++ [Fs (GetUri path Directory.Data);
              Host (ConsoleError "Failed to save file to native storage:" e)])%list).

(** The file with other content. *)
Definition withBytes (file : File.t) (bytes : list byte) : File.t :=
  File.mk (File.name file) (File.type file) bytes (File.path file)
    (File.webPath file).

(** The filesystem answers the same whatever was called before. *)
Definition stableFilesystem (P : Platform) : Prop :=
  forall h h' c, filesystem P h c = filesystem P h' c.

Fixpoint totalSize (entries : list StorageEntry.t) : Z :=
  match entries with
  | [] => 0
  | e :: rest => StorageEntry.size e + totalSize rest
  end.

(** Value of a string of decimal digits, after the value [acc] of the
    digits already read. *)
Fixpoint digitsValue (s : string) (acc : Z) : Z :=
  match s with
  | EmptyString => acc
  | String c rest => digitsValue rest (10 * acc + (Z.of_nat (nat_of_ascii c) - 48))
  end.

(** [s] holds no dot. *)
Fixpoint noDot (s : string) : bool :=
  match s with
  | EmptyString => true
  | String c rest => negb (Ascii.eqb c ".") && noDot rest
  end.

(** An inventory entry lies where its category and name say. *)
Definition entryInPlace (cats : list string) (e : StorageEntry.t) : Prop :=
  In (StorageEntry.category e) cats
  /\ StorageEntry.path e
     = "aurora-files/" ++ StorageEntry.category e ++ "/" ++ StorageEntry.name e.

(** Every [stat] resolves. *)
Definition statsResolve (P : Platform) : Prop :=
  forall h path directory,
    exists r, filesystem P h (Stat path directory) = Resolved r.

(** The part of [s] before its first underscore. *)
Fixpoint beforeUnderscore (s : string) : string :=
  match s with
  | EmptyString => EmptyString
  | String c rest =>
      if Ascii.eqb c "_" then EmptyString else String c (beforeUnderscore rest)
  end.

(** The clock reading written at the head of a generated name. *)
Definition timestampOf (filename : string) : Z :=
  digitsValue (beforeUnderscore filename) 0.

(** [s] holds no slash. *)
Definition noSlash (s : string) : bool :=
  allChars (fun c => negb (Ascii.eqb c "/")) s.

(** [s] holds no line terminator. *)
Fixpoint singleLine (s : string) : bool :=
  match s with
  | EmptyString => true
  | String c rest => negb (JS.is_line_terminator c) && singleLine rest
  end.

(** ** The upload progress toast ([notify.uploadProgress]) *)

Module UploadProgress.

(** The identifier of a toast: a number or a string. *)
Inductive ToastId : Type :=
| NumberId (n : Z)
| StringId (s : string).

(** Calls to the toast library.  [toast.custom] receives a render function
    and options; what is rendered is the file name, the value
    [currentProgress] has when the call is made, and the file size; [id] is
    the option of that name ([None] when it is not passed). *)
Inductive ToastCall : Type :=
| ToastCustom (fileName : string) (progress : Z) (fileSize : string)
    (id : option ToastId)
| ToastDismiss (id : ToastId).

(** The library: the identifier [toast.custom] returns for a new toast,
    given the calls made so far. *)
Definition Toaster : Type := list ToastCall -> ToastId.

(** The variables the two closures share ([None] is [null]). *)
Record Tracker : Type := {
  toastId : option ToastId;
  currentProgress : Z
}.

(** The tracker [uploadProgress(fileName, fileSize)] starts with. *)
Definition start : Tracker := {| toastId := None; currentProgress := 0 |}.

Section Closures.

Variable toaster : Toaster.
Variables fileName fileSize : string.

Definition updateProgress (progress : Z) (t : Tracker) (log : list ToastCall)
    : Tracker * list ToastCall :=
  let currentProgress := Z.min progress 100 in
  match toastId t with
  | None =>
      let id := toaster log in
      ({| toastId := Some id; currentProgress := currentProgress |},
       (log ++ [ToastCustom fileName currentProgress fileSize None])%list)
  | Some id =>
      ({| toastId := Some id; currentProgress := currentProgress |},
       (log ++ [ToastCustom fileName currentProgress fileSize (Some id)])%list)
  end.

Definition complete (t : Tracker) (log : list ToastCall)
    : Tracker * list ToastCall :=
  match toastId t with
  | Some id =>
      ({| toastId := None; currentProgress := currentProgress t |},
       (log ++ [ToastDismiss id])%list)
  | None => ({| toastId := None; currentProgress := currentProgress t |}, log)
  end.

(** What a caller does with the two closures. *)
Inductive Op : Type :=
| Update (progress : Z)
| Complete.

Definition step (op : Op) (s : Tracker * list ToastCall)
    : Tracker * list ToastCall :=
  match op with
  | Update progress => updateProgress progress (fst s) (snd s)
  | Complete => complete (fst s) (snd s)
  end.

(** The operations [ops] in order, from the state [s]. *)
Definition run (ops : list Op) (s : Tracker * list ToastCall)
    : Tracker * list ToastCall :=
  fold_left (fun s op => step op s) ops s.

End Closures.

(** The progress values shown, in call order. *)
Fixpoint shown (log : list ToastCall) : list Z :=
  match log with
  | [] => []
  | ToastCustom _ progress _ _ :: rest => progress :: shown rest
  | ToastDismiss _ :: rest => shown rest
  end.

(** The progress values requested, in call order. *)
Fixpoint requested (ops : list Op) : list Z :=
  match ops with
  | [] => []
  | Update progress :: rest => progress :: requested rest
  | Complete :: rest => requested rest
  end.

(** Toasts created and toasts dismissed. *)
Fixpoint created (log : list ToastCall) : nat :=
  match log with
  | [] => O
  | ToastCustom _ _ _ None :: rest => S (created rest)
  | _ :: rest => created rest
  end.

Fixpoint dismissed (log : list ToastCall) : nat :=
  match log with
  | [] => O
  | ToastDismiss _ :: rest => S (dismissed rest)
  | _ :: rest => dismissed rest
  end.

(** The toasts created exceed the toasts dismissed by one while an
    identifier is held, and by none otherwise. *)
Definition balanced (s : Tracker * list ToastCall) : Prop :=
  created (snd s)
  = (dismissed (snd s)
     + match toastId (fst s) with Some _ => 1 | None => 0 end)%nat.

End UploadProgress.

(** ** The document viewer's page and rotation controls *)

Module DocumentViewer.

(** [prev => Math.max(prev - 1, 1)] *)
Definition previousPage (prev : Z) : Z := Z.max (prev - 1) 1.

(** [prev => Math.min(prev + 1, numPages || prev)], [numPages] being a
    number or [null]. *)
Definition nextPage (numPages : option Z) (prev : Z) : Z :=
  Z.min (prev + 1)
    (match numPages with
     | Some n => if n =? 0 then prev else n
     | None => prev
     end).

(** [prev => (prev + 90) % 360] *)
Definition handleRotate (prev : Z) : Z := Z.rem (prev + 90) 360.

Inductive Click : Type := Previous | Next.

Definition click (numPages : option Z) (c : Click) (page : Z) : Z :=
  match c with
  | Previous => previousPage page
  | Next => nextPage numPages page
  end.

Definition clicks (numPages : option Z) (cs : list Click) (page : Z) : Z :=
  fold_left (fun page c => click numPages c page) cs page.

End DocumentViewer.

(** ** The floating video window: dragging and resizing *)

Module FloatingVideo.

(** [s.includes(sub)] *)
Fixpoint includes (s sub : string) : bool :=
  String.prefix sub s
  || match s with
     | EmptyString => false
     | String _ rest => includes rest sub
     end.

Record Point : Type := { x : Z; y : Z }.
Record Size : Type := { width : Z; height : Z }.



(** The state the handlers read and set. *)
Record State : Type := {
  isDragging : bool;
  isResizing : bool;
  position : Point;
  dragStart : Point;
  size : Size;
  resizeEdge : option string
}.

(** The name built from the four hit tests:
    [let edge = ''; if (hitTop) edge += 'top'; ...]. *)
Definition edgeName (hitTop hitBottom hitLeft hitRight : bool) : string :=
  let edge := "" in
  let edge := if hitTop then edge ++ "top" else edge in
  let edge := if hitBottom then edge ++ "bottom" else edge in
  let edge := if hitLeft then edge ++ "left" else edge in
  let edge := if hitRight then edge ++ "right" else edge in
  edge.


(** [handleMouseMove], for a window of [innerWidth] by [innerHeight].
    Every [set...] call passes a value, so the last call on a variable
    decides it. *)
Definition handleMouseMove (innerWidth innerHeight clientX clientY : Z)
    (s : State) : State :=
  let dragged :=
    if isDragging s then
      {| x := Z.max 0 (Z.min (clientX - x (dragStart s)) (innerWidth - 100));
         y := Z.max 0 (Z.min (clientY - y (dragStart s)) (innerHeight - 50)) |}
    else position s in
  match (if isResizing s then resizeEdge s else None) with
  | Some edge =>
      if String.eqb edge "" then
        {| isDragging := isDragging s; isResizing := isResizing s;
           position := dragged; dragStart := dragStart s; size := size s;
           resizeEdge := resizeEdge s |}
      else
        let deltaX := clientX - x (dragStart s) in
        let deltaY := clientY - y (dragStart s) in
        let newWidth := width (size s) in
        let newHeight := height (size s) in
        let newX := x (position s) in
        let newY := y (position s) in
        let newWidth :=
          if includes edge "right" then Z.max 200 (width (size s) + deltaX)
          else newWidth in
        let newHeight :=
          if includes edge "bottom" then Z.max 150 (height (size s) + deltaY)
          else newHeight in
        let '(newX, newWidth) :=
          if includes edge "left" then
            let change := Z.max 200 (width (size s) - deltaX) in
            (x (position s) + (width (size s) - change), change)
          else (newX, newWidth) in
        let '(newY, newHeight) :=
          if includes edge "top" then
            let change := Z.max 150 (height (size s) - deltaY) in
            (y (position s) + (height (size s) - change), change)
          else (newY, newHeight) in
        {| isDragging := isDragging s; isResizing := isResizing s;
           position := {| x := newX; y := newY |};
           dragStart := {| x := clientX; y := clientY |};
           size := {| width := newWidth; height := newHeight |};
           resizeEdge := resizeEdge s |}
  | None =>
      {| isDragging := isDragging s; isResizing := isResizing s;
         position := dragged; dragStart := dragStart s; size := size s;
         resizeEdge := resizeEdge s |}
  end.

(** [getResizeCursor]: [None] is [null]. *)
Definition getResizeCursor (edge : option string) : option string :=
  match edge with
  | None => None
  | Some edge =>
      if String.eqb edge "" then None
      else if String.eqb edge "top" || String.eqb edge "bottom"
      then Some "ns-resize"
      else if String.eqb edge "left" || String.eqb edge "right"
      then Some "ew-resize"
      else if String.eqb edge "topleft" || String.eqb edge "bottomright"
      then Some "nwse-resize"
      else if String.eqb edge "topright" || String.eqb edge "bottomleft"
      then Some "nesw-resize"
      else Some "default"
  end.

End FloatingVideo.

(** ** Extensions, applications and folders *)

Module FileTypes.

(** [c.toLowerCase()] on one character of ISO 8859-1: the letters A to Z
    and the accented capitals (all of 192 to 222 but the multiplication
    sign) move 32 places up. *)
Definition toLowerCaseChar (c : ascii) : ascii :=
  let n := nat_of_ascii c in
  if ((65 <=? n) && (n <=? 90))%nat
     || ((192 <=? n) && (n <=? 222) && negb (n =? 215))%nat
  then ascii_of_nat (n + 32)
  else c.

(** [s.toLowerCase()] *)
Fixpoint toLowerCase (s : string) : string :=
  match s with
  | EmptyString => EmptyString
  | String c rest => String (toLowerCaseChar c) (toLowerCase rest)
  end.

(** [list.includes(x)] on an array of strings. *)
Definition includes (list : list string) (x : string) : bool :=
  existsb (String.eqb x) list.

(** [filename.split('.').pop()?.toLowerCase()]: [None] is [undefined]. *)
Definition extensionOf (filename : string) : option string :=
  option_map toLowerCase (JS.pop (JS.split "." filename)).

Definition getAppForExtension (filename : string) : option string :=
  let ext := extensionOf filename in
  if negb (JS.truthy ext) then None
  else
    let ext := match ext with Some e => e | None => "" end in
    if includes ["mp3"; "wav"; "flac"; "ogg"; "m4a"] ext then Some "music"
    else if includes ["txt"; "md"; "json"; "js"; "ts"; "tsx"; "css"; "html"; "htm"]
              ext then Some "notepad"
    else if includes ["jpg"; "jpeg"; "png"; "gif"; "webp"; "svg"] ext
    then Some "photos"
    else None.

Definition getCategoryFolderForFile (filename homePath : string)
    : option string :=
  let ext := extensionOf filename in
  if negb (JS.truthy ext) then None
  else
    let ext := match ext with Some e => e | None => "" end in
    if includes ["mp3"; "wav"; "flac"; "ogg"; "m4a"] ext
    then Some (homePath ++ "/Music")
    else if includes ["jpg"; "jpeg"; "png"; "gif"; "webp"; "svg"] ext
    then Some (homePath ++ "/Pictures")
    else if includes ["mp4"; "mkv"; "avi"; "mov"; "flv"; "wmv"; "webm"] ext
    then Some (homePath ++ "/Videos")
    else if includes ["pdf"; "doc"; "docx"; "xls"; "xlsx"; "ppt"; "pptx"] ext
    then Some (homePath ++ "/Documents")
    else None.

End FileTypes.

(** * Properties *)

Local Open Scope list_scope.

(** ** Base64 round trip *)

Module Base64Facts.
Import Base64.

Local Ltac Zify.zify_post_hook ::= Z.to_euclidean_division_equations.

Lemma sextet_cases (Q : N -> Prop) :
  (forall n, In n (map N.of_nat (seq 0 64)) -> Q n) ->
  forall n, (n < 64)%N -> Q n.
Proof.
  intros HQ n Hn. apply HQ.
  replace n with (N.of_nat (N.to_nat n)) by apply N2Nat.id.
  apply in_map, in_seq. lia.
Qed.

Lemma char_sextet_sextet_char n :
  (n < 64)%N -> char_sextet (sextet_char n) = Some n.
Proof.
  revert n. apply sextet_cases. intros n Hn.
  cbn in Hn. repeat (destruct Hn as [<- | Hn]; [reflexivity |]). destruct Hn.
Qed.

Lemma sextet_char_not_pad n : (n < 64)%N -> Ascii.eqb (sextet_char n) pad = false.
Proof.
  revert n. apply sextet_cases. intros n Hn.
  cbn in Hn. repeat (destruct Hn as [<- | Hn]; [reflexivity |]). destruct Hn.
Qed.

Lemma sextet_char_not_comma n :
  (n < 64)%N -> Ascii.eqb (sextet_char n) "," = false.
Proof.
  revert n. apply sextet_cases. intros n Hn.
  cbn in Hn. repeat (destruct Hn as [<- | Hn]; [reflexivity |]). destruct Hn.
Qed.

Lemma to_N_lt b : (Byte.to_N b < 256)%N.
Proof. pose proof (Byte.to_N_bounded b). lia. Qed.

Lemma octet_to_N b : octet (Byte.to_N b) = b.
Proof.
  unfold octet. rewrite N.mod_small by apply to_N_lt.
  now rewrite Byte.of_to_N.
Qed.

Lemma group24_lt a b c : (group24 a b c < 16777216)%N.
Proof.
  unfold group24.
  pose proof (to_N_lt a). pose proof (to_N_lt b). pose proof (to_N_lt c). lia.
Qed.

Lemma sextet0_lt n : (n < 16777216)%N -> (sextet0 n < 64)%N.
Proof. unfold sextet0. lia. Qed.

Lemma sextet1_lt n : (sextet1 n < 64)%N.
Proof. unfold sextet1. lia. Qed.

Lemma sextet2_lt n : (sextet2 n < 64)%N.
Proof. unfold sextet2. lia. Qed.

Lemma sextet3_lt n : (sextet3 n < 64)%N.
Proof. unfold sextet3. lia. Qed.

Lemma join24_sextets n :
  join24 (sextet0 n) (sextet1 n) (sextet2 n) (sextet3 n) = n.
Proof. unfold join24, sextet0, sextet1, sextet2, sextet3. lia. Qed.

Lemma octet0_group24 a b c : octet0 (group24 a b c) = a.
Proof.
  unfold octet0.
  replace (group24 a b c / 65536)%N with (Byte.to_N a); [apply octet_to_N |].
  unfold group24. pose proof (to_N_lt b). pose proof (to_N_lt c). lia.
Qed.

Lemma octet1_group24 a b c : octet1 (group24 a b c) = b.
Proof.
  unfold octet1, octet.
  replace ((group24 a b c / 256) mod 256)%N with (Byte.to_N b);
    [now rewrite Byte.of_to_N |].
  unfold group24. pose proof (to_N_lt b). pose proof (to_N_lt c). lia.
Qed.

Lemma octet2_group24 a b c : octet2 (group24 a b c) = c.
Proof.
  unfold octet2, octet.
  replace (group24 a b c mod 256)%N with (Byte.to_N c);
    [now rewrite Byte.of_to_N |].
  unfold group24. pose proof (to_N_lt c). lia.
Qed.

(** With one or two octets in the last group, the sextets that are sent
    still determine them. *)
Lemma octet0_partial1 a :
  let n := group24 a x00 x00 in
  octet0 (join24 (sextet0 n) (sextet1 n) 0 0) = a.
Proof.
  cbv zeta. rewrite <- (octet0_group24 a x00 x00) at 3. f_equal.
  unfold join24, sextet0, sextet1, group24. cbn [Byte.to_N].
  pose proof (to_N_lt a). lia.
Qed.

Lemma join24_partial2 a b :
  let n := group24 a b x00 in
  join24 (sextet0 n) (sextet1 n) (sextet2 n) 0 = n.
Proof.
  cbv zeta. unfold join24, sextet0, sextet1, sextet2, group24. cbn [Byte.to_N].
  pose proof (to_N_lt a). pose proof (to_N_lt b). lia.
Qed.

(** Induction over a list three elements at a time. *)
Lemma list_ind3 {A} (Q : list A -> Prop) :
  Q [] -> (forall a, Q [a]) -> (forall a b, Q [a; b]) ->
  (forall a b c l, Q l -> Q (a :: b :: c :: l)) ->
  forall l, Q l.
Proof.
  intros H0 H1 H2 H3.
  fix IH 1. intros [| a [| b [| c l]]];
    [exact H0 | exact (H1 a) | exact (H2 a b) | exact (H3 a b c l (IH l))].
Qed.

Theorem decode_encode l : decode (encode l) = Some l.
Proof.
  induction l as [| a | a b | a b c l IH] using list_ind3.
  - reflexivity.
  - cbn [encode decode].
    rewrite !char_sextet_sextet_char
      by (apply sextet0_lt, group24_lt || apply sextet1_lt).
    cbn. now rewrite octet0_partial1.
  - cbn [encode decode].
    rewrite !char_sextet_sextet_char
      by (apply sextet0_lt, group24_lt || apply sextet1_lt || apply sextet2_lt).
    rewrite sextet_char_not_pad by apply sextet2_lt.
    cbn. rewrite join24_partial2.
    now rewrite octet0_group24, octet1_group24.
  - cbn [encode decode].
    rewrite !char_sextet_sextet_char
      by (apply sextet0_lt, group24_lt || apply sextet1_lt
          || apply sextet2_lt || apply sextet3_lt).
    rewrite (sextet_char_not_pad (sextet2 _)) by apply sextet2_lt.
    rewrite (sextet_char_not_pad (sextet3 _)) by apply sextet3_lt.
    rewrite IH, join24_sextets. cbn [option_map].
    now rewrite octet0_group24, octet1_group24, octet2_group24.
Qed.

Lemma encode_noComma l : noComma (encode l) = true.
Proof.
  induction l as [| a | a b | a b c l IH] using list_ind3;
    cbn [encode noComma]; [reflexivity | | |];
    rewrite ?sextet_char_not_comma
      by (apply sextet0_lt, group24_lt || apply sextet1_lt
          || apply sextet2_lt || apply sextet3_lt);
    rewrite ?IH; reflexivity.
Qed.

End Base64Facts.

(** ** Strings *)

Module JSFacts.
Import Base64Facts.

Lemma split_noComma s : Base64.noComma s = true -> JS.split "," s = [s].
Proof.
  induction s as [| c s IH]; [reflexivity |].
  cbn [Base64.noComma JS.split]. intros H. apply andb_prop in H as [Hc Hs].
  apply negb_true_iff in Hc. rewrite Hc, (IH Hs). reflexivity.
Qed.

Lemma blobToBase64_slice P l h :
  blobToBase64 P (Blob.mk l "") h
  = match readError P h (Blob.mk l "") with
    | Some e => (Rejected e, h)
    | None => (Resolved (Some (Base64.encode l)), h)
    end.
Proof.
  unfold blobToBase64, ret, throw, FileReader.readAsDataURL.
  destruct (readError P h _); [reflexivity |]. cbn.
  rewrite (split_noComma _ (encode_noComma l)). reflexivity.
Qed.

End JSFacts.

(** ** Tasks and logs *)

Lemma events_of {A} (m : Task A) h r calls :
  m h = (r, (h ++ calls)%list) -> result m h = r /\ events m h = calls.
Proof.
  unfold result, events, log. intros ->. cbn [fst snd]. split; [reflexivity |].
  rewrite skipn_app, skipn_all, Nat.sub_diag. reflexivity.
Qed.

Lemma app_snoc {A} (h : list A) a l : ((h ++ [a]) ++ l = h ++ a :: l)%list.
Proof. now rewrite <- app_assoc. Qed.

(** ** The chunked write *)

Module Chunked.
Import Base64Facts JSFacts.

Local Ltac Zify.zify_post_hook ::= Z.to_euclidean_division_equations.

Lemma chunkSize_pos : 0 < chunkSize.
Proof. reflexivity. Qed.

Lemma chunkCount_0 x : x <= 0 -> chunkCount x = 0%nat.
Proof. unfold chunkCount, chunkSize. intros. lia. Qed.

Lemma chunkCount_S x : 0 < x -> chunkCount x = S (chunkCount (x - chunkSize)).
Proof. unfold chunkCount, chunkSize. intros. lia. Qed.

(** The loop is its unrolling, as many times as chunks remain. *)
Lemma loop_unroll P file path n offset isFirstChunk h :
  chunkCount (File.size file - offset) = n ->
  saveFileChunked_loop P file path offset isFirstChunk h
  = chunkSteps P n file path offset isFirstChunk h.
Proof.
  revert offset isFirstChunk h.
  induction n as [| n IH]; intros offset isFirstChunk h Hn;
    rewrite saveFileChunked_loop_equation_1;
    destruct (Z_lt_dec offset (File.size file)) as [Hlt | Hge].
  - rewrite chunkCount_S in Hn by lia. discriminate.
  - reflexivity.
  - rewrite saveFileChunked_loop_clause_1_equation_1.
    rewrite chunkCount_S in Hn by lia. injection Hn as Hn.
    cbn [chunkSteps]. unfold chunkStep, bind at 1 2 3 4 5 6. cbv zeta.
    destruct (blobToBase64 P _ h) as [[b64 | e] h1]; [| reflexivity].
    assert (Hnext : chunkCount (File.size file - (offset + chunkSize)) = n)
      by (rewrite <- Hn; f_equal; lia).
    unfold fsCall, hostCall.
    destruct isFirstChunk;
      [destruct (filesystem P h1 (WriteFile path b64 Directory.Data true))
      | destruct (filesystem P h1 (AppendFile path b64 Directory.Data))];
      cbn; auto.
  - rewrite chunkCount_0 in Hn by lia. discriminate.
Qed.

(** The blob the loop reads at offset [i * chunkSize] is chunk [i]. *)
Lemma slice_chunkBytes file i :
  File.slice file (Z.of_nat i * chunkSize) (Z.of_nat i * chunkSize + chunkSize)
  = Blob.mk (chunkBytes file i) "".
Proof.
  unfold File.slice, File.relative, chunkBytes, File.size.
  pose proof chunkSize_pos as Hc.
  set (o := Z.of_nat i * chunkSize). assert (0 <= o) by (subst o; lia).
  destruct (Z.ltb_spec o 0); [lia |].
  destruct (Z.ltb_spec (o + chunkSize) 0); [lia |].
  f_equal.
  set (l := File.bytes file).
  destruct (Z_le_gt_dec o (Z.of_nat (List.length l))) as [Hle | Hgt].
  - rewrite (Z.min_l o) by lia.
    assert (Hlen : List.length (skipn (Z.to_nat o) l)
                   = Z.to_nat (Z.of_nat (List.length l) - o))
      by (rewrite length_skipn; lia).
    destruct (Z_le_gt_dec (o + chunkSize) (Z.of_nat (List.length l))).
    + f_equal. lia.
    + rewrite !firstn_all2; [reflexivity | lia | lia].
  - rewrite !(skipn_all2 l) by lia. now rewrite !firstn_nil.
Qed.

(** One iteration: the read of chunk [i], then, when it loads, the write
    and the yield. *)
Lemma chunkStep_data P file path i h :
  chunkStep P file path (Z.of_nat i * chunkSize) (Nat.eqb i 0) h
  = match readError P h (chunkBlob file i) with
    | Some e => (Rejected e, h)
    | None =>
        (fsCall P (chunkCall file path i);; hostCall P (SetTimeout 0))%task h
    end.
Proof.
  unfold chunkStep, chunkBlob. rewrite slice_chunkBytes.
  unfold bind at 1. rewrite blobToBase64_slice.
  destruct (readError P h _); [reflexivity |]. destruct i; reflexivity.
Qed.

Lemma next_offset i :
  Z.of_nat i * chunkSize + chunkSize = Z.of_nat (S i) * chunkSize.
Proof. lia. Qed.

(** On a host that reads every blob and accepts the writes, [n] iterations
    make exactly the expected calls. *)
Lemma chunkSteps_accepted P file path :
  readsLoad P -> acceptsChunkWrites P ->
  forall n i h,
    chunkSteps P n file path (Z.of_nat i * chunkSize) (Nat.eqb i 0) h
    = (Resolved tt, (h ++ chunkEvents file path i n)%list).
Proof.
  intros Hread Hok. induction n as [| n IH]; intros i h.
  - cbn. now rewrite app_nil_r.
  - cbn [chunkSteps chunkEvents]. unfold bind at 1.
    rewrite chunkStep_data, Hread. unfold bind, fsCall, hostCall.
    pose proof (Hok h path (Some (Base64.encode (chunkBytes file i)))
                  Directory.Data) as [Hwrite Happend].
    rewrite next_offset.
    destruct i; cbn [chunkCall]; rewrite ?Hwrite, ?Happend;
      rewrite (IH (S _)); now rewrite !app_snoc.
Qed.

(** On any host, the calls of [n] iterations are a prefix of the expected
    ones, and all of them when the task resolves; the prefix is not empty
    when there is a chunk and its read loads. *)
Lemma chunkSteps_prefix P file path :
  forall n i h,
    exists k,
      log (chunkSteps P n file path (Z.of_nat i * chunkSize) (Nat.eqb i 0)) h
      = (h ++ firstn k (chunkEvents file path i n))%list
      /\ (result (chunkSteps P n file path (Z.of_nat i * chunkSize)
                    (Nat.eqb i 0)) h = Resolved tt ->
          firstn k (chunkEvents file path i n) = chunkEvents file path i n)
      /\ (n <> 0%nat -> readError P h (chunkBlob file i) = None -> k <> 0%nat).
Proof.
  unfold log, result.
  induction n as [| n IH]; intros i h.
  - exists 0%nat. cbn. now rewrite app_nil_r.
  - cbn [chunkSteps chunkEvents]. unfold bind.
    rewrite chunkStep_data.
    destruct (readError P h (chunkBlob file i)) as [e |].
    { exists 0%nat. cbn [firstn fst snd]. rewrite app_nil_r.
      repeat split; discriminate. }
    unfold bind, fsCall, hostCall.
    rewrite next_offset.
    destruct (filesystem P h (chunkCall file path i)) as [u | e].
    + destruct (IH (S i) ((h ++ [Fs (chunkCall file path i)])
                            ++ [Host (SetTimeout 0)])%list)
        as (k & Hlog & Hres & _).
      exists (S (S k)). cbn [firstn]. repeat split.
      * cbn [Nat.eqb] in Hlog. rewrite Hlog. now rewrite !app_snoc.
      * intros Hr. f_equal. f_equal. now apply Hres.
      * discriminate.
    + exists 1%nat. cbn [firstn fst snd].
      repeat split; [discriminate | discriminate].
Qed.

Lemma isChunkWrite_chunkCall file path i :
  isChunkWrite (Fs (chunkCall file path i)) = true.
Proof. destruct i; reflexivity. Qed.

Lemma chunkWrites_chunkEvents file path n :
  forall i,
    chunkWrites (chunkEvents file path i n)
    = map (chunkCall file path) (seq i n).
Proof.
  unfold chunkWrites.
  induction n as [| n IH]; intros i; [reflexivity |].
  cbn [chunkEvents filter seq map]. rewrite isChunkWrite_chunkCall.
  cbn [yield isChunkWrite fsCalls]. now rewrite IH.
Qed.

(** The chunk writes of a prefix of the expected calls are the expected
    writes of the first chunks, in order. *)
Lemma chunkWrites_firstn file path n :
  forall i k,
    exists m,
      (m <= n)%nat
      /\ chunkWrites (firstn k (chunkEvents file path i n))
         = map (chunkCall file path) (seq i m).
Proof.
  unfold chunkWrites.
  induction n as [| n IH]; intros i k.
  - exists 0%nat. rewrite firstn_nil. split; [lia | reflexivity].
  - destruct k as [| [| k]]; cbn [chunkEvents firstn filter].
    + exists 0%nat. split; [lia | reflexivity].
    + rewrite isChunkWrite_chunkCall. exists 1%nat. split; [lia | reflexivity].
    + rewrite isChunkWrite_chunkCall. cbn [yield isChunkWrite fsCalls].
      destruct (IH (S i) k) as (m & Hm & Heq).
      exists (S m). split; [lia |]. cbn [seq map]. now rewrite Heq.
Qed.

Lemma decoded_chunkCall file path i :
  decoded (chunkCall file path i) = Some (chunkBytes file i).
Proof. destruct i; cbn; apply decode_encode. Qed.

Lemma firstn_app_skipn {A} a b (l : list A) :
  (firstn a l ++ firstn b (skipn a l))%list = firstn (a + b) l.
Proof.
  revert l. induction a as [| a IH]; intros [| x l]; cbn;
    rewrite ?firstn_nil; try reflexivity.
  now rewrite IH.
Qed.

(** Decoding the payloads of chunks [i], ..., [i + n - 1] in order gives the
    bytes from offset [i * chunkSize] on, [n * chunkSize] of them at most. *)
Lemma reassemble_chunks file path n :
  forall i,
    reassemble (map (chunkCall file path) (seq i n))
    = Some (firstn (n * Z.to_nat chunkSize)
              (skipn (i * Z.to_nat chunkSize) (File.bytes file))).
Proof.
  induction n as [| n IH]; intros i; [reflexivity |].
  cbn [seq map reassemble]. rewrite decoded_chunkCall, IH. f_equal.
  unfold chunkBytes.
  rewrite Z2Nat.inj_mul, Nat2Z.id by (pose proof chunkSize_pos; lia).
  generalize (Z.to_nat chunkSize) as c. intros c.
  replace (S i * c)%nat with (c + i * c)%nat by lia.
  replace (S n * c)%nat with (c + n * c)%nat by lia.
  now rewrite <- skipn_skipn, firstn_app_skipn.
Qed.

Lemma chunkCount_covers sz :
  (Z.to_nat sz <= chunkCount sz * Z.to_nat chunkSize)%nat.
Proof. unfold chunkCount, chunkSize. lia. Qed.

Lemma chunkCount_split N r :
  0 < r <= chunkSize -> 0 <= N ->
  Z.of_nat (chunkCount (N * chunkSize + r)) = N + 1.
Proof. unfold chunkCount, chunkSize. lia. Qed.

(** The whole chunked write on a host that reads every blob and accepts
    the writes. *)
Lemma saveFileChunked_accepted P file path h :
  readsLoad P -> acceptsChunkWrites P ->
  saveFileChunked P file path h
  = (Resolved tt,
     (h ++ chunkEvents file path 0 (chunkCount (File.size file)))%list).
Proof.
  intros Hread Hok. unfold saveFileChunked.
  rewrite (loop_unroll P file path (chunkCount (File.size file)))
    by (f_equal; lia).
  exact (chunkSteps_accepted P file path Hread Hok _ 0%nat h).
Qed.

(** The whole chunked write on any host. *)
Lemma saveFileChunked_prefix P file path h :
  exists k,
    log (saveFileChunked P file path) h
    = (h ++ firstn k (chunkEvents file path 0
                        (chunkCount (File.size file))))%list
    /\ (result (saveFileChunked P file path) h = Resolved tt ->
        firstn k (chunkEvents file path 0 (chunkCount (File.size file)))
        = chunkEvents file path 0 (chunkCount (File.size file)))
    /\ (chunkCount (File.size file) <> 0%nat ->
        readError P h (chunkBlob file 0) = None -> k <> 0%nat).
Proof.
  unfold saveFileChunked, log, result.
  rewrite (loop_unroll P file path (chunkCount (File.size file)))
    by (f_equal; lia).
  exact (chunkSteps_prefix P file path _ 0%nat h).
Qed.

(** When the read of the first chunk fails, the chunked write rejects with
    the reader's error and has called nothing. *)
Lemma saveFileChunked_unread P file path h e :
  0 < File.size file ->
  readError P h (chunkBlob file 0) = Some e ->
  saveFileChunked P file path h = (Rejected e, h).
Proof.
  intros Hsz Hread. unfold saveFileChunked.
  rewrite (loop_unroll P file path (chunkCount (File.size file)))
    by (f_equal; lia).
  rewrite chunkCount_S by assumption. cbn [chunkSteps]. unfold bind.
  pose proof (chunkStep_data P file path 0 h) as Hstep.
  cbn [Nat.eqb] in Hstep. change (Z.of_nat 0 * chunkSize) with 0 in Hstep.
  now rewrite Hstep, Hread.
Qed.

End Chunked.

(** ** Yields between chunk writes *)

Module Yield.
Local Open Scope list_scope.

Lemma yieldScan_app t u : forall p,
  yieldScan p (t ++ u)
  = match yieldScan p t with
    | Some q => yieldScan q u
    | None => None
    end.
Proof.
  induction t as [| e t IH]; intros p; [reflexivity |].
  cbn [app yieldScan].
  destruct (isChunkWrite e); [destruct p; [reflexivity | apply IH] |].
  destruct (isYield e); apply IH.
Qed.

(** A log without chunk writes cannot violate the discipline. *)
Lemma yieldScan_quiet t :
  forallb (fun e => negb (isChunkWrite e)) t = true ->
  forall p, exists q, yieldScan p t = Some q.
Proof.
  induction t as [| e t IH]; intros Hq p; [now exists p |].
  cbn in Hq. apply andb_prop in Hq as [He Ht]. apply negb_true_iff in He.
  cbn [yieldScan]. rewrite He. destruct (isYield e); now apply IH.
Qed.

Lemma yieldScan_chunkEvents file path n :
  forall i k, exists q,
    yieldScan false (firstn k (chunkEvents file path i n)) = Some q.
Proof.
  induction n as [| n IH]; intros i k.
  - exists false. now rewrite firstn_nil.
  - destruct k as [| [| k]]; cbn [chunkEvents firstn yieldScan].
    + now exists false.
    + rewrite Chunked.isChunkWrite_chunkCall. now exists true.
    + rewrite Chunked.isChunkWrite_chunkCall. cbn. apply IH.
Qed.

(** After a chunk write is scanned, a second one is accepted only once a
    yield has been seen. *)
Lemma yieldScan_pending mid w2 after :
  isChunkWrite w2 = true ->
  forall q, yieldScan true (mid ++ w2 :: after) = Some q ->
  exists e, In e mid /\ isYield e = true.
Proof.
  intros Hw2. induction mid as [| e mid IH]; intros q Hscan.
  - cbn in Hscan. rewrite Hw2 in Hscan. discriminate.
  - cbn [app yieldScan] in Hscan.
    destruct (isChunkWrite e); [discriminate |].
    destruct (isYield e) eqn:Hy.
    + exists e. split; [now left | assumption].
    + destruct (IH q Hscan) as (e' & Hin & He'). exists e'. split; [now right | assumption].
Qed.

Theorem yieldScan_sound t p q :
  yieldScan p t = Some q -> yieldsBetweenWrites t.
Proof.
  intros Hscan before w1 mid w2 after -> Hw1 Hw2.
  revert p Hscan. induction before as [| e before IH]; intros p Hscan.
  - cbn [app yieldScan] in Hscan. rewrite Hw1 in Hscan.
    destruct p; [discriminate |].
    now apply (yieldScan_pending mid w2 after Hw2 q).
  - cbn [app yieldScan] in Hscan.
    destruct (isChunkWrite e); [destruct p; [discriminate | now apply (IH true)] |].
    destruct (isYield e); now apply (IH _ Hscan).
Qed.

End Yield.

(** ** [saveFile] *)

Module Save.

Lemma generateFilename_run P originalName h :
  generateFilename P originalName h
  = (Resolved (generatedFilename P originalName h),
     (h ++ [Host DateNow; Host MathRandomToString36])%list).
Proof.
  unfold generatedFilename, result, generateFilename, bind, hostCall, ret.
  cbn [fst]. now rewrite app_snoc.
Qed.

Lemma saveFile_browser P file h :
  isNativePlatform P = false ->
  saveFile P file h
  = (Resolved {| uri := host P h (CreateObjectURL file);
                 size := File.size file;
                 mimeType := File.type file |},
     (h ++ [Host (CreateObjectURL file)])%list).
Proof.
  intros Hn. unfold saveFile, isSupportedCapacitor. rewrite Hn. reflexivity.
Qed.

Lemma saveFile_native P file h :
  isNativePlatform P = true ->
  saveFile P file h
  = try_catch (storeAt P file (destinationPath P file h)) (saveFileFailed P)
      (h ++ [Host DateNow; Host MathRandomToString36])%list.
Proof.
  intros Hn. unfold saveFile, isSupportedCapacitor. rewrite Hn. cbn [negb].
  unfold try_catch, bind at 1. rewrite generateFilename_run. reflexivity.
Qed.

Lemma hasSourceLocator_true file :
  hasSourceLocator file = true ->
  exists src, sourceUri file = Some src /\ src <> "".
Proof.
  unfold hasSourceLocator. destruct (sourceUri file) as [src |]; [| discriminate].
  cbn. intros H. exists src. split; [reflexivity |].
  apply negb_true_iff in H. now apply String.eqb_neq.
Qed.

(** The native-copy branch, through the [catch] block. *)
Lemma store_copy P file path h src :
  sourceUri file = Some src -> src <> "" ->
  try_catch (storeAt P file path) (saveFileFailed P) h
  = match filesystem P h (firstCopy src path) with
    | Resolved _ => resolveUri P file path (h ++ [Fs (firstCopy src path)])%list
    | Rejected _ =>
        match filesystem P (h ++ [Fs (firstCopy src path)])%list
                (retryCopy src path) with
        | Resolved _ =>
            resolveUri P file path
              (h ++ [Fs (firstCopy src path); Fs (retryCopy src path)])%list
        | Rejected e =>
            (Rejected e,
             (h ++ [Fs (firstCopy src path); Fs (retryCopy src path);
                    Host (ConsoleError "Failed to save file to native storage:" e)])%list)
        end
    end.
Proof.
  intros Hsrc Hne. unfold storeAt. rewrite Hsrc.
  assert (JS.truthy (Some src) = true) as ->
    by (cbn; apply negb_true_iff; now apply String.eqb_neq).
  unfold resolveUri, saveFileFailed, try_catch, bind, fsCall, hostCall, throw.
  destruct (filesystem P h (firstCopy src path)) as [u | e1].
  - reflexivity.
  - destruct (filesystem P _ (retryCopy src path)) as [u | e2].
    + now rewrite !app_snoc.
    + now rewrite !app_snoc.
Qed.

(** The chunked-write branch, through the [catch] block. *)
Lemma store_chunked P file path h :
  JS.truthy (sourceUri file) = false ->
  try_catch (storeAt P file path) (saveFileFailed P) h
  = match saveFileChunked P file path
            (h ++ [Host (ConsoleWarn
                     "No native path found. Using memory-safe chunked write.")])%list
    with
    | (Resolved _, h') => resolveUri P file path h'
    | (Rejected e, h') =>
        (Rejected e,
         (h' ++ [Host (ConsoleError "Failed to save file to native storage:" e)])%list)
    end.
Proof.
  intros Hsrc. unfold storeAt. rewrite Hsrc.
  unfold resolveUri, saveFileFailed, try_catch, bind, hostCall, throw.
  destruct (saveFileChunked P file path _) as [[u | e] h']; reflexivity.
Qed.

(** The two ways [resolveUri] can end. *)
Lemma resolveUri_run P file path h :
  resolveUri P file path h
  = match filesystem P h (GetUri path Directory.Data) with
    | Resolved r =>
        (Resolved {| uri := GetUriResult.uri r; size := File.size file;
                     mimeType := File.type file |},
         (h ++ [Fs (GetUri path Directory.Data)])%list)
    | Rejected e =>
        (Rejected e,
         (h ++ [Fs (GetUri path Directory.Data);
                Host (ConsoleError "Failed to save file to native storage:" e)])%list)
    end.
Proof.
  unfold resolveUri, saveFileFailed, try_catch, bind, fsCall, hostCall, throw, ret.
  destruct (filesystem P h (GetUri path Directory.Data)) as [r | e];
    [reflexivity | now rewrite app_snoc].
Qed.

Lemma saveFileChunked_empty P file path h :
  File.size file = 0 -> saveFileChunked P file path h = (Resolved tt, h).
Proof.
  intros Hsz. unfold saveFileChunked.
  rewrite (Chunked.loop_unroll P file path 0); [reflexivity |].
  apply Chunked.chunkCount_0. lia.
Qed.

Lemma chunkEvents_noCopy file path n :
  forall i k, filter isCopy (firstn k (chunkEvents file path i n)) = [].
Proof.
  induction n as [| n IH]; intros i k; [now rewrite firstn_nil |].
  destruct k as [| [| k]]; cbn [chunkEvents firstn filter]; try reflexivity.
  - destruct i; reflexivity.
  - replace (isCopy (Fs (chunkCall file path i))) with false
      by (destruct i; reflexivity).
    cbn. apply IH.
Qed.

(** The log of a native save with a source locator. *)
Lemma saveFile_copy_log P file h src :
  isNativePlatform P = true -> sourceUri file = Some src -> src <> "" ->
  exists tail,
    log (saveFile P file) h
    = (h ++ Host DateNow :: Host MathRandomToString36
         :: Fs (firstCopy src (destinationPath P file h)) :: tail)%list
    /\ forallb (fun e => negb (isChunkWrite e)) tail = true
    /\ Forall (fun c => target c = destinationPath P file h) (fsCalls tail).
Proof.
  intros Hn Hsrc Hne. unfold log.
  rewrite (saveFile_native P file h Hn), (store_copy P file _ _ src Hsrc Hne).
  set (path := destinationPath P file h).
  destruct (filesystem P _ (firstCopy src path)) as [u | e1];
    [| destruct (filesystem P _ (retryCopy src path)) as [u | e2]];
    rewrite ?Save.resolveUri_run;
    repeat match goal with
           | |- context [filesystem P ?h' (GetUri path Directory.Data)] =>
               destruct (filesystem P h' (GetUri path Directory.Data))
           end;
    cbn [snd]; rewrite <- ?app_assoc; cbn [app];
    eexists; (split; [reflexivity |]); split;
    try reflexivity; cbn [fsCalls]; repeat constructor.
Qed.

(** The log of a native save without a source locator. *)
Lemma saveFile_chunked_log P file h :
  isNativePlatform P = true -> hasSourceLocator file = false ->
  let path := destinationPath P file h in
  let warned :=
    (h ++ [Host DateNow; Host MathRandomToString36;
           Host (ConsoleWarn
                   "No native path found. Using memory-safe chunked write.")])%list in
  exists tail,
    log (saveFile P file) h
    = (warned ++ events (saveFileChunked P file path) warned ++ tail)%list
    /\ match result (saveFileChunked P file path) warned with
       | Resolved _ =>
           hd_error tail = Some (Fs (GetUri path Directory.Data))
           /\ forallb quiet tail = true
           /\ Forall (fun c => target c = path) (fsCalls tail)
       | Rejected e =>
           tail = [Host (ConsoleError "Failed to save file to native storage:" e)]
       end.
Proof.
  intros Hn Hsrc path warned. unfold log.
  rewrite (saveFile_native P file h Hn), (store_chunked P file _ _ Hsrc).
  fold path. rewrite <- app_assoc. cbn [app]. fold warned.
  destruct (Chunked.saveFileChunked_prefix P file path warned) as (k & Hlog & _).
  unfold log in Hlog. unfold events, result, log.
  destruct (saveFileChunked P file path warned) as [[u | e] h'];
    cbn [fst snd] in *; subst h';
    rewrite skipn_app, skipn_all, Nat.sub_diag; cbn [skipn app].
  - rewrite resolveUri_run.
    destruct (filesystem P _ (GetUri path Directory.Data)); cbn [snd];
      eexists; (split; [now rewrite <- app_assoc |]);
      repeat split; cbn [fsCalls]; repeat constructor.
  - eexists. split; [now rewrite <- app_assoc | reflexivity].
Qed.

End Save.

Lemma events_of_log {A} (m : Task A) h calls :
  log m h = (h ++ calls)%list -> events m h = calls.
Proof.
  unfold events. intros ->.
  now rewrite skipn_app, skipn_all, Nat.sub_diag.
Qed.

Lemma quiet_no_chunk_write tail :
  forallb quiet tail = true ->
  forallb (fun e => negb (isChunkWrite e)) tail = true.
Proof.
  induction tail as [| e tail IH]; [reflexivity |].
  cbn. unfold quiet at 1. intros H.
  apply andb_prop in H as [He Ht]. apply andb_prop in He as [He _].
  now rewrite He, IH.
Qed.

Lemma quiet_no_copy tail : forallb quiet tail = true -> filter isCopy tail = [].
Proof.
  induction tail as [| e tail IH]; [reflexivity |].
  cbn. unfold quiet at 1. intros H.
  apply andb_prop in H as [He Ht]. apply andb_prop in He as [_ He].
  apply negb_true_iff in He. now rewrite He, IH.
Qed.

Lemma no_chunk_write_chunkWrites tail :
  forallb (fun e => negb (isChunkWrite e)) tail = true -> chunkWrites tail = [].
Proof.
  unfold chunkWrites. induction tail as [| e tail IH]; [reflexivity |].
  cbn. intros H. apply andb_prop in H as [He Ht].
  apply negb_true_iff in He. now rewrite He, IH.
Qed.

(** ** The course of a native save *)

Module SaveRun.

Lemma chunkEvents_isWork file path n :
  forall i k, forallb isWork (firstn k (chunkEvents file path i n)) = true.
Proof.
  induction n as [| n IH]; intros i k; [now rewrite firstn_nil |].
  destruct k as [| [| k]]; cbn [chunkEvents firstn forallb]; try reflexivity.
  - now destruct i.
  - replace (isWork (Fs (chunkCall file path i))) with true by now destruct i.
    cbn. apply IH.
Qed.

Lemma resolveUri_end P file path h work :
  SaveEnd P file path h work (resolveUri P file path (h ++ work)).
Proof.
  rewrite Save.resolveUri_run.
  destruct (filesystem P (h ++ work) (GetUri path Directory.Data)) as [r | e] eqn:Hr.
  - rewrite <- app_assoc. now constructor.
  - rewrite <- app_assoc. now constructor.
Qed.

(** Every native save makes some work calls and then ends in one of the
    three ways. *)
Lemma saveFile_native_run P file h :
  isNativePlatform P = true ->
  exists work,
    forallb isWork work = true
    /\ SaveEnd P file (destinationPath P file h) h work (saveFile P file h).
Proof.
  intros Hn. rewrite (Save.saveFile_native P file h Hn).
  set (path := destinationPath P file h).
  destruct (hasSourceLocator file) eqn:Hloc.
  - destruct (Save.hasSourceLocator_true file Hloc) as (src & Hsrc & Hne).
    rewrite (Save.store_copy P file _ _ src Hsrc Hne).
    destruct (filesystem P _ (firstCopy src path)) as [u | e1];
      [| destruct (filesystem P _ (retryCopy src path)) as [u | e2]].
    + exists [Host DateNow; Host MathRandomToString36; Fs (firstCopy src path)].
      split; [reflexivity |].
      rewrite <- app_assoc. apply resolveUri_end.
    + exists [Host DateNow; Host MathRandomToString36; Fs (firstCopy src path);
              Fs (retryCopy src path)].
      split; [reflexivity |].
      rewrite <- app_assoc. apply resolveUri_end.
    + exists [Host DateNow; Host MathRandomToString36; Fs (firstCopy src path);
              Fs (retryCopy src path)].
      split; [reflexivity |].
      rewrite <- app_assoc. apply (WorkRejected P file path h).
  - rewrite (Save.store_chunked P file _ _ Hloc). fold path.
    rewrite <- app_assoc. cbn [app].
    set (warned := h ++ _).
    destruct (Chunked.saveFileChunked_prefix P file path warned) as (k & Hk & _).
    unfold log in Hk.
    exists ([Host DateNow; Host MathRandomToString36;
             Host (ConsoleWarn
                     "No native path found. Using memory-safe chunked write.")]
            ++ firstn k (chunkEvents file path 0 (chunkCount (File.size file)))).
    split; [cbn [app forallb isWork andb]; apply chunkEvents_isWork |].
    destruct (saveFileChunked P file path warned) as [[u | e] h'];
      cbn [snd] in Hk; subst h' warned; rewrite <- app_assoc; cbn [app].
    + apply resolveUri_end.
    + rewrite <- app_assoc. apply (WorkRejected P file path h).
Qed.

End SaveRun.

Module SaveFacts.

Lemma isWork_isSaveCall work :
  forallb isWork work = true -> forallb isSaveCall work = true.
Proof.
  induction work as [| e work IH]; [reflexivity |].
  cbn. intros H. apply andb_prop in H as [He Hw]. rewrite (IH Hw).
  destruct e as [[] | []]; try discriminate; reflexivity.
Qed.

Lemma isWork_no_error work :
  forallb isWork work = true -> filter isConsoleError work = [].
Proof.
  induction work as [| e work IH]; [reflexivity |].
  cbn. intros H. apply andb_prop in H as [He Hw]. rewrite (IH Hw).
  destruct e as [[] | []]; try discriminate; reflexivity.
Qed.

Lemma isWork_no_handle work :
  forallb isWork work = true -> existsb isHandle work = false.
Proof.
  induction work as [| e work IH]; [reflexivity |].
  cbn. intros H. apply andb_prop in H as [He Hw]. rewrite (IH Hw).
  destruct e as [[] | []]; try discriminate; reflexivity.
Qed.

(** A native save makes no in-session handle. *)
Lemma native_save_no_handle P file h :
  isNativePlatform P = true ->
  existsb isHandle (events (saveFile P file) h) = false.
Proof.
  intros Hn.
  destruct (SaveRun.saveFile_native_run P file h Hn) as (work & Hwork & Hend).
  pose proof (isWork_no_handle work Hwork) as Hnone.
  unfold events, log.
  inversion Hend as [e Hrun | r Hr Hrun | e Hr Hrun]; cbn [snd];
    rewrite skipn_app, skipn_all, Nat.sub_diag; cbn [skipn app];
    rewrite existsb_app, Hnone; reflexivity.
Qed.

End SaveFacts.

(** C1. For every file of size S > 0 written by [saveFileChunked], with
    S = N * chunkSize + r and 0 < r <= chunkSize.  On a host that reads
    every chunk and accepts every chunk write the task resolves.  Whenever
    it resolves, on any host, exactly N + 1 chunk-write calls were made,
    which is the ceiling of S / chunkSize; call number [i] is the expected
    one for chunk [i], so the first is a [writeFile] with
    [recursive: true], the others are [appendFile]s, and they carry the
    bytes at offsets [i * chunkSize] in increasing order; decoding the
    payloads in call order and concatenating them gives back the file's
    bytes.  Whether it resolves or not, the chunk writes made are the
    expected ones for the first chunks, in offset order. *)
Theorem chunked_write_protocol P file path h N r :
  0 < File.size file ->
  File.size file = N * chunkSize + r -> 0 < r <= chunkSize ->
  let calls := chunkWrites (events (saveFileChunked P file path) h) in
  (readsLoad P -> acceptsChunkWrites P ->
   result (saveFileChunked P file path) h = Resolved tt)
  /\ (result (saveFileChunked P file path) h = Resolved tt ->
      Z.of_nat (List.length calls) = N + 1
      /\ List.length calls = chunkCount (File.size file)
      /\ hd_error calls
         = Some (WriteFile path (Some (Base64.encode (chunkBytes file 0)))
                   Directory.Data true)
      /\ (forall i, (0 < i < List.length calls)%nat ->
            nth_error calls i
            = Some (AppendFile path (Some (Base64.encode (chunkBytes file i)))
                      Directory.Data))
      /\ reassemble calls = Some (File.bytes file))
  /\ exists m,
       (m <= chunkCount (File.size file))%nat
       /\ calls = map (chunkCall file path) (seq 0 m).
Proof.
  intros Hpos Hsplit Hr calls.
  destruct (Chunked.saveFileChunked_prefix P file path h) as (k & Hk & Hfull & _).
  pose proof (events_of_log _ _ _ Hk) as Hev.
  split; [| split].
  - intros Hread Hok.
    now destruct (events_of _ _ _ _
                    (Chunked.saveFileChunked_accepted P file path h Hread Hok)).
  - intros Hres. subst calls.
    rewrite Hev, (Hfull Hres), Chunked.chunkWrites_chunkEvents.
    assert (HN : 0 <= N) by (unfold chunkSize in *; lia).
    assert (Hcount : Z.of_nat (chunkCount (File.size file)) = N + 1)
      by (rewrite Hsplit; now apply Chunked.chunkCount_split).
    rewrite length_map, length_seq.
    repeat split; try assumption.
    + destruct (chunkCount (File.size file)); [lia | reflexivity].
    + intros i Hi.
      rewrite nth_error_map, nth_error_seq.
      destruct (Nat.ltb_spec i (chunkCount (File.size file))); [| lia].
      cbn. destruct i; [lia | reflexivity].
    + rewrite Chunked.reassemble_chunks. cbn [Nat.mul skipn].
      rewrite firstn_all2; [reflexivity |].
      pose proof (Chunked.chunkCount_covers (File.size file)) as Hc.
      unfold File.size in Hc at 1. lia.
  - subst calls. rewrite Hev. apply Chunked.chunkWrites_firstn.
Qed.

(** A recording of one chunk and one byte: the save resolves after two
    chunk writes, a create of the first chunk and then an append of the
    last byte, which together give back the recording. *)
Lemma chunked_write_protocol_witness :
  let file := Examples.recording in
  let path := "aurora-files/audio/take.wav"%string in
  let calls := chunkWrites (events (saveFileChunked Examples.android file path) []) in
  result (saveFileChunked Examples.android file path) [] = Resolved tt
  /\ Z.of_nat (List.length calls) = 2
  /\ hd_error calls
     = Some (WriteFile path (Some (Base64.encode (chunkBytes file 0)))
               Directory.Data true)
  /\ nth_error calls 1
     = Some (AppendFile path (Some (Base64.encode (chunkBytes file 1)))
               Directory.Data)
  /\ reassemble calls = Some (File.bytes file).
Proof.
  intros file path calls.
  assert (Hsize : File.size file = 1 * chunkSize + 1).
  { unfold File.size, file, Examples.recording. cbn [File.bytes].
    rewrite repeat_length, Z2Nat.id; unfold chunkSize; lia. }
  destruct (chunked_write_protocol Examples.android file path [] 1 1)
    as (Hruns & Hdone & _).
  - rewrite Hsize. unfold chunkSize. lia.
  - exact Hsize.
  - unfold chunkSize. lia.
  - assert (Hres : result (saveFileChunked Examples.android file path) []
                   = Resolved tt).
    { apply Hruns.
      - intros h blob. reflexivity.
      - intros h p data directory. split; reflexivity. }
    destruct (Hdone Hres) as (Hlen & _ & Hhd & Hnth & Hbytes).
    split; [exact Hres |].
    split; [exact Hlen |].
    split; [exact Hhd |].
    split; [| exact Hbytes].
    apply Hnth. revert Hlen. generalize (List.length calls). lia.
Defined.

(** C2. [saveFile] runs exactly one of three strategies, selected by the
    native capability and by the presence of a source locator, whatever the
    size of the file.  Without the capability it returns the handle made by
    [URL.createObjectURL] and calls nothing else, so no filesystem call is
    made.  With the capability no handle is made.  With the capability and
    a locator the first call after the name is generated is the native copy
    and no chunk write is ever made.  With the capability and no locator no
    copy is ever made and the calls are the warning, those of
    [saveFileChunked] and a tail without chunk write: the first chunk is
    read as soon as the file has one byte, below the 1 MiB threshold too,
    and the first filesystem call is its create; when that read fails the
    save is rejected with the reader's error, which is logged.  With the
    capability a filesystem call is made in every case but this last one. *)
Theorem saveFile_strategy P file h :
  let path := destinationPath P file h in
  let calls := events (saveFile P file) h in
  let warned :=
    [Host DateNow; Host MathRandomToString36;
     Host (ConsoleWarn "No native path found. Using memory-safe chunked write.")] in
  let unread :=
    match strategy (isNativePlatform P) (hasSourceLocator file) with
    | ChunkedWrite =>
        if 0 <? File.size file
        then readError P (h ++ warned) (chunkBlob file 0)
        else None
    | _ => None
    end in
  existsb isFs calls
  = isNativePlatform P && match unread with Some _ => false | None => true end
  /\ existsb isHandle calls = negb (isNativePlatform P)
  /\ match strategy (isNativePlatform P) (hasSourceLocator file) with
     | Ephemeral =>
         result (saveFile P file) h
         = Resolved {| uri := host P h (CreateObjectURL file);
                       size := File.size file;
                       mimeType := File.type file |}
         /\ calls = [Host (CreateObjectURL file)]
     | NativeCopy =>
         exists src tail,
           sourceUri file = Some src
           /\ calls
              = Host DateNow :: Host MathRandomToString36
                :: Fs (firstCopy src path) :: tail
           /\ chunkWrites calls = []
     | ChunkedWrite =>
         filter isCopy calls = []
         /\ (exists tail,
               calls
               = (warned
                  ++ events (saveFileChunked P file path) (h ++ warned) ++ tail)%list
               /\ chunkWrites tail = [])
         /\ match unread with
            | Some e =>
                saveFile P file h
                = (Rejected e,
                   h ++ warned
                     ++ [Host (ConsoleError
                                 "Failed to save file to native storage:" e)])
            | None =>
                hd_error (fsCalls calls)
                = Some (if 0 <? File.size file then chunkCall file path 0
                        else GetUri path Directory.Data)
            end
     end.
Proof.
  intros path calls warned unread. subst calls unread. unfold strategy.
  destruct (isNativePlatform P) eqn:Hn; cbn [negb andb].
  2:{ destruct (events_of _ _ _ _ (Save.saveFile_browser P file h Hn))
        as [Hres Hev].
      rewrite Hev.
      split; [reflexivity | split; [reflexivity | split; [exact Hres | reflexivity]]]. }
  pose proof (SaveFacts.native_save_no_handle P file h Hn) as Hhandle.
  destruct (hasSourceLocator file) eqn:Hloc.
  - destruct (Save.hasSourceLocator_true file Hloc) as (src & Hsrc & Hne).
    destruct (Save.saveFile_copy_log P file h src Hn Hsrc Hne)
      as (tail & Hlog & Hquiet & _).
    rewrite (events_of_log _ _ _ Hlog) in *.
    split; [reflexivity | split; [exact Hhandle |]].
    exists src, tail. split; [assumption | split; [reflexivity |]].
    unfold chunkWrites. cbn [filter isChunkWrite firstCopy].
    now apply no_chunk_write_chunkWrites.
  - destruct (Save.saveFile_chunked_log P file h Hn Hloc) as (tail & Hlog & Htail).
    fold path in Hlog, Htail. cbv zeta in Hlog, Htail.
    change (h ++ [Host DateNow; Host MathRandomToString36;
                  Host (ConsoleWarn
                     "No native path found. Using memory-safe chunked write.")])%list
      with (h ++ warned)%list in *.
    rewrite <- app_assoc in Hlog. pose proof (events_of_log _ _ _ Hlog) as Hev.
    destruct (Chunked.saveFileChunked_prefix P file path (h ++ warned)%list)
      as (k & Hk & Hfull & Hpos).
    pose proof (events_of_log _ _ _ Hk) as Hchunks.
    assert (Htl : filter isCopy tail = [] /\ chunkWrites tail = []).
    { destruct (result (saveFileChunked P file path) (h ++ warned)%list).
      - destruct Htail as (_ & Hq & _).
        split; [now apply quiet_no_copy
               | now apply no_chunk_write_chunkWrites, quiet_no_chunk_write].
      - subst tail. split; reflexivity. }
    destruct Htl as [Hc Hw].
    assert (Hcopies : filter isCopy (events (saveFile P file) h) = []).
    { rewrite Hev, Hchunks. subst warned. cbn [app filter isCopy].
      rewrite filter_app, Hc. now rewrite Save.chunkEvents_noCopy. }
    assert (Hparts : exists tail0,
               events (saveFile P file) h
               = (warned
                  ++ events (saveFileChunked P file path) (h ++ warned) ++ tail0)%list
               /\ chunkWrites tail0 = [])
      by (exists tail; split; [exact Hev | exact Hw]).
    destruct (Z.ltb_spec 0 (File.size file)) as [Hsz | Hsz].
    + destruct (readError P (h ++ warned) (chunkBlob file 0)) as [e |] eqn:Hread.
      * assert (Hrun : saveFile P file h
                       = (Rejected e,
                          h ++ warned
                            ++ [Host (ConsoleError
                                        "Failed to save file to native storage:" e)])).
        { rewrite (Save.saveFile_native P file h Hn),
            (Save.store_chunked P file _ _ Hloc).
          fold path. rewrite <- app_assoc. cbn [app]. fold warned.
          rewrite (Chunked.saveFileChunked_unread P file path _ e Hsz Hread).
          now rewrite <- app_assoc. }
        destruct (events_of _ _ _ _ Hrun) as [_ Hcalls].
        split; [now rewrite Hcalls |].
        split; [exact Hhandle |].
        split; [exact Hcopies | split; [exact Hparts | exact Hrun]].
      * assert (Hk0 : k <> 0%nat).
        { apply Hpos; [| reflexivity].
          rewrite Chunked.chunkCount_S by assumption. discriminate. }
        split; [| split; [exact Hhandle
                         | split; [exact Hcopies | split; [exact Hparts |]]]];
          rewrite Hev, Hchunks, Chunked.chunkCount_S by assumption;
          (destruct k as [| k]; [now destruct Hk0 |]); reflexivity.
    + assert (Hzero : File.size file = 0) by (unfold File.size in *; lia).
      unfold result in Htail.
      rewrite (Save.saveFileChunked_empty P file path _ Hzero) in Htail.
      cbn [fst] in Htail. destruct Htail as (Hhd & _).
      assert (Hnone : events (saveFileChunked P file path) (h ++ warned) = []).
      { rewrite Hchunks, Chunked.chunkCount_0 by lia. now rewrite firstn_nil. }
      destruct tail as [| e tail]; [discriminate |].
      injection Hhd as ->.
      assert (Hshape : events (saveFile P file) h
                       = warned ++ Fs (GetUri path Directory.Data) :: tail)
        by (rewrite Hev, Hnone; reflexivity).
      split; [now rewrite Hshape |].
      split; [exact Hhandle |].
      split; [exact Hcopies | split; [exact Hparts | now rewrite Hshape]].
Qed.

(** C3. In the native-copy strategy, when the first copy is rejected,
    exactly one retry follows, the same copy without the [directory]
    option.  If the retry is rejected too, that rejection is logged and
    propagates to the caller, and nothing else is called: no chunk write,
    no [getUri].  If the retry resolves, the save goes on to [getUri];
    in both cases the log holds two copies and no chunk write. *)
Theorem copy_retried_once P file h src e1 :
  isNativePlatform P = true ->
  sourceUri file = Some src -> src <> ""%string ->
  let path := destinationPath P file h in
  let started := h ++ [Host DateNow; Host MathRandomToString36] in
  filesystem P started (firstCopy src path) = Rejected e1 ->
  retryCopy src path = Copy src path None (Some Directory.Data)
  /\ match filesystem P (started ++ [Fs (firstCopy src path)])
             (retryCopy src path) with
     | Rejected e2 =>
         saveFile P file h
         = (Rejected e2,
            started ++ [Fs (firstCopy src path); Fs (retryCopy src path);
                        Host (ConsoleError
                                "Failed to save file to native storage:" e2)])
     | Resolved _ =>
         exists tail,
           log (saveFile P file) h
           = started ++ [Fs (firstCopy src path); Fs (retryCopy src path);
                         Fs (GetUri path Directory.Data)] ++ tail
           /\ forallb quiet tail = true
     end.
Proof.
  intros Hn Hsrc Hne path started Hfirst. split; [reflexivity |].
  unfold log.
  rewrite (Save.saveFile_native P file h Hn),
    (Save.store_copy P file _ _ src Hsrc Hne).
  fold path started. rewrite Hfirst.
  destruct (filesystem P (started ++ [Fs (firstCopy src path)])
              (retryCopy src path)) as [u | e2]; [| reflexivity].
  rewrite Save.resolveUri_run.
  destruct (filesystem P _ (GetUri path Directory.Data)) as [r | e]; cbn [snd].
  - exists []. now rewrite <- !app_assoc.
  - exists [Host (ConsoleError "Failed to save file to native storage:" e)].
    now rewrite <- !app_assoc.
Qed.

(** A host that rejects both copies: the second rejection reaches the
    caller after exactly two copies. *)
Lemma copy_retried_once_witness :
  saveFile Examples.androidFailing Examples.pickedClip []
  = (Rejected "rejected"%string,
     [Host DateNow; Host MathRandomToString36;
      Fs (Copy "content://media/external/video/12"
            "aurora-files/videos/1700000000000_k3j2h1.mp4"
            (Some Directory.External) (Some Directory.Data));
      Fs (Copy "content://media/external/video/12"
            "aurora-files/videos/1700000000000_k3j2h1.mp4"
            None (Some Directory.Data));
      Host (ConsoleError "Failed to save file to native storage:" "rejected")]).
Proof.
  refine (proj2 (copy_retried_once Examples.androidFailing Examples.pickedClip []
                   "content://media/external/video/12" "rejected"
                   _ _ _ _)).
  - reflexivity.
  - reflexivity.
  - discriminate.
  - reflexivity.
Defined.

(** C7. In the calls of one [saveFile], on any host, a yield lies between
    any two chunk writes; and the calls of [saveFileChunked] are an initial
    segment of write, yield, write, yield, ...: after every chunk write that
    completes, and before the next chunk is read, the task yields. *)
Theorem yield_between_chunk_writes P file h :
  yieldsBetweenWrites (events (saveFile P file) h)
  /\ (forall path h',
        yieldsBetweenWrites (events (saveFileChunked P file path) h')
        /\ exists k,
             events (saveFileChunked P file path) h'
             = firstn k (chunkEvents file path 0 (chunkCount (File.size file)))).
Proof.
  split.
  - destruct (isNativePlatform P) eqn:Hn.
    2:{ destruct (events_of _ _ _ _ (Save.saveFile_browser P file h Hn))
          as [_ ->].
        now apply (Yield.yieldScan_sound _ false false). }
    destruct (hasSourceLocator file) eqn:Hloc.
    + destruct (Save.hasSourceLocator_true file Hloc) as (src & Hsrc & Hne).
      destruct (Save.saveFile_copy_log P file h src Hn Hsrc Hne)
        as (tail & Hlog & Hquiet & _).
      rewrite (events_of_log _ _ _ Hlog).
      destruct (Yield.yieldScan_quiet tail Hquiet false) as (q & Hq).
      now apply (Yield.yieldScan_sound _ false q).
    + destruct (Save.saveFile_chunked_log P file h Hn Hloc)
        as (tail & Hlog & Htail).
      cbv zeta in Hlog, Htail.
      set (path := destinationPath P file h) in *.
      set (warned := h ++ _) in *.
      destruct (Chunked.saveFileChunked_prefix P file path warned)
        as (k & Hk & _).
      rewrite (events_of_log _ _ _ Hk) in Hlog.
      subst warned. rewrite <- app_assoc in Hlog.
      rewrite (events_of_log _ _ _ Hlog).
      destruct (Yield.yieldScan_chunkEvents file path
                  (chunkCount (File.size file)) 0 k) as (q & Hq).
      assert (exists q', yieldScan q tail = Some q') as (q' & Hq').
      { destruct (result (saveFileChunked P file path) _).
        - destruct Htail as (_ & Hquiet & _).
          now apply Yield.yieldScan_quiet, quiet_no_chunk_write.
        - subst tail. now exists q. }
      apply (Yield.yieldScan_sound _ false q').
      cbn [app yieldScan isChunkWrite isYield].
      now rewrite Yield.yieldScan_app, Hq.
  - intros path h'.
    destruct (Chunked.saveFileChunked_prefix P file path h') as (k & Hk & _).
    rewrite (events_of_log _ _ _ Hk). split; [| now exists k].
    destruct (Yield.yieldScan_chunkEvents file path
                (chunkCount (File.size file)) 0 k) as (q & Hq).
    now apply (Yield.yieldScan_sound _ false q).
Qed.

(** C10. With the native capability, no source locator and a zero-byte
    file, [saveFile] makes no [writeFile] and no [appendFile] call, so no
    file is created; it still calls [getUri] on the computed path and, when
    that resolves, returns a reference of size 0. *)
Theorem empty_file_saved_without_write P file h r :
  isNativePlatform P = true ->
  hasSourceLocator file = false ->
  File.size file = 0 ->
  let path := destinationPath P file h in
  let warned :=
    h ++ [Host DateNow; Host MathRandomToString36;
          Host (ConsoleWarn
                  "No native path found. Using memory-safe chunked write.")] in
  filesystem P warned (GetUri path Directory.Data) = Resolved r ->
  saveFile P file h
  = (Resolved {| uri := GetUriResult.uri r; size := 0;
                 mimeType := File.type file |},
     warned ++ [Fs (GetUri path Directory.Data)])
  /\ chunkWrites (events (saveFile P file) h) = [].
Proof.
  intros Hn Hloc Hsz path warned Huri.
  assert (Hrun : saveFile P file h
                 = (Resolved {| uri := GetUriResult.uri r; size := 0;
                                mimeType := File.type file |},
                    warned ++ [Fs (GetUri path Directory.Data)])).
  { rewrite (Save.saveFile_native P file h Hn),
      (Save.store_chunked P file _ _ Hloc).
    fold path. rewrite <- app_assoc. cbn [app]. fold warned.
    rewrite (Save.saveFileChunked_empty P file path _ Hsz).
    rewrite Save.resolveUri_run, Huri, Hsz. reflexivity. }
  split; [exact Hrun |].
  subst warned. rewrite <- app_assoc in Hrun. cbn [app] in Hrun.
  destruct (events_of _ _ _ _ Hrun) as [_ ->]. reflexivity.
Qed.

Lemma empty_file_saved_without_write_witness :
  saveFile Examples.android Examples.emptyNote []
  = (Resolved {| uri := "file:///data/user/0/app/files/aurora-files/documents/1700000000000_k3j2h1.txt";
                 size := 0; mimeType := "text/plain" |},
     [Host DateNow; Host MathRandomToString36;
      Host (ConsoleWarn "No native path found. Using memory-safe chunked write.");
      Fs (GetUri "aurora-files/documents/1700000000000_k3j2h1.txt" Directory.Data)])
  /\ chunkWrites (events (saveFile Examples.android Examples.emptyNote) []) = [].
Proof.
  apply (empty_file_saved_without_write Examples.android Examples.emptyNote []
           (GetUriResult.mk
              "file:///data/user/0/app/files/aurora-files/documents/1700000000000_k3j2h1.txt"));
    reflexivity.
Defined.

(** C6, amended.  [deleteFile] resolves for every URI on every host, also
    when it is called a second time on the same URI.  Its filesystem calls
    are exactly: in native mode, one [deleteFile] of the matched path when
    the URI matches [aurora-files/.+], none when it does not; in non-native
    mode, none.  In native mode a URI that does not match makes no call at
    all, and a rejected delete is logged and absorbed.  In non-native mode
    the only call is the release of the URL, made exactly when the URI
    starts with [blob:], whether or not it matches the subtree. *)
Theorem deleteFile_never_fails P uri h :
  result (deleteFile P uri) h = Resolved tt
  /\ result (deleteFile P uri;; deleteFile P uri)%task h = Resolved tt
  /\ fsCalls (events (deleteFile P uri) h)
     = (if isNativePlatform P then
          match JS.match_literal_dot_plus "aurora-files/" uri with
          | Some m => [DeleteFile m Directory.Data]
          | None => []
          end
        else [])
  /\ events (deleteFile P uri) h
     = (if isNativePlatform P then
          match JS.match_literal_dot_plus "aurora-files/" uri with
          | Some m =>
              Fs (DeleteFile m Directory.Data)
              :: match filesystem P h (DeleteFile m Directory.Data) with
                 | Resolved _ => []
                 | Rejected e => [Host (ConsoleError "Failed to delete file:" e)]
                 end
          | None => []
          end
        else if JS.startsWith uri "blob:" then [Host (RevokeObjectURL uri)]
        else []).
Proof.
  assert (Hrun : forall h',
    exists calls,
      deleteFile P uri h' = (Resolved tt, h' ++ calls)
      /\ calls
         = (if isNativePlatform P then
              match JS.match_literal_dot_plus "aurora-files/" uri with
              | Some m =>
                  Fs (DeleteFile m Directory.Data)
                  :: match filesystem P h' (DeleteFile m Directory.Data) with
                     | Resolved _ => []
                     | Rejected e =>
                         [Host (ConsoleError "Failed to delete file:" e)]
                     end
              | None => []
              end
            else if JS.startsWith uri "blob:" then [Host (RevokeObjectURL uri)]
            else [])).
  { intros h'. unfold deleteFile, isSupportedCapacitor.
    destruct (isNativePlatform P); cbn [negb].
    - unfold try_catch.
      destruct (JS.match_literal_dot_plus "aurora-files/" uri) as [m |].
      + unfold fsCall, hostCall.
        destruct (filesystem P h' (DeleteFile m Directory.Data)) as [[] | e];
          eexists; (split; [| reflexivity]); [reflexivity |].
        destruct (host P (h' ++ [Fs (DeleteFile m Directory.Data)])
                    (ConsoleError "Failed to delete file:" e)).
        now rewrite app_snoc.
      + exists []. now rewrite app_nil_r.
    - destruct (JS.startsWith uri "blob:").
      + eexists. split; [| reflexivity]. unfold hostCall.
        now destruct (host P h' (RevokeObjectURL uri)).
      + exists []. now rewrite app_nil_r. }
  destruct (Hrun h) as (calls & Hfirst & Hcalls).
  destruct (events_of _ _ _ _ Hfirst) as [Hres Hev].
  repeat split.
  - exact Hres.
  - unfold result, bind. rewrite Hfirst.
    destruct (Hrun (h ++ calls)) as (calls' & Hsecond & _). now rewrite Hsecond.
  - rewrite Hev, Hcalls.
    destruct (isNativePlatform P).
    + destruct (JS.match_literal_dot_plus "aurora-files/" uri); [| reflexivity].
      now destruct (filesystem P h _).
    + now destruct (JS.startsWith uri "blob:").
  - now rewrite Hev.
Qed.

(** C6 as stated fails.  Without the native capability, the handle
    [blob:http://localhost/3f0c] does not match the managed subtree, yet
    deleting it is not a no-op: [URL.revokeObjectURL] is called on it. *)
Lemma delete_outside_subtree_counterexample :
  isNativePlatform Examples.browser = false
  /\ JS.match_literal_dot_plus "aurora-files/" "blob:http://localhost/3f0c" = None
  /\ deleteFile Examples.browser "blob:http://localhost/3f0c" []
     = (Resolved tt, [Host (RevokeObjectURL "blob:http://localhost/3f0c")])
  /\ events (deleteFile Examples.browser "blob:http://localhost/3f0c") [] <> [].
Proof.
  split; [reflexivity | split; [reflexivity | split; [reflexivity |]]].
  discriminate.
Qed.

(** C8. [shouldUseNativeStorage] answers [true] exactly when the native
    capability is present and the size is at least 1 * 1024 * 1024 bytes:
    [false] below the threshold, [false] without the capability. *)
Theorem shouldUseNativeStorage_threshold P fileSize :
  FILE_SIZE_THRESHOLD = 1048576
  /\ shouldUseNativeStorage P fileSize
     = isNativePlatform P && (1048576 <=? fileSize)
  /\ (shouldUseNativeStorage P fileSize = true
      <-> isNativePlatform P = true /\ 1048576 <= fileSize).
Proof.
  split; [reflexivity |].
  assert (H : shouldUseNativeStorage P fileSize
              = isNativePlatform P && (1048576 <=? fileSize)).
  { unfold shouldUseNativeStorage, isSupportedCapacitor. f_equal.
    change FILE_SIZE_THRESHOLD with 1048576. apply Z.geb_leb. }
  split; [exact H |].
  rewrite H, andb_true_iff, Z.leb_le. reflexivity.
Qed.

(** C9. Without the native capability [convertFileSrc] returns its argument
    and calls nothing. *)
Theorem convertFileSrc_identity P uri h :
  isNativePlatform P = false ->
  convertFileSrc P uri h = (Resolved uri, h).
Proof.
  intros Hn. unfold convertFileSrc, isSupportedCapacitor. now rewrite Hn.
Qed.

Lemma convertFileSrc_identity_witness :
  convertFileSrc Examples.browser "blob:http://localhost/3f0c" []
  = (Resolved "blob:http://localhost/3f0c"%string, []).
Proof.
  apply (convertFileSrc_identity Examples.browser). reflexivity.
Defined.

(** ** The storage scans *)

Module Scan.

(** The inner loop of the statistics never rejects and stats every entry
    it is given. *)
Lemma sumSizes_resolves P cat files :
  forall totalSize h,
    exists totalSize' calls,
      sumSizes P cat files totalSize h = (Resolved totalSize', h ++ calls)
      /\ filter isStat calls = calls
      /\ List.length calls = List.length files.
Proof.
  induction files as [| file files IH]; intros totalSize h.
  - exists totalSize, []. cbn. now rewrite app_nil_r.
  - cbn [sumSizes]. unfold bind at 1, try_catch, bind at 1, fsCall, ret.
    set (c := Stat _ _).
    destruct (filesystem P h c) as [stat | e];
      [destruct (IH (totalSize + StatResult.size stat) (h ++ [Fs c]))
         as (sz' & calls & Hrun & Hstat & Hlen)
      | destruct (IH totalSize (h ++ [Fs c]))
         as (sz' & calls & Hrun & Hstat & Hlen)];
      rewrite Hrun; exists sz', (Fs c :: calls);
      (repeat split; [now rewrite app_snoc | cbn; now rewrite Hstat | cbn; now rewrite Hlen]).
Qed.

(** The scan never rejects, and the count it returns grows by one for
    every [stat] call it makes, whether that call resolves or not. *)
Lemma scanStats_resolves P cats :
  forall totalCount totalSize h,
    exists stats calls,
      scanStats P cats totalCount totalSize h = (Resolved stats, h ++ calls)
      /\ StorageStats.count stats
         = totalCount + Z.of_nat (List.length (filter isStat calls)).
Proof.
  induction cats as [| cat cats IH]; intros totalCount totalSize h.
  - eexists _, []. cbn. rewrite app_nil_r. split; [reflexivity | cbn; lia].
  - cbn [scanStats]. unfold bind at 1, try_catch, bind at 1, fsCall.
    set (c := Readdir _ _).
    destruct (filesystem P h c) as [listing | e].
    + destruct (sumSizes_resolves P cat (ReaddirResult.files listing)
                  totalSize (h ++ [Fs c])) as (sz' & calls & Hrun & Hstat & Hlen).
      unfold bind at 1. rewrite Hrun. cbn [ret fst snd].
      destruct (IH (totalCount
                    + Z.of_nat (List.length (ReaddirResult.files listing)))
                  sz' ((h ++ [Fs c]) ++ calls))
        as (stats & calls' & Hrest & Hcount).
      rewrite Hrest. exists stats, (Fs c :: calls ++ calls'). split.
      * now rewrite <- !app_assoc.
      * rewrite Hcount. cbn [filter isStat]. subst c. cbn [isStat].
        rewrite filter_app, length_app, Hstat, Hlen. lia.
    + cbn [ret fst snd].
      destruct (IH totalCount totalSize (h ++ [Fs c]))
        as (stats & calls' & Hrest & Hcount).
      rewrite Hrest. exists stats, (Fs c :: calls'). split.
      * now rewrite app_snoc.
      * rewrite Hcount. reflexivity.
Qed.

(** [getNativeStorageStats] resolves on every host, and its count is the
    number of [stat] calls it made. *)
Theorem getNativeStorageStats_counts_stat_calls P h :
  exists stats,
    result (getNativeStorageStats P) h = Resolved stats
    /\ StorageStats.count stats
       = Z.of_nat (List.length (filter isStat (events (getNativeStorageStats P) h))).
Proof.
  unfold getNativeStorageStats, isSupportedCapacitor.
  destruct (isNativePlatform P); cbn [negb].
  - destruct (scanStats_resolves P categories 0 0 h)
      as (stats & calls & Hrun & Hcount).
    assert (Hrun' : try_catch (scanStats P categories 0 0)
                      (fun error =>
                         hostCall P (ConsoleError
                                       "Failed to get native storage stats:" error);;
                         ret (StorageStats.mk 0 0))%task h
                    = (Resolved stats, h ++ calls))
      by (unfold try_catch; now rewrite Hrun).
    destruct (events_of _ _ _ _ Hrun') as [Hres Hev].
    exists stats. rewrite Hres, Hev. split; [reflexivity | exact Hcount].
  - exists (StorageStats.mk 0 0). split; [reflexivity |].
    unfold events, log, ret. cbn [snd]. now rewrite skipn_all.
Qed.

End Scan.

(** C4, at a storage tree of K = 2 entries one of whose [stat] calls fails
    ([videos] lists [a.mp4] of 10 bytes and [b.mp4], gone when stat-ed; the
    three other category directories are missing).  No error propagates,
    the missing directories contribute nothing, and the size is the 10
    bytes of the other entry; but the count is 2, not K - 1 = 1: the failed
    entry is counted.  [getNativeStorageFiles], on the same tree, returns
    the one entry. *)
Theorem stats_count_keeps_failed_entry :
  getNativeStorageStats Examples.androidOneGone []
  = (Resolved (StorageStats.mk 2 10),
     [Fs (Readdir "aurora-files/videos" Directory.Data);
      Fs (Stat "aurora-files/videos/a.mp4" Directory.Data);
      Fs (Stat "aurora-files/videos/b.mp4" Directory.Data);
      Fs (Readdir "aurora-files/audio" Directory.Data);
      Fs (Readdir "aurora-files/images" Directory.Data);
      Fs (Readdir "aurora-files/documents" Directory.Data)])
  /\ result (getNativeStorageFiles Examples.androidOneGone) []
     = Resolved [StorageEntry.mk "a.mp4" "aurora-files/videos/a.mp4" "videos" 10].
Proof. split; reflexivity. Qed.

(** ** Generated names *)

Module Naming.

Lemma length_append s t :
  String.length (s ++ t)%string = (String.length s + String.length t)%nat.
Proof. induction s as [| c s IH]; cbn; [reflexivity | now rewrite IH]. Qed.

Lemma digit_char_isDigit d : 0 <= d < 10 -> isDigit (JS.digit_char d) = true.
Proof.
  intros Hd.
  assert (Hcases : d = 0 \/ d = 1 \/ d = 2 \/ d = 3 \/ d = 4 \/ d = 5
                   \/ d = 6 \/ d = 7 \/ d = 8 \/ d = 9) by lia.
  repeat (destruct Hcases as [-> | Hcases]; [reflexivity |]).
  now subst d.
Qed.

(** A number of [k + 1] decimal digits prints as [k + 1] digit characters,
    given fuel for [k] divisions. *)
Lemma digits_spec k :
  forall fuel n acc,
    10 ^ Z.of_nat k <= n < 10 ^ Z.of_nat (S k) -> (k <= fuel)%nat ->
    String.length (JS.digits fuel n acc) = (S k + String.length acc)%nat
    /\ (allChars isDigit acc = true ->
        allChars isDigit (JS.digits fuel n acc) = true).
Proof.
  induction k as [| k IH]; intros fuel n acc Hn Hfuel.
  - change (10 ^ Z.of_nat 0) with 1 in Hn. change (10 ^ Z.of_nat 1) with 10 in Hn.
    assert (Hone : JS.digits fuel n acc = String (JS.digit_char (n mod 10)) acc).
    { destruct fuel; cbn [JS.digits]; [reflexivity |].
      destruct (Z.ltb_spec n 10); [reflexivity | lia]. }
    rewrite Hone. split; [reflexivity |].
    intros Hacc. cbn [allChars]. rewrite Hacc, digit_char_isDigit; [reflexivity |].
    apply Z.mod_pos_bound. lia.
  - destruct fuel as [| fuel]; [lia |].
    rewrite !Nat2Z.inj_succ, !Z.pow_succ_r in Hn by lia.
    assert (Hpow : 0 < 10 ^ Z.of_nat k) by (apply Z.pow_pos_nonneg; lia).
    cbn [JS.digits]. destruct (Z.ltb_spec n 10); [lia |].
    destruct (IH fuel (n / 10) (String (JS.digit_char (n mod 10)) acc))
      as [Hlen Hall].
    + rewrite Nat2Z.inj_succ, Z.pow_succ_r by lia. split.
      * apply Z.div_le_lower_bound; lia.
      * apply Z.div_lt_upper_bound; lia.
    + lia.
    + split.
      * rewrite Hlen. cbn [String.length]. lia.
      * intros Hacc. apply Hall. cbn [allChars].
        rewrite Hacc, digit_char_isDigit; [reflexivity |].
        apply Z.mod_pos_bound. lia.
Qed.

(** A clock reading of thirteen digits prints as thirteen digits. *)
Lemma timestamp_13_digits t :
  10 ^ 12 <= t < 10 ^ 13 ->
  String.length (JS.string_of_number t) = 13%nat
  /\ allChars isDigit (JS.string_of_number t) = true.
Proof.
  intros Ht. unfold JS.string_of_number.
  destruct (Z.ltb_spec t 0); [lia |].
  assert (Hlog : 39 <= Z.log2 t).
  { change 39 with (Z.log2 (10 ^ 12)). apply Z.log2_le_mono. lia. }
  destruct (digits_spec 12 (Z.to_nat (Z.log2 t)) t "") as [Hlen Hall].
  - exact Ht.
  - lia.
  - split; [exact Hlen | now apply Hall].
Qed.

Lemma substring_length m :
  forall s, (m <= String.length s)%nat ->
            String.length (String.substring 0 m s) = m.
Proof.
  induction m as [| m IH]; intros [| c s] Hlen; cbn in *;
    try reflexivity; try lia.
  rewrite IH; [reflexivity | lia].
Qed.

Lemma substring_length_min m :
  forall s, String.length (String.substring 0 m s) = Nat.min m (String.length s).
Proof.
  induction m as [| m IH]; intros [| c s]; cbn; try reflexivity.
  now rewrite IH.
Qed.

Lemma substring_allChars p m :
  forall s, allChars p s = true -> allChars p (String.substring 0 m s) = true.
Proof.
  induction m as [| m IH]; intros [| c s] Hs; cbn in *; try reflexivity.
  apply andb_prop in Hs as [Hc Hs]. now rewrite Hc, IH.
Qed.

(** The six characters kept from a draw that prints with six or more
    base-36 digits after the point. *)
Lemma random_6_chars digits36 :
  (6 <= String.length digits36)%nat -> allChars isBase36 digits36 = true ->
  String.length (JS.substring 2 8 ("0." ++ digits36)) = 6%nat
  /\ allChars isBase36 (JS.substring 2 8 ("0." ++ digits36)) = true.
Proof.
  intros Hlen Hall.
  change (JS.substring 2 8 ("0." ++ digits36))
    with (String.substring 0 6 digits36).
  split; [now apply substring_length | now apply substring_allChars].
Qed.

(** What [split('.').pop()] returns: the text after the last dot, and the
    whole name when there is no dot. *)
Lemma split_shape s :
  match afterLastDot s with
  | None => JS.split "." s = [s]
  | Some e =>
      exists w w' ws, JS.split "." s = w :: w' :: ws /\ JS.pop (w' :: ws) = Some e
  end.
Proof.
  induction s as [| c s IH]; [reflexivity |].
  cbn [afterLastDot JS.split].
  destruct (afterLastDot s) as [e |].
  - destruct IH as (w & w' & ws & Hsplit & Hpop). rewrite Hsplit.
    destruct (Ascii.eqb c ".").
    + exists EmptyString, w, (w' :: ws). split; [reflexivity |].
      cbn [JS.pop]. exact Hpop.
    + exists (String c w), w', ws. split; [reflexivity | exact Hpop].
  - rewrite IH. destruct (Ascii.eqb c ".").
    + exists EmptyString, s, []. split; reflexivity.
    + reflexivity.
Qed.

Lemma pop_split s :
  JS.pop (JS.split "." s)
  = Some (match afterLastDot s with Some e => e | None => s end).
Proof.
  pose proof (split_shape s) as H.
  destruct (afterLastDot s) as [e |].
  - destruct H as (w & w' & ws & -> & Hpop). exact Hpop.
  - now rewrite H.
Qed.

Lemma generatedFilename_eq P originalName h :
  generatedFilename P originalName h
  = (JS.string_of_number (host P h DateNow) ++ "_"
     ++ JS.substring 2 8 (host P (h ++ [Host DateNow])%list MathRandomToString36)
     ++ "."
     ++ match JS.pop (JS.split "." originalName) with
        | Some e => if String.eqb e "" then "bin" else e
        | None => "bin"
        end)%string.
Proof. reflexivity. Qed.

(** For a name with a dot, the extension is the one the specification
    gives. *)
Lemma extension_with_dot originalName :
  afterLastDot originalName <> None ->
  match JS.pop (JS.split "." originalName) with
  | Some e => if String.eqb e "" then "bin"%string else e
  | None => "bin"%string
  end = specExtension originalName.
Proof.
  intros Hdot. rewrite pop_split. unfold specExtension.
  destruct (afterLastDot originalName) as [[| c e] |]; [| | congruence];
    reflexivity.
Qed.

(** For a non-empty name without a dot, the extension is the whole name. *)
Lemma extension_without_dot P originalName h :
  afterLastDot originalName = None -> originalName <> ""%string ->
  generatedFilename P originalName h
  = (JS.string_of_number (host P h DateNow) ++ "_"
     ++ JS.substring 2 8 (host P (h ++ [Host DateNow])%list MathRandomToString36)
     ++ "." ++ originalName)%string.
Proof.
  intros Hdot Hne. rewrite generatedFilename_eq, pop_split, Hdot.
  apply String.eqb_neq in Hne. now rewrite Hne.
Qed.

(** [README], which has no extension, is stored with the extension
    [README], not [bin]. *)
Example dotless_name_keeps_whole_name :
  destinationPath Examples.android Examples.readme []
  = "aurora-files/documents/1700000000000_k3j2h1.README"%string
  /\ specExtension "README" = "bin"%string.
Proof. split; reflexivity. Qed.

Lemma getCategory_in mimeType : In (getCategory mimeType) categories.
Proof.
  unfold getCategory, categories.
  destruct (JS.startsWith mimeType "video/"); [now left |].
  destruct (JS.startsWith mimeType "audio/"); [now right; left |].
  destruct (JS.startsWith mimeType "image/"); [now right; right; left |].
  now right; right; right; left.
Qed.

End Naming.

(** ** The destination of a native save *)

Module Destination.

Lemma fsCalls_app t u : fsCalls (t ++ u) = fsCalls t ++ fsCalls u.
Proof.
  induction t as [| [c | c] t IH]; cbn; [reflexivity | exact IH | now rewrite IH].
Qed.

Lemma chunkEvents_target file path n :
  forall i k,
    Forall (fun c => target c = path)
      (fsCalls (firstn k (chunkEvents file path i n))).
Proof.
  induction n as [| n IH]; intros i k; [rewrite firstn_nil; constructor |].
  destruct k as [| [| k]]; cbn [chunkEvents firstn fsCalls yield].
  - constructor.
  - constructor; [now destruct i | constructor].
  - constructor; [now destruct i | apply IH].
Qed.

(** Every filesystem call of a native save is aimed at the destination
    path. *)
Lemma saveFile_targets P file h :
  isNativePlatform P = true ->
  Forall (fun c => target c = destinationPath P file h)
    (fsCalls (events (saveFile P file) h)).
Proof.
  intros Hn. destruct (hasSourceLocator file) eqn:Hloc.
  - destruct (Save.hasSourceLocator_true file Hloc) as (src & Hsrc & Hne).
    destruct (Save.saveFile_copy_log P file h src Hn Hsrc Hne)
      as (tail & Hlog & _ & Htail).
    rewrite (events_of_log _ _ _ Hlog). cbn [fsCalls].
    constructor; [reflexivity | exact Htail].
  - destruct (Save.saveFile_chunked_log P file h Hn Hloc) as (tail & Hlog & Htail).
    cbv zeta in Hlog, Htail.
    set (path := destinationPath P file h) in *.
    set (warned := h ++ _) in *.
    destruct (Chunked.saveFileChunked_prefix P file path warned) as (k & Hk & _).
    rewrite (events_of_log _ _ _ Hk) in Hlog.
    subst warned. rewrite <- app_assoc in Hlog.
    rewrite (events_of_log _ _ _ Hlog).
    cbn [app fsCalls]. rewrite fsCalls_app. apply Forall_app. split.
    + apply chunkEvents_target.
    + destruct (result (saveFileChunked P file path) _).
      * now destruct Htail as (_ & _ & Ht).
      * subst tail. constructor.
Qed.

(** A native save that resolves ends with [getUri] on the destination
    path. *)
Lemma saveFile_resolved_ends P file h ref :
  isNativePlatform P = true ->
  result (saveFile P file) h = Resolved ref ->
  exists before,
    events (saveFile P file) h
    = before ++ [Fs (GetUri (destinationPath P file h) Directory.Data)].
Proof.
  intros Hn. unfold result.
  set (path := destinationPath P file h).
  assert (Hend : forall h' before,
            h' = h ++ before ->
            fst (resolveUri P file path h') = Resolved ref ->
            exists before',
              snd (resolveUri P file path h')
              = h ++ before' ++ [Fs (GetUri path Directory.Data)]).
  { intros h' before -> . rewrite Save.resolveUri_run.
    destruct (filesystem P _ (GetUri path Directory.Data)); [| discriminate].
    intros _. exists before. cbn [snd]. now rewrite app_assoc. }
  assert (Hgoal : fst (saveFile P file h) = Resolved ref ->
                  exists before,
                    log (saveFile P file) h
                    = h ++ before ++ [Fs (GetUri path Directory.Data)]).
  { unfold log. rewrite (Save.saveFile_native P file h Hn). fold path.
    destruct (hasSourceLocator file) eqn:Hloc.
    - destruct (Save.hasSourceLocator_true file Hloc) as (src & Hsrc & Hne).
      rewrite (Save.store_copy P file _ _ src Hsrc Hne).
      destruct (filesystem P _ (firstCopy src path));
        [| destruct (filesystem P _ (retryCopy src path)); [| discriminate]];
        eapply Hend; now rewrite <- app_assoc.
    - rewrite (Save.store_chunked P file _ _ Hloc).
      destruct (Chunked.saveFileChunked_prefix P file path
                  ((h ++ [Host DateNow; Host MathRandomToString36])
                   ++ [Host (ConsoleWarn
                         "No native path found. Using memory-safe chunked write.")]))
        as (k & Hk & _).
      unfold log in Hk.
      destruct (saveFileChunked P file path _) as [[u | e] h'];
        [| discriminate].
      cbn [snd] in Hk. eapply Hend. rewrite Hk. now rewrite <- !app_assoc. }
  intros Hres. destruct (Hgoal Hres) as (before & Hlog).
  exists before. now apply events_of_log.
Qed.

End Destination.

(** C5, amended.  For every native save that resolves, every filesystem
    call is aimed at one destination path and the last one is [getUri] on
    it.  That path is [aurora-files/<category>/<filename>]: the category
    is videos, audio, images or documents, derived from the MIME-type
    prefix, and the filename is the decimal clock reading, an underscore,
    characters 2 to 8 of the base-36 text of the random draw, a dot and an
    extension.  The timestamp has thirteen digits when the clock reads
    between 10^12 and 10^13.  When the draw prints as [0.] followed by
    base-36 digits, the random part is made of the first six of them, and
    of all of them when there are fewer than six.  For an original name
    that contains a dot the extension is the text after its last dot, or
    [bin] when that text is empty.  When the clock reads thirteen digits,
    the draw prints at least six digits and the name contains a dot, the
    path has the shape of the specification.  The category is videos,
    audio or images for a type that starts with [video/], [audio/] or
    [image/], and documents for any other. *)
Theorem native_path_shape P file h ref :
  isNativePlatform P = true ->
  result (saveFile P file) h = Resolved ref ->
  let path := destinationPath P file h in
  let clock := host P h DateNow in
  let draw := host P (h ++ [Host DateNow]) MathRandomToString36 in
  let timestamp := JS.string_of_number clock in
  let random := JS.substring 2 8 draw in
  (Forall (fun c => target c = path) (fsCalls (events (saveFile P file) h))
   /\ exists before,
        events (saveFile P file) h = before ++ [Fs (GetUri path Directory.Data)])
  /\ (exists ext,
        path = ("aurora-files/" ++ getCategory (File.type file) ++ "/"
                ++ timestamp ++ "_" ++ random ++ "." ++ ext)%string
        /\ In (getCategory (File.type file)) categories
        /\ (afterLastDot (File.name file) <> None ->
            ext = specExtension (File.name file)))
  /\ (10 ^ 12 <= clock < 10 ^ 13 ->
      String.length timestamp = 13%nat /\ allChars isDigit timestamp = true)
  /\ (forall digits36,
        draw = ("0." ++ digits36)%string -> allChars isBase36 digits36 = true ->
        random = String.substring 0 6 digits36
        /\ String.length random = Nat.min 6 (String.length digits36)
        /\ allChars isBase36 random = true)
  /\ (10 ^ 12 <= clock < 10 ^ 13 ->
      (exists digits36,
          draw = ("0." ++ digits36)%string
          /\ (6 <= String.length digits36)%nat
          /\ allChars isBase36 digits36 = true) ->
      afterLastDot (File.name file) <> None ->
      pathShape (File.name file) (File.type file) path)
  /\ (forall rest,
        (File.type file = "video/" ++ rest ->
         getCategory (File.type file) = "videos")
        /\ (File.type file = "audio/" ++ rest ->
            getCategory (File.type file) = "audio")
        /\ (File.type file = "image/" ++ rest ->
            getCategory (File.type file) = "images"))%string
  /\ (JS.startsWith (File.type file) "video/" = false ->
      JS.startsWith (File.type file) "audio/" = false ->
      JS.startsWith (File.type file) "image/" = false ->
      getCategory (File.type file) = "documents"%string).
Proof.
  intros Hn Hres path clock draw timestamp random.
  split; [| split; [| split; [| split; [| split; [| split]]]]].
  6:{ intros rest. repeat split; intros ->; now destruct rest. }
  6:{ unfold getCategory. now intros -> -> ->. }
  - split; [now apply Destination.saveFile_targets
           | now apply (Destination.saveFile_resolved_ends P file h ref)].
  - eexists. split; [| split; [apply Naming.getCategory_in |]].
    + subst path. unfold destinationPath.
      rewrite Naming.generatedFilename_eq. reflexivity.
    + intros Hdot. now apply Naming.extension_with_dot.
  - apply Naming.timestamp_13_digits.
  - intros digits36 Hdraw Hall. subst random. rewrite Hdraw.
    change (JS.substring 2 8 ("0." ++ digits36))
      with (String.substring 0 6 digits36).
    split; [reflexivity |].
    split; [apply Naming.substring_length_min | now apply Naming.substring_allChars].
  - intros Hclock (digits36 & Hdraw & Hlen & Hall) Hdot.
    destruct (Naming.timestamp_13_digits _ Hclock) as [Hts Htsd].
    destruct (Naming.random_6_chars digits36 Hlen Hall) as [Hr Hrd].
    exists timestamp, (JS.substring 2 8 ("0." ++ digits36)).
    repeat split; try assumption; [| apply Naming.getCategory_in].
    subst path timestamp. unfold destinationPath.
    rewrite Naming.generatedFilename_eq. fold clock draw. rewrite Hdraw.
    now rewrite (Naming.extension_with_dot _ Hdot).
Qed.

(** A draw of six digits or more gives the shape of the specification; the
    draw 0.5, which prints as [0.i], gives a random part of one
    character. *)
Lemma native_path_shape_witness :
  pathShape "clip.mp4" "video/mp4" "aurora-files/videos/1700000000000_k3j2h1.mp4"
  /\ String.length
       (JS.substring 2 8
          (host Examples.androidShortDraw [Host DateNow] MathRandomToString36))
     = 1%nat.
Proof.
  split.
  - refine (proj1 (proj2 (proj2 (proj2 (proj2
              (native_path_shape Examples.android Examples.clip []
                 {| uri := "file:///data/user/0/app/files/aurora-files/videos/1700000000000_k3j2h1.mp4";
                    size := 4; mimeType := "video/mp4" |}
                 _ _))))) _ _ _).
    + reflexivity.
    + reflexivity.
    + unfold Examples.android, Examples.hostWith, Examples.clock. cbn. lia.
    + exists "k3j2h1g9x8"%string.
      split; [reflexivity | split; [cbn; lia | reflexivity]].
    + discriminate.
  - refine (proj1 (proj2 (proj1 (proj2 (proj2 (proj2
              (native_path_shape Examples.androidShortDraw Examples.clip []
                 {| uri := "file:///data/user/0/app/files/aurora-files/videos/1700000000000_i.mp4";
                    size := 4; mimeType := "video/mp4" |}
                 _ _)))) "i"%string _ _))).
    + reflexivity.
    + reflexivity.
    + reflexivity.
    + reflexivity.
Defined.

(** C5 as stated fails.  [Math.random()] may return 0.5, which prints as
    [0.i] in base 36; the name generated for [clip.mp4] is then
    [1700000000000_i.mp4], with one random character instead of six, and
    the save resolves at a path that has not the stated shape. *)
Lemma path_shape_counterexample :
  isNativePlatform Examples.androidShortDraw = true
  /\ saveFile Examples.androidShortDraw Examples.clip []
     = (Resolved {| uri := "file:///data/user/0/app/files/aurora-files/videos/1700000000000_i.mp4";
                    size := 4; mimeType := "video/mp4" |},
        [Host DateNow; Host MathRandomToString36;
         Host (ConsoleWarn "No native path found. Using memory-safe chunked write.");
         Fs (WriteFile "aurora-files/videos/1700000000000_i.mp4"
               (Some "TWFuAA=="%string) Directory.Data true);
         Host (SetTimeout 0);
         Fs (GetUri "aurora-files/videos/1700000000000_i.mp4" Directory.Data)])
  /\ ~ pathShape "clip.mp4" "video/mp4" "aurora-files/videos/1700000000000_i.mp4".
Proof.
  split; [reflexivity | split; [reflexivity |]].
  intros (timestamp & random & Hpath & _ & Hts & _ & Hr & _).
  apply (f_equal String.length) in Hpath.
  change (getCategory "video/mp4") with "videos"%string in Hpath.
  change (specExtension "clip.mp4") with "mp4"%string in Hpath.
  rewrite !Naming.length_append, Hts, Hr in Hpath.
  cbn in Hpath. lia.
Qed.

(** * Further properties of the service *)

(** X1. Whenever [saveFile] resolves, on any host and in either mode, the
    reference carries the file's size and MIME type.  In native mode its
    URI is the one [getUri] answered in the last call of the save, on the
    destination path; in non-native mode it is the object URL the browser
    made. *)
Theorem saveFile_result_metadata P file h ref :
  result (saveFile P file) h = Resolved ref ->
  size ref = File.size file
  /\ mimeType ref = File.type file
  /\ if isNativePlatform P then
       exists before r,
         events (saveFile P file) h
         = before ++ [Fs (GetUri (destinationPath P file h) Directory.Data)]
         /\ filesystem P (h ++ before)
              (GetUri (destinationPath P file h) Directory.Data) = Resolved r
         /\ uri ref = GetUriResult.uri r
     else uri ref = host P h (CreateObjectURL file).
Proof.
  intros Hres. destruct (isNativePlatform P) eqn:Hn.
  - destruct (SaveRun.saveFile_native_run P file h Hn) as (work & _ & Hend).
    unfold result in Hres.
    inversion Hend as [e Hrun | r Hr Hrun | e Hr Hrun];
      rewrite <- Hrun in Hres; cbn [fst] in Hres; try discriminate.
    injection Hres as <-. repeat split.
    exists work, r. repeat split; [| exact Hr].
    apply events_of_log. unfold log. now rewrite <- Hrun.
  - destruct (events_of _ _ _ _ (Save.saveFile_browser P file h Hn)) as [Hr _].
    rewrite Hr in Hres. injection Hres as <-. repeat split.
Qed.

Lemma saveFile_result_metadata_witness :
  size {| uri := "file:///data/user/0/app/files/aurora-files/videos/1700000000000_k3j2h1.mp4";
          size := 4; mimeType := "video/mp4" |} = File.size Examples.clip.
Proof.
  refine (proj1 (saveFile_result_metadata Examples.android Examples.clip [] _ _)).
  reflexivity.
Defined.

(** X2. A save that fails says so: when [saveFile] rejects, the platform is
    native and the last call is [console.error] with the very error that is
    rethrown, the only [console.error] of the save; when it resolves, no
    [console.error] was called. *)
Theorem saveFile_failure_logged P file h :
  match result (saveFile P file) h with
  | Rejected e =>
      isNativePlatform P = true
      /\ exists before,
           events (saveFile P file) h
           = before
             ++ [Host (ConsoleError "Failed to save file to native storage:" e)]
           /\ filter isConsoleError before = []
  | Resolved _ => filter isConsoleError (events (saveFile P file) h) = []
  end.
Proof.
  destruct (isNativePlatform P) eqn:Hn.
  - destruct (SaveRun.saveFile_native_run P file h Hn) as (work & Hwork & Hend).
    pose proof (SaveFacts.isWork_no_error work Hwork) as Hquiet.
    unfold result, events, log.
    inversion Hend as [e Hrun | r Hr Hrun | e Hr Hrun]; cbn [fst snd];
      rewrite skipn_app, skipn_all, Nat.sub_diag; cbn [skipn app].
    + split; [reflexivity |]. now exists work.
    + rewrite filter_app, Hquiet. reflexivity.
    + split; [reflexivity |].
      exists (work ++ [Fs (GetUri (destinationPath P file h) Directory.Data)]).
      split; [now rewrite <- app_assoc |].
      rewrite filter_app, Hquiet. reflexivity.
  - destruct (events_of _ _ _ _ (Save.saveFile_browser P file h Hn)) as [-> ->].
    reflexivity.
Qed.

(** X3. [saveFile] only ever reads the clock and the random source, makes
    an object URL, warns, logs an error, yields, copies, writes, appends
    and resolves a URI.  It never deletes, lists or stats: after a failed
    save nothing is cleaned up. *)
Theorem saveFile_only_save_calls P file h :
  forallb isSaveCall (events (saveFile P file) h) = true.
Proof.
  destruct (isNativePlatform P) eqn:Hn.
  - destruct (SaveRun.saveFile_native_run P file h Hn) as (work & Hwork & Hend).
    pose proof (SaveFacts.isWork_isSaveCall work Hwork) as Hsave.
    unfold events, log.
    inversion Hend as [e Hrun | r Hr Hrun | e Hr Hrun]; cbn [snd];
      rewrite skipn_app, skipn_all, Nat.sub_diag; cbn [skipn app];
      rewrite forallb_app, Hsave; reflexivity.
  - destruct (events_of _ _ _ _ (Save.saveFile_browser P file h Hn)) as [_ ->].
    reflexivity.
Qed.

(** X4. With a source locator the native save never looks at the content
    of the file: the same file with any other bytes makes the same calls. *)
Theorem native_copy_ignores_content P file h bytes :
  isNativePlatform P = true ->
  hasSourceLocator file = true ->
  log (saveFile P (withBytes file bytes)) h = log (saveFile P file) h.
Proof.
  intros Hn Hloc.
  destruct (Save.hasSourceLocator_true file Hloc) as (src & Hsrc & Hne).
  unfold log.
  rewrite (Save.saveFile_native P file h Hn),
    (Save.saveFile_native P (withBytes file bytes) h Hn).
  change (destinationPath P (withBytes file bytes) h)
    with (destinationPath P file h).
  rewrite (Save.store_copy P file _ _ src Hsrc Hne),
    (Save.store_copy P (withBytes file bytes) _ _ src Hsrc Hne).
  destruct (filesystem P _ (firstCopy src _));
    [| destruct (filesystem P _ (retryCopy src _)); [| reflexivity]];
    rewrite !Save.resolveUri_run;
    destruct (filesystem P _ (GetUri _ _)); reflexivity.
Qed.

Lemma native_copy_ignores_content_witness :
  log (saveFile Examples.android (withBytes Examples.pickedClip [])) []
  = log (saveFile Examples.android Examples.pickedClip) [].
Proof.
  apply native_copy_ignores_content; reflexivity.
Defined.

(** X5. With a source locator, when the first copy and [getUri] resolve,
    the whole save is the clock, the random draw, one copy from the locator
    (the [path] property when it is a non-empty string, else [webPath]) to
    the destination path, and [getUri]: one copy, no chunk write. *)
Theorem native_copy_single_call P file h src r :
  isNativePlatform P = true ->
  sourceUri file = Some src -> src <> ""%string ->
  let path := destinationPath P file h in
  let started := h ++ [Host DateNow; Host MathRandomToString36] in
  (exists u, filesystem P started (firstCopy src path) = Resolved u) ->
  filesystem P (started ++ [Fs (firstCopy src path)])
    (GetUri path Directory.Data) = Resolved r ->
  saveFile P file h
  = (Resolved {| uri := GetUriResult.uri r; size := File.size file;
                 mimeType := File.type file |},
     h ++ [Host DateNow; Host MathRandomToString36;
           Fs (Copy src path (Some Directory.External) (Some Directory.Data));
           Fs (GetUri path Directory.Data)])
  /\ (forall p, File.path file = Some p -> p <> ""%string -> src = p).
Proof.
  intros Hn Hsrc Hne path started (u & Hcopy) Huri. split.
  - rewrite (Save.saveFile_native P file h Hn),
      (Save.store_copy P file _ _ src Hsrc Hne).
    fold path started. rewrite Hcopy, Save.resolveUri_run, Huri.
    subst started. now rewrite <- !app_assoc.
  - intros p Hp Hpne. unfold sourceUri, JS.or, JS.truthy in Hsrc.
    rewrite Hp in Hsrc. apply String.eqb_neq in Hpne. rewrite Hpne in Hsrc.
    cbn in Hsrc. congruence.
Qed.

Lemma native_copy_single_call_witness :
  saveFile Examples.android Examples.pickedClip []
  = (Resolved {| uri := "file:///data/user/0/app/files/aurora-files/videos/1700000000000_k3j2h1.mp4";
                 size := 4; mimeType := "video/mp4" |},
     [Host DateNow; Host MathRandomToString36;
      Fs (Copy "content://media/external/video/12"
            "aurora-files/videos/1700000000000_k3j2h1.mp4"
            (Some Directory.External) (Some Directory.Data));
      Fs (GetUri "aurora-files/videos/1700000000000_k3j2h1.mp4" Directory.Data)]).
Proof.
  refine (proj1 (native_copy_single_call Examples.android Examples.pickedClip []
                   "content://media/external/video/12"
                   (GetUriResult.mk "file:///data/user/0/app/files/aurora-files/videos/1700000000000_k3j2h1.mp4")
                   _ _ _ _ _)).
  - reflexivity.
  - reflexivity.
  - discriminate.
  - now exists tt.
  - reflexivity.
Defined.

(** ** Chunk writes that fail, and what a chunk carries *)

Module ChunkFacts.

(** A rejected chunked write stopped at some chunk [j], after the chunks
    before it were written: either the read of chunk [j] failed, or its
    write was rejected. *)
Lemma chunkSteps_rejected P file path :
  forall n i h e,
    result (chunkSteps P n file path (Z.of_nat i * chunkSize) (Nat.eqb i 0)) h
    = Rejected e ->
    exists j,
      (j < n)%nat
      /\ match readError P (h ++ chunkEvents file path i j)
                 (chunkBlob file (i + j)) with
         | Some e' =>
             e' = e
             /\ log (chunkSteps P n file path (Z.of_nat i * chunkSize)
                       (Nat.eqb i 0)) h
                = h ++ chunkEvents file path i j
         | None =>
             log (chunkSteps P n file path (Z.of_nat i * chunkSize)
                    (Nat.eqb i 0)) h
             = h ++ chunkEvents file path i j ++ [Fs (chunkCall file path (i + j))]
             /\ filesystem P (h ++ chunkEvents file path i j)
                  (chunkCall file path (i + j)) = Rejected e
         end.
Proof.
  unfold result, log.
  induction n as [| n IH]; intros i h e; [discriminate |].
  cbn [chunkSteps]. unfold bind.
  rewrite Chunked.chunkStep_data.
  destruct (readError P h (chunkBlob file i)) as [e0 |] eqn:Hread.
  { cbn [fst snd]. intros [= <-]. exists 0%nat.
    rewrite Nat.add_0_r. cbn [chunkEvents]. rewrite app_nil_r, Hread.
    split; [lia | split; reflexivity]. }
  unfold bind, fsCall, hostCall.
  rewrite Chunked.next_offset.
  destruct (filesystem P h (chunkCall file path i)) as [u | e0] eqn:Hw.
  - intros Hres.
    destruct (IH (S i) _ e Hres) as (j & Hj & Hcase).
    exists (S j). split; [lia |].
    replace (i + S j)%nat with (S i + j)%nat by lia.
    cbn [chunkEvents app].
    replace (h ++ Fs (chunkCall file path i) :: yield
               :: chunkEvents file path (S i) j)
      with (((h ++ [Fs (chunkCall file path i)]) ++ [Host (SetTimeout 0)])
            ++ chunkEvents file path (S i) j)
      by now rewrite !app_snoc.
    cbn [Nat.eqb] in Hcase.
    destruct (readError P _ (chunkBlob file (S i + j))) as [e' |].
    + exact Hcase.
    + destruct Hcase as [Hlog Hrej]. split; [| exact Hrej].
      rewrite Hlog. now rewrite !app_snoc.
  - cbn [fst snd]. intros [= <-]. exists 0%nat.
    rewrite Nat.add_0_r. cbn [chunkEvents app]. rewrite app_nil_r, Hread.
    split; [lia | split; [reflexivity | exact Hw]].
Qed.

Lemma chunkWrites_app t u : chunkWrites (t ++ u) = chunkWrites t ++ chunkWrites u.
Proof. unfold chunkWrites. now rewrite filter_app, Destination.fsCalls_app. Qed.

Lemma chunkBytes_length file i :
  Z.of_nat (List.length (chunkBytes file i)) <= chunkSize.
Proof.
  unfold chunkBytes. rewrite length_firstn.
  pose proof Chunked.chunkSize_pos. lia.
Qed.

Lemma chunkWrites_prefix (Q : FsCall -> Prop) file path :
  (forall i, Q (chunkCall file path i)) ->
  forall n i k, Forall Q (chunkWrites (firstn k (chunkEvents file path i n))).
Proof.
  intros HQ. unfold chunkWrites.
  induction n as [| n IH]; intros i k; [rewrite firstn_nil; constructor |].
  destruct k as [| [| k]]; cbn [chunkEvents firstn filter];
    rewrite ?Chunked.isChunkWrite_chunkCall; cbn [yield isChunkWrite fsCalls filter].
  - constructor.
  - constructor; [apply HQ | constructor].
  - constructor; [apply HQ | apply IH].
Qed.

End ChunkFacts.

(** X6. When [saveFileChunked] rejects, [j] chunks had been written and
    acknowledged, each followed by its yield, and then either the read of
    chunk [j] failed, the error being the reader's and nothing being called
    after the last yield, or chunk [j] was read and its write was rejected
    with that error, that write being the last call.  No yield, no further
    chunk and no cleanup follow. *)
Theorem chunk_failure_aborts P file path h e :
  result (saveFileChunked P file path) h = Rejected e ->
  exists j,
    (j < chunkCount (File.size file))%nat
    /\ let written := chunkEvents file path 0 j in
       match readError P (h ++ written) (chunkBlob file j) with
       | Some e' =>
           e' = e /\ events (saveFileChunked P file path) h = written
       | None =>
           events (saveFileChunked P file path) h
           = written ++ [Fs (chunkCall file path j)]
           /\ filesystem P (h ++ written) (chunkCall file path j) = Rejected e
       end.
Proof.
  unfold saveFileChunked, result, events, log.
  rewrite (Chunked.loop_unroll P file path (chunkCount (File.size file)))
    by (f_equal; lia).
  intros Hres.
  destruct (ChunkFacts.chunkSteps_rejected P file path _ 0%nat h e Hres)
    as (j & Hj & Hcase).
  exists j. unfold log in Hcase. cbn [Nat.add Nat.eqb] in Hcase.
  change (Z.of_nat 0 * chunkSize) with 0 in Hcase.
  split; [exact Hj |]. cbv zeta.
  destruct (readError P _ (chunkBlob file j)) as [e' |].
  - destruct Hcase as [He Hlog]. split; [exact He |].
    rewrite Hlog. now rewrite skipn_app, skipn_all, Nat.sub_diag.
  - destruct Hcase as [Hlog Hrej]. split; [| exact Hrej].
    rewrite Hlog. now rewrite skipn_app, skipn_all, Nat.sub_diag.
Qed.

(** A filesystem that rejects every call: the first chunk is read, its
    create is rejected, and that is the only call. *)
Lemma chunk_failure_aborts_witness :
  exists j,
    (j < chunkCount (File.size Examples.clip))%nat
    /\ let written := chunkEvents Examples.clip "aurora-files/videos/c.mp4" 0 j in
       match readError Examples.androidFailing ([] ++ written)
               (chunkBlob Examples.clip j) with
       | Some e' =>
           e' = "rejected"%string
           /\ events (saveFileChunked Examples.androidFailing Examples.clip
                        "aurora-files/videos/c.mp4") []
              = written
       | None =>
           events (saveFileChunked Examples.androidFailing Examples.clip
                     "aurora-files/videos/c.mp4") []
           = written
             ++ [Fs (chunkCall Examples.clip "aurora-files/videos/c.mp4" j)]
           /\ filesystem Examples.androidFailing ([] ++ written)
                (chunkCall Examples.clip "aurora-files/videos/c.mp4" j)
              = Rejected "rejected"%string
       end.
Proof.
  apply (chunk_failure_aborts Examples.androidFailing Examples.clip
           "aurora-files/videos/c.mp4" [] "rejected").
  reflexivity.
Defined.

(** X7. A chunk write never carries more than 1 MiB: on any host, every
    [writeFile] and [appendFile] call of a [saveFile] has a payload that is
    valid Base64 and decodes to at most [chunkSize] bytes. *)
Theorem chunk_payload_bounded P file h :
  Forall (fun c => exists l,
              decoded c = Some l /\ Z.of_nat (List.length l) <= chunkSize)
    (chunkWrites (events (saveFile P file) h)).
Proof.
  assert (Hcall : forall path i,
            exists l, decoded (chunkCall file path i) = Some l
                      /\ Z.of_nat (List.length l) <= chunkSize).
  { intros path i. exists (chunkBytes file i).
    split; [apply Chunked.decoded_chunkCall | apply ChunkFacts.chunkBytes_length]. }
  destruct (isNativePlatform P) eqn:Hn.
  2:{ destruct (events_of _ _ _ _ (Save.saveFile_browser P file h Hn)) as [_ ->].
      constructor. }
  destruct (hasSourceLocator file) eqn:Hloc.
  - destruct (Save.hasSourceLocator_true file Hloc) as (src & Hsrc & Hne).
    destruct (Save.saveFile_copy_log P file h src Hn Hsrc Hne)
      as (tail & Hlog & Hquiet & _).
    rewrite (events_of_log _ _ _ Hlog).
    unfold chunkWrites. cbn [filter isChunkWrite firstCopy].
    fold (chunkWrites tail). rewrite (no_chunk_write_chunkWrites tail Hquiet).
    constructor.
  - destruct (Save.saveFile_chunked_log P file h Hn Hloc) as (tail & Hlog & Htail).
    cbv zeta in Hlog, Htail.
    set (path := destinationPath P file h) in *.
    set (warned := h ++ _) in *.
    destruct (Chunked.saveFileChunked_prefix P file path warned) as (k & Hk & _).
    rewrite (events_of_log _ _ _ Hk) in Hlog.
    subst warned. rewrite <- app_assoc in Hlog.
    rewrite (events_of_log _ _ _ Hlog).
    assert (Ht : chunkWrites tail = []).
    { destruct (result (saveFileChunked P file path) _).
      - destruct Htail as (_ & Hq & _).
        now apply no_chunk_write_chunkWrites, quiet_no_chunk_write.
      - now subst tail. }
    rewrite !ChunkFacts.chunkWrites_app, Ht, app_nil_r. cbn [chunkWrites filter isChunkWrite fsCalls app].
    apply ChunkFacts.chunkWrites_prefix. apply Hcall.
Qed.

(** ** What [deleteFile] deletes *)

Module Delete.

Lemma append_assoc (a b c : string) : ((a ++ b) ++ c = a ++ (b ++ c))%string.
Proof. induction a as [| x a IH]; cbn; [reflexivity | now rewrite IH]. Qed.

Lemma append_nil_r (a : string) : (a ++ "" = a)%string.
Proof. induction a as [| x a IH]; cbn; [reflexivity | now rewrite IH]. Qed.

Lemma match_unfold lit s :
  JS.match_literal_dot_plus lit s
  = match match JS.strip_prefix lit s with
          | Some rest =>
              match JS.dot_star rest with
              | EmptyString => None
              | run => Some (lit ++ run)%string
              end
          | None => None
          end with
    | Some m => Some m
    | None =>
        match s with
        | EmptyString => None
        | String _ rest => JS.match_literal_dot_plus lit rest
        end
    end.
Proof. destruct s; reflexivity. Qed.

Lemma strip_prefix_sound p : forall s r,
  JS.strip_prefix p s = Some r -> s = (p ++ r)%string.
Proof.
  induction p as [| a p IH]; intros s r H; cbn in H.
  - now injection H as ->.
  - destruct s as [| b s]; [discriminate |].
    destruct (Ascii.eqb_spec a b) as [-> |]; [| discriminate].
    cbn. f_equal. now apply IH.
Qed.

Lemma strip_prefix_self p r : JS.strip_prefix p (p ++ r) = Some r.
Proof.
  induction p as [| a p IH]; cbn; [reflexivity |].
  now rewrite Ascii.eqb_refl.
Qed.

Lemma strip_prefix_none_app p : forall s t,
  JS.strip_prefix p s = None -> (String.length p <= String.length s)%nat ->
  JS.strip_prefix p (s ++ t) = None.
Proof.
  induction p as [| a p IH]; intros s t H Hlen; cbn in H; [discriminate |].
  destruct s as [| b s]; [cbn in Hlen; lia |].
  cbn. destruct (Ascii.eqb a b); [| reflexivity].
  apply IH; [exact H | cbn in Hlen; lia].
Qed.

Lemma dot_star_split r :
  exists post, r = (JS.dot_star r ++ post)%string
               /\ singleLine (JS.dot_star r) = true.
Proof.
  induction r as [| c r (post & Hr & Hs)]; [now exists EmptyString |].
  cbn [JS.dot_star]. destruct (JS.is_line_terminator c) eqn:Hc.
  - now exists (String c r).
  - exists post. cbn. rewrite Hc, Hs. split; [now rewrite <- Hr | reflexivity].
Qed.

Lemma dot_star_singleLine r : singleLine r = true -> JS.dot_star r = r.
Proof.
  induction r as [| c r IH]; [reflexivity |].
  cbn. intros H. apply andb_prop in H as [Hc Hr].
  apply negb_true_iff in Hc. now rewrite Hc, IH.
Qed.

Lemma singleLine_app a b :
  singleLine (a ++ b) = singleLine a && singleLine b.
Proof.
  induction a as [| c a IH]; [reflexivity |]. cbn. now rewrite IH, andb_assoc.
Qed.

(** A match is the literal followed by a non-empty run without line
    terminator, and it occurs in the subject. *)
Lemma match_sound lit : forall s m,
  JS.match_literal_dot_plus lit s = Some m ->
  exists pre run post,
    s = (pre ++ lit ++ run ++ post)%string
    /\ m = (lit ++ run)%string
    /\ run <> ""%string /\ singleLine run = true.
Proof.
  induction s as [| c s IH]; intros m; rewrite match_unfold.
  - destruct (JS.strip_prefix lit "") as [rest |] eqn:Hp; [| discriminate].
    apply strip_prefix_sound in Hp.
    destruct lit; [| discriminate]. cbn in Hp. subst rest. discriminate.
  - destruct (JS.strip_prefix lit (String c s)) as [rest |] eqn:Hp.
    + destruct (dot_star_split rest) as (post & Hrest & Hline).
      destruct (JS.dot_star rest) as [| d run] eqn:Hrun.
      * intros H. destruct (IH m H) as (pre & run & post' & -> & Hm & Hne & Hl).
        now exists (String c pre), run, post'.
      * intros [= <-]. apply strip_prefix_sound in Hp.
        exists EmptyString, (String d run), post.
        repeat split; [| discriminate | exact Hline].
        change ("" ++ lit ++ String d run ++ post)%string
          with (lit ++ (String d run ++ post))%string.
        now rewrite <- Hrest.
    + intros H. destruct (IH m H) as (pre & run & post' & -> & Hm & Hne & Hl).
      now exists (String c pre), run, post'.
Qed.

(** When no match starts inside [pre], the match found after [pre] is the
    literal with the rest of its line. *)
Lemma match_after_prefix lit rest :
  JS.dot_star rest <> ""%string ->
  forall pre,
    JS.match_literal_dot_plus lit (pre ++ lit) = None ->
    JS.match_literal_dot_plus lit (pre ++ lit ++ rest)
    = Some (lit ++ JS.dot_star rest)%string.
Proof.
  intros Hrest. induction pre as [| c pre IH].
  - intros _. cbn [append]. rewrite match_unfold, strip_prefix_self.
    destruct (JS.dot_star rest); [congruence | reflexivity].
  - cbn [append]. rewrite (match_unfold lit (String c (pre ++ lit))).
    rewrite (match_unfold lit (String c (pre ++ lit ++ rest))).
    destruct (JS.strip_prefix lit (String c (pre ++ lit))) as [r |] eqn:Hp.
    + pose proof (strip_prefix_sound _ _ _ Hp) as Hs.
      assert (Hext : JS.strip_prefix lit (String c (pre ++ lit ++ rest))
                     = Some (r ++ rest)%string).
      { change (String c (pre ++ lit ++ rest))
          with (String c pre ++ lit ++ rest)%string.
        rewrite <- append_assoc.
        change (String c pre ++ lit)%string with (String c (pre ++ lit)).
        rewrite Hs, append_assoc. apply strip_prefix_self. }
      rewrite Hext.
      assert (Hr : r <> ""%string).
      { intros ->. rewrite append_nil_r in Hs.
        apply (f_equal String.length) in Hs. cbn in Hs.
        rewrite Naming.length_append in Hs. lia. }
      destruct r as [| d r]; [congruence |].
      cbn [JS.dot_star append]. destruct (JS.is_line_terminator d).
      * intros H. now apply IH.
      * discriminate.
    + assert (Hext : JS.strip_prefix lit (String c (pre ++ lit ++ rest)) = None).
      { change (String c (pre ++ lit ++ rest))
          with (String c pre ++ lit ++ rest)%string.
        rewrite <- append_assoc. apply strip_prefix_none_app; [exact Hp |].
        cbn. rewrite Naming.length_append. lia. }
      rewrite Hext. intros H. now apply IH.
Qed.

(** The run of [deleteFile] on any log. *)
Lemma deleteFile_fsCalls P uri h :
  fsCalls (events (deleteFile P uri) h)
  = if isNativePlatform P then
      match JS.match_literal_dot_plus "aurora-files/" uri with
      | Some m => [DeleteFile m Directory.Data]
      | None => []
      end
    else [].
Proof.
  unfold events, log, deleteFile, isSupportedCapacitor.
  destruct (isNativePlatform P); cbn [negb].
  - unfold try_catch.
    destruct (JS.match_literal_dot_plus "aurora-files/" uri) as [m |].
    + unfold fsCall, hostCall.
      destruct (filesystem P h (DeleteFile m Directory.Data)); cbn [snd];
        rewrite ?app_snoc, skipn_app, skipn_all, Nat.sub_diag; reflexivity.
    + cbn. now rewrite skipn_all.
  - destruct (JS.startsWith uri "blob:"); cbn.
    + now rewrite skipn_app, skipn_all, Nat.sub_diag.
    + now rewrite skipn_all.
Qed.

Lemma destinationPath_shape P file h :
  exists rest,
    destinationPath P file h = ("aurora-files/" ++ rest)%string
    /\ rest <> ""%string.
Proof.
  unfold destinationPath.
  exists (getCategory (File.type file) ++ "/"
          ++ generatedFilename P (File.name file) h)%string.
  split; [reflexivity |].
  unfold getCategory.
  destruct (JS.startsWith _ "video/"); [discriminate |].
  destruct (JS.startsWith _ "audio/"); [discriminate |].
  destruct (JS.startsWith _ "image/"); discriminate.
Qed.

End Delete.

(** X8. [deleteFile] never reaches outside the managed subtree: on any
    host and for any URI, every filesystem call it makes is a [deleteFile]
    in [Directory.Data] of a path that is [aurora-files/] followed by a
    non-empty run of characters without line terminator, and that path
    occurs in the URI. *)
Theorem deleteFile_stays_in_subtree P uri h :
  Forall (fun c => exists pre run post,
              c = DeleteFile ("aurora-files/" ++ run) Directory.Data
              /\ run <> ""%string /\ singleLine run = true
              /\ uri = (pre ++ "aurora-files/" ++ run ++ post)%string)
    (fsCalls (events (deleteFile P uri) h)).
Proof.
  rewrite Delete.deleteFile_fsCalls.
  destruct (isNativePlatform P); [| constructor].
  destruct (JS.match_literal_dot_plus "aurora-files/" uri) as [m |] eqn:Hm;
    [| constructor].
  destruct (Delete.match_sound _ _ _ Hm) as (pre & run & post & Huri & -> & Hne & Hl).
  constructor; [| constructor]. now exists pre, run, post.
Qed.

(** X9. Deleting what was saved.  In native mode, for a URI made of a
    prefix without earlier match followed by the destination path of a
    save, that path holding no line terminator, [deleteFile] makes exactly
    one filesystem call: the deletion of that destination path. *)
Theorem deleteFile_deletes_saved_path P P' file h0 pre h :
  isNativePlatform P = true ->
  let path := destinationPath P' file h0 in
  JS.match_literal_dot_plus "aurora-files/" (pre ++ "aurora-files/") = None ->
  singleLine path = true ->
  fsCalls (events (deleteFile P (pre ++ path)) h)
  = [DeleteFile path Directory.Data].
Proof.
  intros Hn path Hpre Hline.
  rewrite Delete.deleteFile_fsCalls, Hn.
  destruct (Delete.destinationPath_shape P' file h0) as (rest & Hpath & Hne).
  fold path in Hpath. rewrite Hpath in *.
  rewrite Delete.singleLine_app in Hline. apply andb_prop in Hline as [_ Hrest].
  pose proof (Delete.dot_star_singleLine rest Hrest) as Hstar.
  rewrite (Delete.match_after_prefix "aurora-files/" rest); [| congruence | exact Hpre].
  now rewrite Hstar.
Qed.

Lemma deleteFile_deletes_saved_path_witness :
  fsCalls (events (deleteFile Examples.android
                     "file:///data/user/0/app/files/aurora-files/videos/1700000000000_k3j2h1.mp4")
             [])
  = [DeleteFile "aurora-files/videos/1700000000000_k3j2h1.mp4" Directory.Data].
Proof.
  apply (deleteFile_deletes_saved_path Examples.android Examples.android
           Examples.clip [] "file:///data/user/0/app/files/" []);
    reflexivity.
Defined.

(** ** Reading a blob *)

Module Reader.

Lemma noComma_app a b :
  Base64.noComma (a ++ b) = Base64.noComma a && Base64.noComma b.
Proof.
  induction a as [| c a IH]; [reflexivity |]. cbn. now rewrite IH, andb_assoc.
Qed.

Lemma split_after a s :
  Base64.noComma a = true ->
  JS.split "," (a ++ String "," s) = a :: JS.split "," s.
Proof.
  induction a as [| c a IH]; [reflexivity |].
  cbn [Base64.noComma append JS.split]. intros H.
  apply andb_prop in H as [Hc Ha]. apply negb_true_iff in Hc.
  now rewrite Hc, (IH Ha).
Qed.

End Reader.

(** X10. [blobToBase64] settles as the reader does, without any host
    call.  When the read fails it rejects with the reader's error event.
    When the read loads, and the blob's media type holds no comma, it
    resolves to what follows the first comma of the data URL, which is the
    Base64 text of the blob's bytes and decodes to exactly those bytes. *)
Theorem blobToBase64_roundtrip P blob h :
  Base64.noComma (Blob.type blob) = true ->
  match readError P h blob with
  | Some e => blobToBase64 P blob h = (Rejected e, h)
  | None =>
      blobToBase64 P blob h
      = (Resolved (Some (Base64.encode (Blob.bytes blob))), h)
      /\ Base64.decode (Base64.encode (Blob.bytes blob)) = Some (Blob.bytes blob)
  end.
Proof.
  intros Htype. unfold blobToBase64, ret, throw.
  destruct (readError P h blob) as [e |]; [reflexivity |].
  split; [| apply Base64Facts.decode_encode].
  unfold FileReader.readAsDataURL. do 2 f_equal.
  set (ty := if String.eqb (Blob.type blob) "" then _ else _).
  assert (Hty : Base64.noComma ty = true)
    by (subst ty; destruct (String.eqb (Blob.type blob) ""); [reflexivity | exact Htype]).
  replace ("data:" ++ ty ++ ";base64," ++ Base64.encode (Blob.bytes blob))%string
    with (("data:" ++ ty ++ ";base64")
          ++ String "," (Base64.encode (Blob.bytes blob)))%string
    by (cbn [append]; f_equal; f_equal; f_equal; f_equal; f_equal;
        now rewrite Delete.append_assoc).
  rewrite Reader.split_after.
  - rewrite (JSFacts.split_noComma _ (Base64Facts.encode_noComma _)). reflexivity.
  - change ("data:" ++ ty ++ ";base64")%string
      with ("data:" ++ (ty ++ ";base64"))%string.
    now rewrite !Reader.noComma_app, Hty.
Qed.

(** Two bytes of a video: read, they come out as [TWE=]; on a platform
    that cannot read them, the reader's error comes out. *)
Lemma blobToBase64_roundtrip_witness :
  (blobToBase64 Examples.android (Blob.mk [x4d; x61] "video/mp4") []
   = (Resolved (Some "TWE="%string), [])
   /\ Base64.decode "TWE=" = Some [x4d; x61])
  /\ blobToBase64 Examples.androidUnreadable (Blob.mk [x4d; x61] "video/mp4") []
     = (Rejected "NotReadableError"%string, []).
Proof.
  split.
  - exact (blobToBase64_roundtrip Examples.android
             (Blob.mk [x4d; x61] "video/mp4") [] eq_refl).
  - exact (blobToBase64_roundtrip Examples.androidUnreadable
             (Blob.mk [x4d; x61] "video/mp4") [] eq_refl).
Defined.

(** ** More on generated names *)

Module Names.

Lemma afterLastDot_noDot s e : afterLastDot s = Some e -> afterLastDot e = None.
Proof.
  revert e. induction s as [| c s IH]; intros e; [discriminate |].
  cbn [afterLastDot]. destruct (afterLastDot s) as [e' |] eqn:Hs.
  - intros [= <-]. now apply IH.
  - destruct (Ascii.eqb c "."); [| discriminate]. now intros [= <-].
Qed.

Lemma afterLastDot_suffix stem e :
  afterLastDot e = None -> afterLastDot (stem ++ "." ++ e) = Some e.
Proof.
  intros He. induction stem as [| c stem IH].
  - cbn. now rewrite He.
  - cbn [append afterLastDot]. cbn [append] in IH. now rewrite IH.
Qed.

Lemma digit_char_value d :
  0 <= d < 10 -> Z.of_nat (nat_of_ascii (JS.digit_char d)) - 48 = d.
Proof.
  intros Hd.
  assert (Hcases : d = 0 \/ d = 1 \/ d = 2 \/ d = 3 \/ d = 4 \/ d = 5
                   \/ d = 6 \/ d = 7 \/ d = 8 \/ d = 9) by lia.
  repeat (destruct Hcases as [-> | Hcases]; [reflexivity |]).
  now subst d.
Qed.

Lemma digits_allDigit fuel :
  forall n acc,
    0 <= n -> allChars isDigit acc = true ->
    allChars isDigit (JS.digits fuel n acc) = true.
Proof.
  induction fuel as [| fuel IH]; intros n acc Hn Hacc; cbn [JS.digits].
  - cbn [allChars]. rewrite Hacc, Naming.digit_char_isDigit; [reflexivity |].
    apply Z.mod_pos_bound. lia.
  - assert (Hd : allChars isDigit (String (JS.digit_char (n mod 10)) acc) = true).
    { cbn [allChars]. rewrite Hacc, Naming.digit_char_isDigit; [reflexivity |].
      apply Z.mod_pos_bound. lia. }
    destruct (n <? 10); [exact Hd |].
    apply IH; [apply Z.div_pos; lia | exact Hd].
Qed.

(** Reading back the digits printed for [n], then [acc]. *)
Lemma digits_value fuel :
  forall n acc,
    0 <= n < 10 ^ Z.of_nat (S fuel) ->
    digitsValue (JS.digits fuel n acc) 0 = digitsValue acc n.
Proof.
  induction fuel as [| fuel IH]; intros n acc Hn.
  - change (10 ^ Z.of_nat 1) with 10 in Hn. cbn [JS.digits digitsValue].
    rewrite digit_char_value by (apply Z.mod_pos_bound; lia).
    rewrite Z.mod_small by lia. f_equal.
  - cbn [JS.digits]. destruct (Z.ltb_spec n 10).
    + cbn [digitsValue]. rewrite digit_char_value by (apply Z.mod_pos_bound; lia).
      rewrite Z.mod_small by lia. f_equal.
    + rewrite IH.
      * cbn [digitsValue].
        rewrite digit_char_value by (apply Z.mod_pos_bound; lia).
        f_equal. pose proof (Z.div_mod n 10). lia.
      * rewrite Nat2Z.inj_succ, Z.pow_succ_r in Hn by lia.
        split; [apply Z.div_pos; lia | apply Z.div_lt_upper_bound; lia].
Qed.

Lemma log2_fuel n : 0 <= n -> n < 10 ^ Z.of_nat (S (Z.to_nat (Z.log2 n))).
Proof.
  intros Hn.
  destruct (Z.eq_dec n 0) as [-> | Hne]; [reflexivity |].
  pose proof (Z.log2_nonneg n) as Hl.
  rewrite Nat2Z.inj_succ, Z2Nat.id by lia.
  destruct (Z.log2_spec n) as [_ Hup]; [lia |].
  eapply Z.lt_le_trans; [exact Hup |].
  apply Z.pow_le_mono_l. lia.
Qed.

Lemma string_of_number_value n :
  0 <= n ->
  digitsValue (JS.string_of_number n) 0 = n
  /\ allChars isDigit (JS.string_of_number n) = true.
Proof.
  intros Hn. unfold JS.string_of_number.
  destruct (Z.ltb_spec n 0); [lia |]. split.
  - rewrite digits_value; [reflexivity |].
    split; [exact Hn | now apply log2_fuel].
  - now apply digits_allDigit.
Qed.

Lemma beforeUnderscore_digits ts rest :
  allChars isDigit ts = true ->
  beforeUnderscore (ts ++ "_" ++ rest) = ts.
Proof.
  induction ts as [| c ts IH]; [reflexivity |].
  cbn [allChars append beforeUnderscore]. intros H.
  apply andb_prop in H as [Hc Hts].
  destruct (Ascii.eqb_spec c "_") as [-> | _]; [discriminate |].
  f_equal. now apply IH.
Qed.

Lemma allChars_app p a b :
  allChars p (a ++ b)%string = allChars p a && allChars p b.
Proof.
  induction a as [| c a IH]; [reflexivity |]. cbn. now rewrite IH, andb_assoc.
Qed.

Lemma allChars_impl (p q : ascii -> bool) s :
  (forall c, p c = true -> q c = true) ->
  allChars p s = true -> allChars q s = true.
Proof.
  intros Hpq. induction s as [| c s IH]; [reflexivity |].
  cbn. intros H. apply andb_prop in H as [Hc Hs].
  now rewrite (Hpq c Hc), (IH Hs).
Qed.

Lemma allChars_substring p s :
  allChars p s = true ->
  forall n m, allChars p (String.substring n m s) = true.
Proof.
  induction s as [| c s IH]; intros Hs n m.
  - now destruct n, m.
  - cbn in Hs. apply andb_prop in Hs as [Hc Hs].
    destruct n as [| n]; [| cbn; now apply IH].
    destruct m as [| m]; [reflexivity |].
    cbn. now rewrite Hc, (IH Hs).
Qed.

Lemma allChars_afterLastDot p s e :
  allChars p s = true -> afterLastDot s = Some e -> allChars p e = true.
Proof.
  revert e. induction s as [| c s IH]; intros e Hs; [discriminate |].
  cbn in Hs. apply andb_prop in Hs as [Hc Hs]. cbn [afterLastDot].
  destruct (afterLastDot s) as [e' |].
  - intros [= <-]. now apply IH.
  - destruct (Ascii.eqb c "."); [| discriminate]. now intros [= <-].
Qed.

Lemma isDigit_noSlash c : isDigit c = true -> negb (Ascii.eqb c "/") = true.
Proof. destruct c as [[] [] [] [] [] [] [] []]; vm_compute; congruence. Qed.

(** A printed number holds no slash. *)
Lemma string_of_number_noSlash n : noSlash (JS.string_of_number n) = true.
Proof.
  unfold noSlash, JS.string_of_number.
  destruct (Z.ltb_spec n 0); cbn [allChars];
    [change (negb (Ascii.eqb "-" "/")) with true; cbn [andb] |];
    apply (allChars_impl isDigit); try apply isDigit_noSlash;
    apply digits_allDigit; try reflexivity; lia.
Qed.

(** A generated name holds no slash when neither the original name nor the
    text of the random draw does. *)
Lemma generatedFilename_noSlash P originalName h :
  noSlash originalName = true ->
  noSlash (host P (h ++ [Host DateNow])%list MathRandomToString36) = true ->
  noSlash (generatedFilename P originalName h) = true.
Proof.
  intros Hname Hdraw. rewrite Naming.generatedFilename_eq. unfold noSlash in *.
  rewrite !allChars_app, string_of_number_noSlash.
  unfold JS.substring. rewrite (allChars_substring _ _ Hdraw).
  cbn [allChars andb]. rewrite Naming.pop_split.
  destruct (afterLastDot originalName) as [e |] eqn:Hdot.
  - pose proof (allChars_afterLastDot _ _ _ Hname Hdot) as He.
    destruct (String.eqb e ""); [reflexivity | exact He].
  - destruct (String.eqb originalName ""); [reflexivity | exact Hname].
Qed.

End Names.

(** X11. The stored name keeps the extension: on any host, the text after
    the last dot of the destination path is a non-empty, dot-free extension,
    namely the text after the last dot of the original name, or [bin] when
    that text is empty or the name is empty, or the whole original name
    when it is non-empty and holds no dot. *)
Theorem destination_keeps_extension P file h :
  exists ext,
    afterLastDot (destinationPath P file h) = Some ext
    /\ ext <> ""%string
    /\ afterLastDot ext = None
    /\ ext = match afterLastDot (File.name file) with
             | Some EmptyString => "bin"%string
             | Some e => e
             | None => if String.eqb (File.name file) "" then "bin"%string
                       else File.name file
             end.
Proof.
  set (ext := match afterLastDot (File.name file) with
              | Some EmptyString => "bin"%string
              | Some e => e
              | None => if String.eqb (File.name file) "" then "bin"%string
                        else File.name file
              end).
  assert (Hcode : match JS.pop (JS.split "." (File.name file)) with
                  | Some e => if String.eqb e "" then "bin"%string else e
                  | None => "bin"%string
                  end = ext).
  { rewrite Naming.pop_split. subst ext.
    destruct (afterLastDot (File.name file)) as [[| c e] |]; reflexivity. }
  assert (Hne : ext <> ""%string).
  { subst ext. destruct (afterLastDot (File.name file)) as [[| c e] |];
      try discriminate.
    destruct (String.eqb_spec (File.name file) ""); [discriminate | assumption]. }
  assert (Hnodot : afterLastDot ext = None).
  { subst ext. destruct (afterLastDot (File.name file)) as [[| c e] |] eqn:Hn;
      [reflexivity | now apply (Names.afterLastDot_noDot _ _ Hn) |].
    destruct (String.eqb (File.name file) ""); [reflexivity | exact Hn]. }
  exists ext. repeat split; try assumption.
  unfold destinationPath. rewrite Naming.generatedFilename_eq, Hcode.
  rewrite <- !Delete.append_assoc.
  rewrite (Delete.append_assoc _ "." ext). now apply Names.afterLastDot_suffix.
Qed.

(** X12. The clock reading can be read back from a generated name, so two
    names generated at different non-negative clock readings differ,
    whatever the random draws and the original names. *)
Theorem generated_names_differ_by_clock P1 P2 name1 name2 h1 h2 :
  0 <= host P1 h1 DateNow -> 0 <= host P2 h2 DateNow ->
  host P1 h1 DateNow <> host P2 h2 DateNow ->
  timestampOf (generatedFilename P1 name1 h1) = host P1 h1 DateNow
  /\ generatedFilename P1 name1 h1 <> generatedFilename P2 name2 h2.
Proof.
  intros H1 H2 Hdiff.
  assert (Hts : forall P name h,
            0 <= host P h DateNow ->
            timestampOf (generatedFilename P name h) = host P h DateNow).
  { intros P name h Hpos. unfold timestampOf.
    rewrite Naming.generatedFilename_eq.
    destruct (Names.string_of_number_value _ Hpos) as [Hval Hdig].
    now rewrite (Names.beforeUnderscore_digits _ _ Hdig). }
  split; [now apply Hts |].
  intros Heq. apply Hdiff.
  rewrite <- (Hts P1 name1 h1 H1), <- (Hts P2 name2 h2 H2). now rewrite Heq.
Qed.

Lemma generated_names_differ_by_clock_witness :
  timestampOf (generatedFilename Examples.android "clip.mp4" []) = 1700000000000
  /\ generatedFilename Examples.android "clip.mp4" []
     <> generatedFilename
          {| isNativePlatform := true;
             host := fun h c =>
                       match c return HostReply c with
                       | DateNow => 1700000000001
                       | c' => Examples.hostWith "0.k3j2h1g9x8" h c'
                       end;
             filesystem := Examples.fsAccepting;
             readError := Examples.loads |} "clip.mp4" [].
Proof.
  apply generated_names_differ_by_clock;
    unfold Examples.android, Examples.hostWith, Examples.clock; cbn; lia.
Defined.

(** ** The inventory and the statistics *)

Module Inventory.

Lemma totalSize_app a b : totalSize (a ++ b) = totalSize a + totalSize b.
Proof. induction a as [| e a IH]; cbn; [reflexivity | rewrite IH; lia]. Qed.

(** The inner loop of the inventory: it never rejects, stats every entry
    and pushes well-placed entries only. *)
Lemma statEntries_resolves P cat entries :
  forall files h,
    exists new calls,
      statEntries P cat entries files h = (Resolved (files ++ new), h ++ calls)
      /\ Forall (entryInPlace [cat]) new
      /\ (List.length new <= List.length entries)%nat
      /\ filter isStat calls = calls
      /\ List.length calls = List.length entries.
Proof.
  induction entries as [| file entries IH]; intros files h.
  - exists [], []. cbn. rewrite !app_nil_r. repeat split; constructor.
  - cbn [statEntries]. unfold bind at 1, try_catch, bind at 1, fsCall, ret.
    set (c := Stat _ _).
    destruct (filesystem P h c) as [stat | e].
    + destruct (IH (files ++ [StorageEntry.mk (FileInfo.name file)
                                ("aurora-files/" ++ cat ++ "/" ++ FileInfo.name file)
                                cat (StatResult.size stat)]) (h ++ [Fs c]))
        as (new & calls & Hrun & Hplace & Hlen & Hstat & Hcalls).
      rewrite Hrun. eexists (_ :: new), (Fs c :: calls).
      repeat split.
      * now rewrite <- !app_assoc.
      * constructor; [| exact Hplace]. split; [now left | reflexivity].
      * cbn. lia.
      * cbn. now rewrite Hstat.
      * cbn. now rewrite Hcalls.
    + destruct (IH files (h ++ [Fs c]))
        as (new & calls & Hrun & Hplace & Hlen & Hstat & Hcalls).
      rewrite Hrun. exists new, (Fs c :: calls).
      repeat split.
      * now rewrite app_snoc.
      * exact Hplace.
      * cbn. lia.
      * cbn. now rewrite Hstat.
      * cbn. now rewrite Hcalls.
Qed.

Lemma entryInPlace_mono cats cats' e :
  (forall c, In c cats -> In c cats') -> entryInPlace cats e -> entryInPlace cats' e.
Proof. intros Hsub [Hin Hpath]. split; [now apply Hsub | exact Hpath]. Qed.

Lemma scanFiles_resolves P cats :
  forall files h,
    exists new calls,
      scanFiles P cats files h = (Resolved (files ++ new), h ++ calls)
      /\ Forall (entryInPlace cats) new
      /\ (List.length new <= List.length (filter isStat calls))%nat
      /\ Forall (fun cat => In (Fs (Readdir ("aurora-files/" ++ cat)
                                     Directory.Data)) calls) cats.
Proof.
  induction cats as [| cat cats IH]; intros files h.
  - exists [], []. cbn. rewrite !app_nil_r. repeat split; constructor.
  - cbn [scanFiles]. unfold bind at 1, try_catch, bind at 1, fsCall.
    set (c := Readdir _ _).
    destruct (filesystem P h c) as [listing | e].
    + destruct (statEntries_resolves P cat (ReaddirResult.files listing)
                  files (h ++ [Fs c]))
        as (new & calls & Hrun & Hplace & Hlen & Hstat & Hcalls).
      rewrite Hrun.
      destruct (IH (files ++ new) ((h ++ [Fs c]) ++ calls))
        as (new' & calls' & Hrest & Hplace' & Hlen' & Hread).
      rewrite Hrest. exists (new ++ new'), (Fs c :: calls ++ calls').
      repeat split.
      * now rewrite <- !app_assoc.
      * apply Forall_app. split.
        -- eapply Forall_impl; [| exact Hplace].
           intros e. apply entryInPlace_mono. intros x [<- | []]. now left.
        -- eapply Forall_impl; [| exact Hplace'].
           intros e. apply entryInPlace_mono. intros x Hx. now right.
      * cbn [filter isStat]. subst c. cbn [isStat].
        rewrite filter_app, !length_app, Hstat, Hcalls. lia.
      * constructor; [now left |].
        eapply Forall_impl; [| exact Hread].
        intros x Hx. right. apply in_or_app. now right.
    + cbn [ret].
      destruct (IH files (h ++ [Fs c]))
        as (new' & calls' & Hrest & Hplace' & Hlen' & Hread).
      rewrite Hrest. exists new', (Fs c :: calls').
      repeat split.
      * now rewrite app_snoc.
      * eapply Forall_impl; [| exact Hplace'].
        intros x. apply entryInPlace_mono. intros y Hy. now right.
      * exact Hlen'.
      * constructor; [now left |].
        eapply Forall_impl; [| exact Hread]. intros x Hx. now right.
Qed.

Lemma scanStats_reads P cats :
  forall totalCount totalSize h,
    exists stats calls,
      scanStats P cats totalCount totalSize h = (Resolved stats, h ++ calls)
      /\ Forall (fun cat => In (Fs (Readdir ("aurora-files/" ++ cat)
                                     Directory.Data)) calls) cats.
Proof.
  induction cats as [| cat cats IH]; intros totalCount totalSize h.
  - eexists _, []. cbn. rewrite app_nil_r. split; [reflexivity | constructor].
  - cbn [scanStats]. unfold bind at 1, try_catch, bind at 1, fsCall.
    set (c := Readdir _ _).
    destruct (filesystem P h c) as [listing | e].
    + destruct (Scan.sumSizes_resolves P cat (ReaddirResult.files listing)
                  totalSize (h ++ [Fs c])) as (sz' & calls & Hrun & _).
      unfold bind at 1. rewrite Hrun. cbn [ret fst snd].
      destruct (IH (totalCount
                    + Z.of_nat (List.length (ReaddirResult.files listing)))
                  sz' ((h ++ [Fs c]) ++ calls))
        as (stats & calls' & Hrest & Hread).
      rewrite Hrest. exists stats, (Fs c :: calls ++ calls'). split.
      * now rewrite <- !app_assoc.
      * constructor; [now left |].
        eapply Forall_impl; [| exact Hread].
        intros x Hx. right. apply in_or_app. now right.
    + cbn [ret fst snd].
      destruct (IH totalCount totalSize (h ++ [Fs c]))
        as (stats & calls' & Hrest & Hread).
      rewrite Hrest. exists stats, (Fs c :: calls'). split.
      * now rewrite app_snoc.
      * constructor; [now left |].
        eapply Forall_impl; [| exact Hread]. intros x Hx. now right.
Qed.

(** On a filesystem whose answers do not depend on the log, the two loops
    over one listing see the same answers. *)
Lemma loops_agree P cat entries :
  stableFilesystem P ->
  forall sz files h h',
    exists new calls,
      sumSizes P cat entries sz h = (Resolved (sz + totalSize new), h ++ calls)
      /\ statEntries P cat entries files h' = (Resolved (files ++ new), h' ++ calls)
      /\ (List.length new <= List.length entries)%nat
      /\ (statsResolve P -> List.length new = List.length entries).
Proof.
  intros Hstable.
  induction entries as [| file entries IH]; intros sz files h h'.
  - exists [], []. cbn. rewrite !app_nil_r, Z.add_0_r. repeat split; lia.
  - cbn [sumSizes statEntries].
    unfold bind at 1 3, try_catch, bind at 1 2, fsCall, ret.
    set (c := Stat _ _). rewrite (Hstable h' h c).
    destruct (filesystem P h c) as [stat | e] eqn:Hc.
    + destruct (IH (sz + StatResult.size stat)
                  (files ++ [StorageEntry.mk (FileInfo.name file)
                               ("aurora-files/" ++ cat ++ "/" ++ FileInfo.name file)
                               cat (StatResult.size stat)])
                  (h ++ [Fs c]) (h' ++ [Fs c]))
        as (new & calls & Hsum & Hlist & Hlen & Hall).
      rewrite Hsum, Hlist.
      exists (StorageEntry.mk (FileInfo.name file)
                ("aurora-files/" ++ cat ++ "/" ++ FileInfo.name file)
                cat (StatResult.size stat) :: new), (Fs c :: calls).
      repeat split.
      * rewrite app_snoc. cbn [totalSize StorageEntry.size]. f_equal. f_equal. lia.
      * now rewrite <- !app_assoc.
      * cbn. lia.
      * intros Hok. cbn. now rewrite (Hall Hok).
    + destruct (IH sz files (h ++ [Fs c]) (h' ++ [Fs c]))
        as (new & calls & Hsum & Hlist & Hlen & Hall).
      rewrite Hsum, Hlist. exists new, (Fs c :: calls).
      repeat split.
      * now rewrite app_snoc.
      * now rewrite app_snoc.
      * cbn. lia.
      * intros Hok. destruct (Hok h ("aurora-files/" ++ cat ++ "/" ++ FileInfo.name file)%string
                                Directory.Data) as (r & Hr).
        subst c. rewrite Hr in Hc. discriminate.
Qed.

Lemma scans_agree P cats :
  stableFilesystem P ->
  forall count sz files h h',
    exists count' new calls,
      scanStats P cats count sz h
      = (Resolved (StorageStats.mk count' (sz + totalSize new)), h ++ calls)
      /\ scanFiles P cats files h' = (Resolved (files ++ new), h' ++ calls)
      /\ count + Z.of_nat (List.length new) <= count'
      /\ (statsResolve P -> count' = count + Z.of_nat (List.length new)).
Proof.
  intros Hstable.
  induction cats as [| cat cats IH]; intros count sz files h h'.
  - exists count, [], []. cbn. rewrite !app_nil_r, Z.add_0_r.
    repeat split; lia.
  - cbn [scanStats scanFiles].
    unfold try_catch, bind, fsCall. cbv beta.
    set (c := Readdir _ _). rewrite (Hstable h' h c).
    destruct (filesystem P h c) as [listing | e].
    + destruct (loops_agree P cat (ReaddirResult.files listing) Hstable
                  sz files (h ++ [Fs c]) (h' ++ [Fs c]))
        as (new & calls & Hsum & Hlist & Hlen & Hall).
      rewrite Hsum, Hlist. cbn [ret fst snd].
      destruct (IH (count + Z.of_nat (List.length (ReaddirResult.files listing)))
                  (sz + totalSize new) (files ++ new)
                  ((h ++ [Fs c]) ++ calls) ((h' ++ [Fs c]) ++ calls))
        as (count' & new' & calls' & Hs & Hf & Hle & Heq).
      rewrite Hs, Hf. exists count', (new ++ new'), (Fs c :: calls ++ calls').
      repeat split.
      * rewrite <- !app_assoc. cbn [app]. rewrite totalSize_app.
        do 3 f_equal. lia.
      * now rewrite <- !app_assoc.
      * rewrite length_app. lia.
      * intros Hok. rewrite (Heq Hok), length_app, <- (Hall Hok). lia.
    + cbn [ret fst snd].
      destruct (IH count sz files (h ++ [Fs c]) (h' ++ [Fs c]))
        as (count' & new' & calls' & Hs & Hf & Hle & Heq).
      rewrite Hs, Hf. exists count', new', (Fs c :: calls').
      repeat split; try assumption; now rewrite app_snoc.
Qed.

End Inventory.

(** X13. [getNativeStorageFiles] resolves on every host.  Every entry it
    returns belongs to one of the four categories and has the path
    [aurora-files/<category>/<name>]; there are at most as many entries as
    [stat] calls were made; without the native capability the result is
    empty and nothing is called. *)
Theorem getNativeStorageFiles_entries P h :
  exists entries,
    result (getNativeStorageFiles P) h = Resolved entries
    /\ Forall (entryInPlace categories) entries
    /\ if isNativePlatform P then
         (List.length entries
          <= List.length (filter isStat (events (getNativeStorageFiles P) h)))%nat
       else entries = [] /\ events (getNativeStorageFiles P) h = [].
Proof.
  unfold getNativeStorageFiles, isSupportedCapacitor.
  destruct (isNativePlatform P); cbn [negb].
  - destruct (Inventory.scanFiles_resolves P categories [] h)
      as (entries & calls & Hrun & Hplace & Hlen & _).
    cbn [app] in Hrun.
    assert (Hrun' : try_catch (scanFiles P categories [])
                      (fun error =>
                         hostCall P (ConsoleError
                                       "Failed to get native storage files:" error);;
                         ret [])%task h
                    = (Resolved entries, h ++ calls))
      by (unfold try_catch; now rewrite Hrun).
    destruct (events_of _ _ _ _ Hrun') as [Hres Hev].
    exists entries. rewrite Hres, Hev. now repeat split.
  - exists []. repeat split; [constructor |].
    unfold events, log, ret. cbn [snd]. now rewrite skipn_all.
Qed.

(** X14. On a filesystem whose answers do not depend on what was called
    before, the statistics and the inventory agree: both scans make the
    same calls, the size of the statistics is the sum of the sizes of the
    inventory's entries, and the count is at least the number of entries,
    with equality when every [stat] resolves. *)
Theorem stats_agree_with_inventory P h h' :
  stableFilesystem P ->
  exists stats entries,
    result (getNativeStorageStats P) h = Resolved stats
    /\ result (getNativeStorageFiles P) h' = Resolved entries
    /\ events (getNativeStorageStats P) h = events (getNativeStorageFiles P) h'
    /\ StorageStats.size stats = totalSize entries
    /\ Z.of_nat (List.length entries) <= StorageStats.count stats
    /\ (statsResolve P ->
        StorageStats.count stats = Z.of_nat (List.length entries)).
Proof.
  intros Hstable.
  unfold getNativeStorageStats, getNativeStorageFiles, isSupportedCapacitor.
  destruct (isNativePlatform P); cbn [negb].
  - destruct (Inventory.scans_agree P categories Hstable 0 0 [] h h')
      as (count & entries & calls & Hs & Hf & Hle & Heq).
    cbn [app] in Hf.
    assert (Hs' : try_catch (scanStats P categories 0 0)
                    (fun error =>
                       hostCall P (ConsoleError
                                     "Failed to get native storage stats:" error);;
                       ret (StorageStats.mk 0 0))%task h
                  = (Resolved (StorageStats.mk count (0 + totalSize entries)),
                     h ++ calls))
      by (unfold try_catch; now rewrite Hs).
    assert (Hf' : try_catch (scanFiles P categories [])
                    (fun error =>
                       hostCall P (ConsoleError
                                     "Failed to get native storage files:" error);;
                       ret [])%task h'
                  = (Resolved entries, h' ++ calls))
      by (unfold try_catch; now rewrite Hf).
    destruct (events_of _ _ _ _ Hs') as [Hres Hev].
    destruct (events_of _ _ _ _ Hf') as [Hres' Hev'].
    exists (StorageStats.mk count (0 + totalSize entries)), entries.
    rewrite Hres, Hres', Hev, Hev'.
    cbn [StorageStats.size StorageStats.count].
    split; [reflexivity | split; [reflexivity | split; [reflexivity |]]].
    split; [lia | split; [lia | intros Hok; rewrite (Heq Hok); lia]].
  - exists (StorageStats.mk 0 0), [].
    unfold events, log, result, ret. cbn [fst snd].
    rewrite !skipn_all. repeat split; cbn; lia.
Qed.

Lemma stats_agree_with_inventory_witness :
  exists stats entries,
    result (getNativeStorageStats Examples.androidOneGone) [] = Resolved stats
    /\ result (getNativeStorageFiles Examples.androidOneGone) [] = Resolved entries
    /\ events (getNativeStorageStats Examples.androidOneGone) []
       = events (getNativeStorageFiles Examples.androidOneGone) []
    /\ StorageStats.size stats = totalSize entries
    /\ Z.of_nat (List.length entries) <= StorageStats.count stats
    /\ (statsResolve Examples.androidOneGone ->
        StorageStats.count stats = Z.of_nat (List.length entries)).
Proof.
  apply (stats_agree_with_inventory Examples.androidOneGone [] []).
  intros h h' c. reflexivity.
Defined.

(** X15. What is saved can be found.  In native mode, for a file whose
    name holds no slash and a random draw whose text holds none, the
    destination path of a save is [aurora-files/<category>/<filename>] with
    a file name without slash, so it lies directly in that directory; and
    both scans list that directory, whatever the host answers. *)
Theorem saved_directory_is_scanned P file h h' :
  isNativePlatform P = true ->
  noSlash (File.name file) = true ->
  noSlash (host P (h ++ [Host DateNow]) MathRandomToString36) = true ->
  let dir := ("aurora-files/" ++ getCategory (File.type file))%string in
  let filename := generatedFilename P (File.name file) h in
  destinationPath P file h = (dir ++ "/" ++ filename)%string
  /\ noSlash filename = true
  /\ In (Fs (Readdir dir Directory.Data)) (events (getNativeStorageStats P) h')
  /\ In (Fs (Readdir dir Directory.Data)) (events (getNativeStorageFiles P) h').
Proof.
  intros Hn Hname Hdraw dir filename. split; [| split; [| split]].
  - unfold destinationPath. subst dir filename. now rewrite Delete.append_assoc.
  - now apply Names.generatedFilename_noSlash.
  - unfold getNativeStorageStats, isSupportedCapacitor. rewrite Hn. cbn [negb].
    destruct (Inventory.scanStats_reads P categories 0 0 h')
      as (stats & calls & Hrun & Hread).
    assert (Hrun' : try_catch (scanStats P categories 0 0)
                      (fun error =>
                         hostCall P (ConsoleError
                                       "Failed to get native storage stats:" error);;
                         ret (StorageStats.mk 0 0))%task h'
                    = (Resolved stats, h' ++ calls))
      by (unfold try_catch; now rewrite Hrun).
    destruct (events_of _ _ _ _ Hrun') as [_ ->].
    rewrite Forall_forall in Hread. apply Hread, Naming.getCategory_in.
  - unfold getNativeStorageFiles, isSupportedCapacitor. rewrite Hn. cbn [negb].
    destruct (Inventory.scanFiles_resolves P categories [] h')
      as (entries & calls & Hrun & _ & _ & Hread).
    assert (Hrun' : try_catch (scanFiles P categories [])
                      (fun error =>
                         hostCall P (ConsoleError
                                       "Failed to get native storage files:" error);;
                         ret [])%task h'
                    = (Resolved ([] ++ entries), h' ++ calls))
      by (unfold try_catch; now rewrite Hrun).
    destruct (events_of _ _ _ _ Hrun') as [_ ->].
    rewrite Forall_forall in Hread. apply Hread, Naming.getCategory_in.
Qed.

Lemma saved_directory_is_scanned_witness :
  destinationPath Examples.android Examples.clip []
  = "aurora-files/videos/1700000000000_k3j2h1.mp4"%string
  /\ noSlash "1700000000000_k3j2h1.mp4" = true
  /\ In (Fs (Readdir "aurora-files/videos" Directory.Data))
       (events (getNativeStorageFiles Examples.android) []).
Proof.
  destruct (saved_directory_is_scanned Examples.android Examples.clip [] [])
    as (Hpath & Hname & _ & Hfiles).
  - reflexivity.
  - reflexivity.
  - reflexivity.
  - split; [exact Hpath | split; [exact Hname | exact Hfiles]].
Defined.

(** X16. Without the native capability [getFileUrl] calls nothing and
    resolves to the node's [nativeUri] when that is a non-empty string,
    else to its [content] when that is one, else to the empty string; so
    the URL is empty exactly when the node has neither. *)
Theorem getFileUrl_browser P node h :
  isNativePlatform P = false ->
  exists url,
    getFileUrl P node h = (Resolved url, h)
    /\ Some url
       = (if JS.truthy (VfsNode.nativeUri node) then VfsNode.nativeUri node
          else if JS.truthy (VfsNode.content node) then VfsNode.content node
          else Some ""%string)
    /\ (url = ""%string
        <-> JS.truthy (VfsNode.nativeUri node) = false
            /\ JS.truthy (VfsNode.content node) = false).
Proof.
  intros Hn. unfold getFileUrl, convertFileSrc, isSupportedCapacitor, JS.or.
  rewrite Hn. cbn [negb].
  destruct (VfsNode.nativeUri node) as [u |], (VfsNode.content node) as [c |];
    cbn [JS.truthy];
    repeat match goal with
           | |- context [String.eqb ?x ""] =>
               destruct (String.eqb_spec x ""); cbn [negb JS.truthy]
           end;
    subst; eexists; (split; [reflexivity |]); (split; [reflexivity |]);
    split; try (intros [H1 H2]); try intros H; try discriminate;
    try congruence; try (now split); reflexivity.
Qed.

Lemma getFileUrl_browser_witness :
  exists url,
    getFileUrl Examples.browser
      (VfsNode.mk (Some ""%string) (Some "data:text/plain;base64,TQ=="%string)) []
    = (Resolved url, [])
    /\ Some url = Some "data:text/plain;base64,TQ=="%string.
Proof.
  destruct (getFileUrl_browser Examples.browser
              (VfsNode.mk (Some ""%string)
                 (Some "data:text/plain;base64,TQ=="%string)) [] eq_refl)
    as (url & Hrun & Hurl & _).
  exists url. split; [exact Hrun | exact Hurl].
Defined.

(** X17. Saving and then resolving, without the native capability: the
    URL [getFileUrl] gives for the node of a saved file is the object URL
    that [saveFile] obtained, and the only call of the two steps is
    [URL.createObjectURL]. *)
Theorem save_then_getFileUrl_browser P file h :
  isNativePlatform P = false ->
  host P h (CreateObjectURL file) <> ""%string ->
  (ref <- saveFile P file;; getFileUrl P (nodeOfResult ref))%task h
  = (Resolved (host P h (CreateObjectURL file)),
     h ++ [Host (CreateObjectURL file)]).
Proof.
  intros Hn Hurl. unfold bind.
  rewrite (Save.saveFile_browser P file h Hn).
  unfold getFileUrl, nodeOfResult, convertFileSrc, isSupportedCapacitor.
  cbn [VfsNode.nativeUri uri JS.truthy]. rewrite Hn.
  apply String.eqb_neq in Hurl. now rewrite Hurl.
Qed.

Lemma save_then_getFileUrl_browser_witness :
  (ref <- saveFile Examples.browser Examples.clip;;
   getFileUrl Examples.browser (nodeOfResult ref))%task []
  = (Resolved "blob:http://localhost/3f0c"%string,
     [Host (CreateObjectURL Examples.clip)]).
Proof.
  apply (save_then_getFileUrl_browser Examples.browser Examples.clip []).
  - reflexivity.
  - discriminate.
Defined.

(** ** The upload progress toast *)

Module ToastFacts.
Import UploadProgress.

Lemma shown_app a b : shown (a ++ b) = shown a ++ shown b.
Proof.
  induction a as [| [] a IH]; cbn; [reflexivity | now rewrite IH | exact IH].
Qed.

Lemma created_app a b : created (a ++ b) = (created a + created b)%nat.
Proof.
  induction a as [| [? ? ? [|] |] a IH]; cbn; rewrite ?IH; reflexivity.
Qed.

Lemma dismissed_app a b : dismissed (a ++ b) = (dismissed a + dismissed b)%nat.
Proof.
  induction a as [| [] a IH]; cbn; rewrite ?IH; reflexivity.
Qed.

Lemma run_app toaster fileName fileSize ops ops' s :
  run toaster fileName fileSize (ops ++ ops') s
  = run toaster fileName fileSize ops' (run toaster fileName fileSize ops s).
Proof. unfold run. apply fold_left_app. Qed.

Lemma run_cons toaster fileName fileSize op ops s :
  run toaster fileName fileSize (op :: ops) s
  = run toaster fileName fileSize ops (step toaster fileName fileSize op s).
Proof. reflexivity. Qed.

Lemma run_shown toaster fileName fileSize ops :
  forall s,
    shown (snd (run toaster fileName fileSize ops s))
    = shown (snd s) ++ map (fun p => Z.min p 100) (requested ops).
Proof.
  induction ops as [| [p |] ops IH]; intros [t log].
  - cbn. now rewrite app_nil_r.
  - rewrite run_cons, IH.
    cbn [step fst snd requested map]. unfold updateProgress.
    destruct (toastId t); cbn [snd]; rewrite shown_app; cbn;
      now rewrite <- app_assoc.
  - rewrite run_cons, IH.
    cbn [step fst snd requested]. unfold complete.
    destruct (toastId t); cbn [snd]; [| reflexivity].
    rewrite shown_app. cbn. now rewrite app_nil_r.
Qed.

Lemma step_balanced toaster fileName fileSize op s :
  balanced s -> balanced (step toaster fileName fileSize op s).
Proof.
  destruct s as [t log]. unfold balanced. cbn [fst snd].
  destruct op as [p |]; cbn [step fst snd];
    unfold updateProgress, complete; destruct (toastId t); cbn [fst snd toastId];
    rewrite ?created_app, ?dismissed_app; cbn; lia.
Qed.

Lemma run_balanced toaster fileName fileSize ops :
  forall s, balanced s -> balanced (run toaster fileName fileSize ops s).
Proof.
  induction ops as [| op ops IH]; intros s Hs; [exact Hs |].
  rewrite run_cons. apply IH. now apply step_balanced.
Qed.

End ToastFacts.

(** X18. The progress shown is the progress requested, capped at 100: over
    any sequence of [updateProgress] and [complete] calls on a fresh
    tracker, each update makes exactly one [toast.custom] call, in order,
    showing the smaller of the requested value and 100; no toast ever shows
    more than 100. *)
Theorem upload_progress_capped toaster fileName fileSize ops :
  let log := snd (UploadProgress.run toaster fileName fileSize ops
                    (UploadProgress.start, [])) in
  UploadProgress.shown log
  = map (fun p => Z.min p 100) (UploadProgress.requested ops)
  /\ Forall (fun p => p <= 100) (UploadProgress.shown log).
Proof.
  cbv zeta. rewrite ToastFacts.run_shown. cbn [snd UploadProgress.shown app].
  split; [reflexivity |].
  apply Forall_forall. intros p Hp. apply in_map_iff in Hp as (q & <- & _). lia.
Qed.

(** X19. One toast at a time, and none left behind: over any sequence of
    calls on a fresh tracker, the toasts created exceed the toasts
    dismissed by one while the tracker holds an identifier and by none
    otherwise; after [complete] it holds none, so as many were dismissed as
    created; and a second [complete] in a row calls nothing. *)
Theorem upload_toast_balanced toaster fileName fileSize ops :
  let run := UploadProgress.run toaster fileName fileSize in
  UploadProgress.balanced (run ops (UploadProgress.start, []))
  /\ UploadProgress.toastId
       (fst (run (ops ++ [UploadProgress.Complete]) (UploadProgress.start, [])))
     = None
  /\ UploadProgress.created
       (snd (run (ops ++ [UploadProgress.Complete]) (UploadProgress.start, [])))
     = UploadProgress.dismissed
         (snd (run (ops ++ [UploadProgress.Complete]) (UploadProgress.start, [])))
  /\ snd (run (ops ++ [UploadProgress.Complete; UploadProgress.Complete])
            (UploadProgress.start, []))
     = snd (run (ops ++ [UploadProgress.Complete]) (UploadProgress.start, [])).
Proof.
  cbv zeta.
  assert (Hstart : UploadProgress.balanced (UploadProgress.start, []))
    by reflexivity.
  pose proof (ToastFacts.run_balanced toaster fileName fileSize ops _ Hstart) as Hb.
  assert (Hdone : UploadProgress.toastId
                    (fst (UploadProgress.run toaster fileName fileSize
                            (ops ++ [UploadProgress.Complete])
                            (UploadProgress.start, []))) = None).
  { rewrite ToastFacts.run_app.
    destruct (UploadProgress.run toaster fileName fileSize ops _) as [t log].
    cbn. unfold UploadProgress.complete.
    now destruct (UploadProgress.toastId t). }
  split; [exact Hb | split; [exact Hdone | split]].
  - pose proof (ToastFacts.run_balanced toaster fileName fileSize
                  (ops ++ [UploadProgress.Complete]) _ Hstart) as Hb'.
    unfold UploadProgress.balanced in Hb'. rewrite Hdone in Hb'. lia.
  - change [UploadProgress.Complete; UploadProgress.Complete]
      with ([UploadProgress.Complete] ++ [UploadProgress.Complete]).
    rewrite app_assoc, (ToastFacts.run_app _ _ _ (ops ++ _)).
    destruct (UploadProgress.run toaster fileName fileSize
                (ops ++ [UploadProgress.Complete]) _) as [t log].
    cbn in Hdone. cbn. unfold UploadProgress.complete. now rewrite Hdone.
Qed.

(** ** The document viewer's controls *)

(** X20. The page number stays on the document: with [numPages] known and
    at least 1, from a page between 1 and [numPages] any sequence of
    previous and next clicks leaves the page between 1 and [numPages]; next
    on the last page and previous on the first change nothing; and while
    [numPages] is unknown ([null] or 0), next changes nothing. *)
Theorem pages_stay_in_range n cs page :
  1 <= page <= n ->
  1 <= DocumentViewer.clicks (Some n) cs page <= n
  /\ DocumentViewer.nextPage (Some n) n = n
  /\ DocumentViewer.previousPage 1 = 1
  /\ DocumentViewer.nextPage None page = page
  /\ DocumentViewer.nextPage (Some 0) page = page.
Proof.
  intros Hpage.
  assert (Hn : (n =? 0) = false) by (apply Z.eqb_neq; lia).
  split; [| repeat split].
  - revert page Hpage. unfold DocumentViewer.clicks.
    induction cs as [| c cs IH]; intros page Hpage; [exact Hpage |].
    cbn [fold_left]. apply IH.
    destruct c; cbn [DocumentViewer.click];
      unfold DocumentViewer.previousPage, DocumentViewer.nextPage;
      rewrite ?Hn; lia.
  - unfold DocumentViewer.nextPage. rewrite Hn. lia.
  - unfold DocumentViewer.nextPage. lia.
  - unfold DocumentViewer.nextPage. cbn. lia.
Qed.

Lemma pages_stay_in_range_witness :
  1 <= DocumentViewer.clicks (Some 3)
         [DocumentViewer.Next; DocumentViewer.Next; DocumentViewer.Previous] 3
    <= 3.
Proof.
  refine (proj1 (pages_stay_in_range 3 _ 3 _)). lia.
Defined.

(** X21. Rotation goes round in quarter turns: after [k] clicks on rotate,
    from 0, the rotation is 90 times the remainder of [k] by 4; so it is
    always 0, 90, 180 or 270, and four clicks restore the page. *)
Theorem rotation_quarter_turns k :
  Nat.iter k DocumentViewer.handleRotate 0 = 90 * (Z.of_nat k mod 4)
  /\ Nat.iter (k + 4) DocumentViewer.handleRotate 0
     = Nat.iter k DocumentViewer.handleRotate 0.
Proof.
  assert (Hk : forall j, Nat.iter j DocumentViewer.handleRotate 0
                         = 90 * (Z.of_nat j mod 4)).
  { induction j as [| j IH]; [reflexivity |].
    rewrite Nat.iter_succ, IH. unfold DocumentViewer.handleRotate.
    rewrite Nat2Z.inj_succ.
    pose proof (Z.mod_pos_bound (Z.of_nat j) 4 ltac:(lia)) as Hm.
    rewrite Z.rem_mod_nonneg by lia.
    pose proof (Z.div_mod (Z.of_nat j) 4 ltac:(lia)) as Hdm.
    assert (Hcases : Z.of_nat j mod 4 = 0 \/ Z.of_nat j mod 4 = 1
                     \/ Z.of_nat j mod 4 = 2 \/ Z.of_nat j mod 4 = 3) by lia.
    assert (Hs : Z.succ (Z.of_nat j) mod 4 = (Z.of_nat j mod 4 + 1) mod 4).
    { rewrite <- Z.add_1_r. rewrite Z.add_mod by lia.
      now rewrite (Z.mod_small 1 4) by lia. }
    rewrite Hs.
    destruct Hcases as [-> | [-> | [-> | ->]]]; reflexivity. }
  split; [apply Hk |].
  rewrite !Hk. f_equal. rewrite Nat2Z.inj_add.
  change (Z.of_nat 4) with (1 * 4). now rewrite Z.mod_add by lia.
Qed.

(** ** The floating video window *)

(** X22. The name of a resize edge can be read back: for the four hit
    tests of a mouse-down, the name built from them includes [top],
    [bottom], [left] and [right] exactly for the tests that hit, which is
    what the move handler reads.  The cursor for that name is none when
    nothing hit, [default] when opposite sides hit together, and otherwise
    the resize cursor of the side or corner. *)
Theorem edge_name_decodes hitTop hitBottom hitLeft hitRight :
  let edge := FloatingVideo.edgeName hitTop hitBottom hitLeft hitRight in
  FloatingVideo.includes edge "top" = hitTop
  /\ FloatingVideo.includes edge "bottom" = hitBottom
  /\ FloatingVideo.includes edge "left" = hitLeft
  /\ FloatingVideo.includes edge "right" = hitRight
  /\ FloatingVideo.getResizeCursor (Some edge)
     = (if negb (hitTop || hitBottom || hitLeft || hitRight) then None
        else if (hitTop && hitBottom) || (hitLeft && hitRight)
        then Some "default"%string
        else if (hitTop || hitBottom) && (hitLeft || hitRight)
        then (if (hitTop && hitLeft) || (hitBottom && hitRight)
              then Some "nwse-resize"%string else Some "nesw-resize"%string)
        else if hitTop || hitBottom then Some "ns-resize"%string
        else Some "ew-resize"%string).
Proof.
  destruct hitTop, hitBottom, hitLeft, hitRight; repeat split.
Qed.



(** X24. Resizing keeps the window at least 200 by 150 and keeps the
    opposite edge in place.  During a resize the move handler sets the
    width to at least 200 when the edge name includes [left] or [right]
    and leaves it otherwise, and likewise the height with 150, [top] and
    [bottom]; resizing from the left keeps [x + width] and resizing from
    the top keeps [y + height]; without [left] and [top] in the name the
    position does not move; and the pointer becomes the new drag start. *)
Theorem resize_keeps_opposite_edge innerWidth innerHeight clientX clientY s edge :
  FloatingVideo.isResizing s = true ->
  FloatingVideo.resizeEdge s = Some edge -> edge <> ""%string ->
  let s' := FloatingVideo.handleMouseMove innerWidth innerHeight clientX clientY s in
  let w := FloatingVideo.width (FloatingVideo.size s) in
  let h := FloatingVideo.height (FloatingVideo.size s) in
  let w' := FloatingVideo.width (FloatingVideo.size s') in
  let h' := FloatingVideo.height (FloatingVideo.size s') in
  let px := FloatingVideo.x (FloatingVideo.position s) in
  let py := FloatingVideo.y (FloatingVideo.position s) in
  let px' := FloatingVideo.x (FloatingVideo.position s') in
  let py' := FloatingVideo.y (FloatingVideo.position s') in
  (if FloatingVideo.includes edge "left" || FloatingVideo.includes edge "right"
   then 200 <= w' else w' = w)
  /\ (if FloatingVideo.includes edge "top" || FloatingVideo.includes edge "bottom"
      then 150 <= h' else h' = h)
  /\ (if FloatingVideo.includes edge "left" then px' + w' = px + w else px' = px)
  /\ (if FloatingVideo.includes edge "top" then py' + h' = py + h else py' = py)
  /\ (200 <= w -> 200 <= w') /\ (150 <= h -> 150 <= h')
  /\ FloatingVideo.dragStart s'
     = {| FloatingVideo.x := clientX; FloatingVideo.y := clientY |}.
Proof.
  intros Hres Hedge Hne. cbv zeta.
  unfold FloatingVideo.handleMouseMove. rewrite Hres, Hedge.
  apply String.eqb_neq in Hne. rewrite Hne.
  destruct (FloatingVideo.includes edge "left"),
    (FloatingVideo.includes edge "right"),
    (FloatingVideo.includes edge "top"),
    (FloatingVideo.includes edge "bottom");
    cbn [orb FloatingVideo.size FloatingVideo.position FloatingVideo.dragStart
           FloatingVideo.width FloatingVideo.height FloatingVideo.x
           FloatingVideo.y];
    repeat split; lia.
Qed.

Lemma resize_keeps_opposite_edge_witness :
  let s := {| FloatingVideo.isDragging := false;
              FloatingVideo.isResizing := true;
              FloatingVideo.position := {| FloatingVideo.x := 600; FloatingVideo.y := 400 |};
              FloatingVideo.dragStart := {| FloatingVideo.x := 600; FloatingVideo.y := 500 |};
              FloatingVideo.size := {| FloatingVideo.width := 360; FloatingVideo.height := 280 |};
              FloatingVideo.resizeEdge := Some "left"%string |} in
  let s' := FloatingVideo.handleMouseMove 1024 768 900 500 s in
  FloatingVideo.x (FloatingVideo.position s')
  + FloatingVideo.width (FloatingVideo.size s') = 600 + 360.
Proof.
  cbv zeta.
  refine (proj1 (proj2 (proj2
            (resize_keeps_opposite_edge 1024 768 900 500 _ "left" _ _ _))));
    [reflexivity | reflexivity | discriminate].
Defined.

(** ** Extensions, applications and folders *)

Module FileTypeFacts.
Import FileTypes.

Lemma includes_In list x : includes list x = true -> In x list.
Proof.
  unfold includes. intros H. apply existsb_exists in H as (y & Hin & Heq).
  apply String.eqb_eq in Heq. now subst.
Qed.

Lemma append_inj home a b : (home ++ a = home ++ b)%string -> a = b.
Proof. induction home as [| c home IH]; cbn; [easy |]. intros [= H]. auto. Qed.

Lemma toLowerCaseChar_idem c :
  toLowerCaseChar (toLowerCaseChar c) = toLowerCaseChar c.
Proof. destruct c as [[] [] [] [] [] [] [] []]; reflexivity. Qed.

Lemma toLowerCaseChar_dot c :
  Ascii.eqb (toLowerCaseChar c) "." = Ascii.eqb c ".".
Proof. destruct c as [[] [] [] [] [] [] [] []]; reflexivity. Qed.

Lemma toLowerCase_idem s : toLowerCase (toLowerCase s) = toLowerCase s.
Proof.
  induction s as [| c s IH]; cbn; [reflexivity |].
  now rewrite toLowerCaseChar_idem, IH.
Qed.

Lemma split_toLowerCase s :
  JS.split "." (toLowerCase s) = map toLowerCase (JS.split "." s).
Proof.
  induction s as [| c s IH]; [reflexivity |].
  cbn [toLowerCase JS.split]. rewrite toLowerCaseChar_dot, IH.
  destruct (Ascii.eqb c "."); [reflexivity |].
  now destruct (JS.split "." s).
Qed.

Lemma pop_map (f : string -> string) l : JS.pop (map f l) = option_map f (JS.pop l).
Proof.
  induction l as [| a [| b l] IH]; [reflexivity | reflexivity |].
  cbn [map JS.pop] in *. exact IH.
Qed.

Lemma extensionOf_toLowerCase filename :
  extensionOf (toLowerCase filename) = extensionOf filename.
Proof.
  unfold extensionOf. rewrite split_toLowerCase, pop_map.
  destruct (JS.pop (JS.split "." filename)); cbn; [| reflexivity].
  now rewrite toLowerCase_idem.
Qed.

End FileTypeFacts.

(** X25. The application table and the folder table agree.  For every
    file name and home path: the file opens in [music] exactly when its
    folder is [<home>/Music], and in [photos] exactly when its folder is
    [<home>/Pictures]; a file that opens in [notepad] has no folder; and a
    folder, when there is one, is [<home>/] followed by Music, Pictures,
    Videos or Documents. *)
Theorem app_and_folder_agree filename homePath :
  let app := FileTypes.getAppForExtension filename in
  let folder := FileTypes.getCategoryFolderForFile filename homePath in
  (app = Some "music"%string <-> folder = Some (homePath ++ "/Music")%string)
  /\ (app = Some "photos"%string
      <-> folder = Some (homePath ++ "/Pictures")%string)
  /\ (app = Some "notepad"%string -> folder = None)
  /\ match folder with
     | Some f =>
         exists name,
           f = (homePath ++ "/" ++ name)%string
           /\ In name ["Music"; "Pictures"; "Videos"; "Documents"]%string
     | None => True
     end.
Proof.
  cbv zeta.
  unfold FileTypes.getAppForExtension, FileTypes.getCategoryFolderForFile.
  destruct (negb (JS.truthy (FileTypes.extensionOf filename)));
    [split; [| split; [| split]]; try split; (discriminate || trivial) |].
  set (ext := match FileTypes.extensionOf filename with
              | Some e => e
              | None => ""%string
              end).
  destruct (FileTypes.includes ["mp3"; "wav"; "flac"; "ogg"; "m4a"] ext).
  { split; [| split; [| split]]; try split; try discriminate; trivial;
      try (intros [= H]; apply FileTypeFacts.append_inj in H; discriminate).
    exists "Music"%string. split; [reflexivity | now left]. }
  destruct (FileTypes.includes
              ["txt"; "md"; "json"; "js"; "ts"; "tsx"; "css"; "html"; "htm"] ext)
    eqn:Htext.
  { apply FileTypeFacts.includes_In in Htext.
    repeat (destruct Htext as [<- | Htext];
            [cbn; split; [| split; [| split]]; try split;
             (discriminate || trivial) |]).
    destruct Htext. }
  destruct (FileTypes.includes ["jpg"; "jpeg"; "png"; "gif"; "webp"; "svg"] ext).
  { split; [| split; [| split]]; try split; try discriminate; trivial.
    - intros [= H]. apply FileTypeFacts.append_inj in H. discriminate.
    - exists "Pictures"%string. split; [reflexivity | now right; left]. }
  destruct (FileTypes.includes
              ["mp4"; "mkv"; "avi"; "mov"; "flv"; "wmv"; "webm"] ext).
  { split; [| split; [| split]]; try split; try discriminate;
      try (intros [= H]; apply FileTypeFacts.append_inj in H; discriminate).
    exists "Videos"%string. split; [reflexivity | now right; right; left]. }
  destruct (FileTypes.includes
              ["pdf"; "doc"; "docx"; "xls"; "xlsx"; "ppt"; "pptx"] ext).
  { split; [| split; [| split]]; try split; try discriminate;
      try (intros [= H]; apply FileTypeFacts.append_inj in H; discriminate).
    exists "Documents"%string.
    split; [reflexivity | now right; right; right; left]. }
  split; [| split; [| split]]; try split; (discriminate || trivial).
Qed.

(** X26. Both tables ignore the case of the name: a file name and its
    lower-case form get the same application and the same folder. *)
Theorem file_type_ignores_case filename homePath :
  FileTypes.getAppForExtension (FileTypes.toLowerCase filename)
  = FileTypes.getAppForExtension filename
  /\ FileTypes.getCategoryFolderForFile (FileTypes.toLowerCase filename) homePath
     = FileTypes.getCategoryFolderForFile filename homePath.
Proof.
  unfold FileTypes.getAppForExtension, FileTypes.getCategoryFolderForFile.
  now rewrite FileTypeFacts.extensionOf_toLowerCase.
Qed.
